(** * Gradient-based receding-horizon MPC for an RC thermal zone

    Shallow embedding of [resources/tutorials/jax/optimal_control_mpc.py]
    (class [MPC], [get_ABCD], [zone_state_space], [forward] and the
    closed-loop driver of the [__main__] block with its data access and
    its indicators) and of the block modules [BaseBlockSSM] and [RCModel]
    of [resources/jax/forward-simulation/state_space.py].

    Conventions of the embedding.
    - Floating-point numbers are idealised as exact rationals [Q]; claims
      are read up to [Qeq].  Clock values ([ts], [te], [dt], [self.time])
      are Python ints in the driver and are integers [Z] here.
    - The idealisation covers the runs in which every number is finite.
      With a zero capacitance or resistance the code's [1/0] is infinite,
      [A] and [B] have infinite entries and the cost can be NaN, for
      which the test [loss > tolerance] is false; a clock outside the
      32-bit range cannot be handed to the jit-compiled zone model
      ([OverflowError]).  The statements that depend on it carry
      [finite_zone] and [int32] as hypotheses.
    - A rank-1 array of shape (n,) is a [vec], a rank-2 array of shape
      (r,c) is a [matrix] given by its rows.  NumPy broadcasting is
      written out ([zipb], [bop2]); a rank-1 operand meeting a rank-2
      operand is promoted to the single-row matrix [[v]].
    - A Python call either returns, raises, or loops for ever: [outcome].
      Methods of [MPC] live in the monad [M] that threads the object
      [self] and propagates exceptions.
    - [jax.value_and_grad], the [optax] optimizer and the [diffrax] solver
      are library code: the first two are taken through their interfaces
      (section variables), the Euler solver is written out. *)

From Stdlib Require Import ZArith QArith Qabs List Bool Lia Lqa.
From Stdlib Require String.
Import ListNotations.

Set Implicit Arguments.
Open Scope Q_scope.

(* ================================================================== *)
(** ** Outcomes of Python calls *)

Inductive exn : Type :=
| IndexError
| TypeError
| AttributeError
| UnboundLocalError.

Inductive outcome (A : Type) : Type :=
| Ok (a : A)
| Raise (e : exn)
| Diverge.

Arguments Ok {A} a.
Arguments Raise {A} e.
Arguments Diverge {A}.

Definition obind {A B} (o : outcome A) (k : A -> outcome B) : outcome B :=
  match o with
  | Ok a => k a
  | Raise e => Raise e
  | Diverge => Diverge
  end.

Definition omap {A B} (f : A -> B) (o : outcome A) : outcome B :=
  obind o (fun a => Ok (f a)).

Declare Scope outcome_scope.
Delimit Scope outcome_scope with out.
Notation "x <-- c ;; k" := (obind c (fun x => k))
  (at level 61, c at next level, right associativity) : outcome_scope.
Notation "' pat <-- c ;; k" := (obind c (fun x => match x with pat => k end))
  (at level 61, pat pattern, c at next level, right associativity) : outcome_scope.

(** All calls of a list must return; the first failure wins. *)
Fixpoint sequence {A} (l : list (outcome A)) : outcome (list A) :=
  match l with
  | [] => Ok []
  | o :: l' => obind o (fun a => obind (sequence l') (fun r => Ok (a :: r)))
  end.

(* ================================================================== *)
(** ** Arrays *)

Definition vec := list Q.
Definition matrix := list vec.

Definition Qgtb (a b : Q) : bool := negb (Qle_bool a b).

(** [jax.nn.relu] and [jnp.abs]. *)
Definition relu (x : Q) : Q := if Qle_bool x 0 then 0 else x.

(** [jnp.sum] over every entry. *)
Definition vsum (v : vec) : Q := fold_right Qplus 0 v.
Definition msum (m : matrix) : Q := vsum (map vsum m).

(** Broadcasting along one axis: equal lengths combine pointwise, an axis
    of length 1 is stretched, anything else is a shape error. *)
Definition zipb {A B C} (f : A -> B -> C) (l1 : list A) (l2 : list B)
  : outcome (list C) :=
  if (length l1 =? length l2)%nat then Ok (map (fun p => f (fst p) (snd p)) (combine l1 l2))
  else match l1, l2 with
       | [a], _ => Ok (map (f a) l2)
       | _, [b] => Ok (map (fun a => f a b) l1)
       | _, _ => Raise TypeError
       end.

(** A binary operator on two rank-2 arrays, broadcasting both axes. *)
Definition bop2 (f : Q -> Q -> Q) (a b : matrix) : outcome matrix :=
  obind (zipb (fun ra rb => zipb f ra rb) a b) (@sequence vec).

Definition mmap (f : Q -> Q) (m : matrix) : matrix := map (map f) m.

(** [v.reshape(-1, 1)] for a rank-1 array. *)
Definition column (v : vec) : matrix := map (fun x => [x]) v.

(** Retrieval [a[i]] on a JAX array: an out-of-range index is clamped to
    the last position; an empty axis cannot be indexed. *)
Definition getitem {A} (l : list A) (i : nat) : outcome A :=
  match l with
  | [] => Raise IndexError
  | a :: _ => Ok (nth (Nat.min i (length l - 1)) l a)
  end.

(** [a[-1]]. *)
Definition getlast {A} (l : list A) : outcome A :=
  match l with
  | [] => Raise IndexError
  | a :: _ => Ok (last l a)
  end.

(** [row.at[i].set(x)]: an out-of-range update is dropped. *)
Fixpoint at_set (i : nat) (x : Q) (row : vec) : vec :=
  match row, i with
  | [], _ => []
  | _ :: r, O => x :: r
  | y :: r, S i' => y :: at_set i' x r
  end.

(** [jnp.concatenate((a, b, c), axis=1)]: the row counts must agree. *)
Definition concat_cols3 (a b c : matrix) : outcome matrix :=
  if ((length a =? length b) && (length b =? length c))%nat
  then Ok (map (fun p => fst (fst p) ++ snd (fst p) ++ snd p)
               (combine (combine a b) c))
  else Raise TypeError.

Definition dot (x y : vec) : Q :=
  vsum (map (fun p => fst p * snd p) (combine x y)).

(** [jnp.matmul(A, x.reshape(-1, 1)).reshape(-1)]: every row of [A] must be
    as long as [x]. *)
Definition matvec (A : matrix) (x : vec) : outcome vec :=
  if forallb (fun r => (length r =? length x)%nat) A
  then Ok (map (fun r => dot r x) A)
  else Raise TypeError.

(* ================================================================== *)
(** ** Plant matrices *)

(** The value bound to [D]: [get_ABCD] binds the Python int [0], the
    [RCModel.fyu] module binds a rank-2 array. *)
Inductive pyvalue : Type :=
| PyInt (z : Z)
| Array2 (m : matrix).

Record ZoneParams : Type := mkZone {
  Cai : Q; Cwe : Q; Cwi : Q; Re : Q; Ri : Q; Rw : Q; Rg : Q
}.

Definition zeros (r c : nat) : matrix := repeat (repeat 0 c) r.

(** [M.at[i, j].set(x)]. *)
Fixpoint mat_set (i j : nat) (x : Q) (m : matrix) : matrix :=
  match m, i with
  | [], _ => []
  | r :: m', O => at_set j x r :: m'
  | r :: m', S i' => r :: mat_set i' j x m'
  end.

(** [get_ABCD(Cai, Cwe, Cwi, Re, Ri, Rw, Rg)].  The entries are those of
    the code for parameters that are not zero ([finite_zone]); a division
    by a zero parameter is infinite in the code and has no counterpart
    here. *)
Definition get_ABCD (p : ZoneParams) : matrix * matrix * matrix * pyvalue :=
  let A := zeros 3 3 in
  let B := zeros 3 5 in
  let C := zeros 1 3 in
  let A := mat_set 0 0 (-(1) / Cai p * (1 / Rg p + 1 / Ri p)) A in
  let A := mat_set 0 2 (1 / (Cai p * Ri p)) A in
  let A := mat_set 1 1 (-(1) / Cwe p * (1 / Re p + 1 / Rw p)) A in
  let A := mat_set 1 2 (1 / (Cwe p * Rw p)) A in
  let A := mat_set 2 0 (1 / (Cwi p * Ri p)) A in
  let A := mat_set 2 1 (1 / (Cwi p * Rw p)) A in
  let A := mat_set 2 2 (-(1) / Cwi p * (1 / Rw p + 1 / Ri p)) A in
  let B := mat_set 0 0 (1 / (Cai p * Rg p)) B in
  let B := mat_set 0 1 (1 / Cai p) B in
  let B := mat_set 0 2 (1 / Cai p) B in
  let B := mat_set 1 0 (1 / (Cwe p * Re p)) B in
  let B := mat_set 1 3 (1 / Cwe p) B in
  let B := mat_set 2 4 (1 / Cwi p) B in
  let C := mat_set 0 0 1 C in
  let D := PyInt 0 in
  (A, B, C, D).

(** The [setup] methods of [RCModel.fxx], [fxu], [fyx] and [fyu]. *)
Module RCModel.

Definition fxx_A (p : ZoneParams) : matrix :=
  let A := zeros 3 3 in
  let A := mat_set 0 0 (-(1) / Cai p * (1 / Rg p + 1 / Ri p)) A in
  let A := mat_set 0 2 (1 / (Cai p * Ri p)) A in
  let A := mat_set 1 1 (-(1) / Cwe p * (1 / Re p + 1 / Rw p)) A in
  let A := mat_set 1 2 (1 / (Cwe p * Rw p)) A in
  let A := mat_set 2 0 (1 / (Cwi p * Ri p)) A in
  let A := mat_set 2 1 (1 / (Cwi p * Rw p)) A in
  let A := mat_set 2 2 (-(1) / Cwi p * (1 / Rw p + 1 / Ri p)) A in
  A.

Definition fxu_B (p : ZoneParams) : matrix :=
  let B := zeros 3 5 in
  let B := mat_set 0 0 (1 / (Cai p * Rg p)) B in
  let B := mat_set 0 1 (1 / Cai p) B in
  let B := mat_set 0 2 (1 / Cai p) B in
  let B := mat_set 1 0 (1 / (Cwe p * Re p)) B in
  let B := mat_set 1 3 (1 / Cwe p) B in
  let B := mat_set 2 4 (1 / Cwi p) B in
  B.

Definition fyx_C : matrix := mat_set 0 0 1 (zeros 1 3).

Definition fyu_D : pyvalue := Array2 (zeros 1 5).

End RCModel.

(* ================================================================== *)
(** ** Zone dynamics and the integration loop *)

(** [args = (A, B, d)] with [d] one disturbance row. *)
Definition ode_args : Type := (matrix * matrix * vec)%type.

(** [zone_state_space(t, x, A, B, d)]: [A @ x + B @ d].  The clock [t]
    is not used; the function is jit-compiled, so the code accepts a
    Python int [t] only in the 32-bit range ([int32]). *)
Definition zone_state_space (t : Z) (x : vec) (A B : matrix) (d : vec)
  : outcome vec :=
  (Ax <-- matvec A x ;;
   Bd <-- matvec B d ;;
   zipb Qplus Ax Bd)%out.

Definition f (t : Z) (x : vec) (args : ode_args) : outcome vec :=
  let '(A, B, d) := args in zone_state_space t x A B d.

(** The part of a diffrax solver that [forward] uses. *)
Record Solver : Type := mkSolver {
  solver_state : Type;
  solver_init : Z -> Z -> vec -> ode_args -> solver_state;
  solver_step : (Z -> vec -> ode_args -> outcome vec) ->
                Z -> Z -> vec -> ode_args -> solver_state ->
                outcome (vec * solver_state)
}.

(** [diffrax.Euler]: [y1 = y0 + f(t0, y0, args) * (t1 - t0)], no solver
    state. *)
Definition Euler : Solver := {|
  solver_state := unit;
  solver_init := fun _ _ _ _ => tt;
  solver_step := fun func t0 t1 y0 args _ =>
    (dy <-- func t0 y0 args ;;
     y1 <-- zipb Qplus y0 (map (fun v => v * inject_Z (t1 - t0)) dy) ;;
     Ok (y1, tt))%out
|}.

(** [jnp.concatenate([x_all, x.reshape(1, -1)], axis=0)]: the appended row
    must be as wide as the rows already there. *)
Definition append_row (x_all : matrix) (x : vec) : outcome matrix :=
  if forallb (fun r => (length r =? length x)%nat) x_all
  then Ok (x_all ++ [x])
  else Raise TypeError.

Section Forward.

Variable func : Z -> vec -> ode_args -> outcome vec.
Variable solver : Solver.
Variables (A B : matrix) (d : matrix).
Variables (te dt : Z).

(** The [while tprev < te] loop; [fuel] bounds the number of passes. *)
Fixpoint forward_loop (fuel : nat) (tprev tnext : Z) (i : nat) (x : vec)
    (args : ode_args) (state : solver_state solver)
    (t_all : list Z) (x_all : matrix) : outcome (list Z * matrix) :=
  if (tprev <? te)%Z then
    match fuel with
    | O => Diverge
    | S fuel' =>
        ('(x, state) <-- solver_step solver func tprev tnext x args state ;;
         let tprev := tnext in
         let tnext := Z.min (tprev + dt) te in
         let i := S i in
         dnext <-- getitem d i ;;
         let args := (A, B, dnext) in
         let t_all := t_all ++ [tnext] in
         x_all <-- append_row x_all x ;;
         forward_loop fuel' tprev tnext i x args state t_all x_all)%out
    end
  else Ok (t_all, x_all).

End Forward.

(** [forward(func, ts, te, dt, x0, solver, args)].  Clock values are
    integers, so with [dt >= 1] the loop makes at most [te - ts] passes;
    with [dt <= 0] and [ts < te] the Python loop never ends. *)
Definition forward_fuel (ts te : Z) : nat := Z.to_nat (te - ts).

Definition forward (func : Z -> vec -> ode_args -> outcome vec)
    (ts te dt : Z) (x0 : vec) (solver : Solver)
    (args : matrix * matrix * matrix) : outcome (list Z * matrix) :=
  let '(A, B, d) := args in
  let tprev := ts in
  let tnext := (ts + dt)%Z in
  (dprev <-- getitem d 0 ;;
   let args := (A, B, dprev) in
   let state := solver_init solver tprev tnext x0 args in
   let t_all := [tprev] in
   let x_all := [x0] in
   forward_loop func solver A B d te dt (forward_fuel ts te)
                tprev tnext 0 x0 args state t_all x_all)%out.

(** [forward] once more, the loop keeping a record of the row indices
    at which [d] is read: [d[0, :]] before the loop (line 221) and
    [d[i, :]] in every pass (line 243). *)
Fixpoint forward_loop_reads (func : Z -> vec -> ode_args -> outcome vec)
    (solver : Solver) (A B d : matrix) (te dt : Z) (fuel : nat)
    (tprev tnext : Z) (i : nat) (x : vec) (args : ode_args)
    (state : solver_state solver) (t_all : list Z) (x_all : matrix)
    (reads : list nat) : outcome (list Z * matrix * list nat) :=
  if (tprev <? te)%Z then
    match fuel with
    | O => Diverge
    | S fuel' =>
        ('(x, state) <-- solver_step solver func tprev tnext x args state ;;
         let tprev := tnext in
         let tnext := Z.min (tprev + dt) te in
         let i := S i in
         let reads := reads ++ [i] in
         dnext <-- getitem d i ;;
         let args := (A, B, dnext) in
         let t_all := t_all ++ [tnext] in
         x_all <-- append_row x_all x ;;
         forward_loop_reads func solver A B d te dt fuel' tprev tnext i x
                            args state t_all x_all reads)%out
    end
  else Ok (t_all, x_all, reads).

Definition forward_reads (func : Z -> vec -> ode_args -> outcome vec)
    (ts te dt : Z) (x0 : vec) (solver : Solver)
    (args : matrix * matrix * matrix)
  : outcome (list Z * matrix * list nat) :=
  let '(A, B, d) := args in
  let tprev := ts in
  let tnext := (ts + dt)%Z in
  let reads := [0%nat] in
  (dprev <-- getitem d 0 ;;
   let args := (A, B, dprev) in
   let state := solver_init solver tprev tnext x0 args in
   let t_all := [tprev] in
   let x_all := [x0] in
   forward_loop_reads func solver A B d te dt (forward_fuel ts te)
                      tprev tnext 0 x0 args state t_all x_all reads)%out.

(* ================================================================== *)
(** ** The controller object *)

(** The attributes of an [MPC] instance.  [time] and [state] do not exist
    until [set_time] and [set_state] have been called. *)
Module attr.
Record obj : Type := mk {
    PH : nat;
    CH : nat;
    dt : Z;
    NU : nat;
    predictor : ZoneParams;
    occ_start : nat;
    occ_end : nat;
    u_lb : matrix;
    u_ub : matrix;
    ode_solver : Solver;
    T_ub : vec;
    T_lb : vec;
    price : vec;
    u_start : matrix;
    time : option Z;
    state : option vec
  }.
End attr.

Definition MPC : Type := attr.obj.

(** Methods: read and write [self], may raise. *)
Definition M (A : Type) : Type := MPC -> outcome (A * MPC).

Definition ret {A} (a : A) : M A := fun self => Ok (a, self).

Definition bind {A B} (m : M A) (k : A -> M B) : M B :=
  fun self =>
    match m self with
    | Ok (a, self') => k a self'
    | Raise e => Raise e
    | Diverge => Diverge
    end.

Definition lift {A} (o : outcome A) : M A :=
  fun self =>
    match o with
    | Ok a => Ok (a, self)
    | Raise e => Raise e
    | Diverge => Diverge
    end.

(** [self.name] for an attribute set by [__init__]. *)
Definition getattr {A} (proj : MPC -> A) : M A :=
  fun self => Ok (proj self, self).

(** [self.name] for an attribute that may not have been set yet. *)
Definition getattr_opt {A} (proj : MPC -> option A) : M A :=
  fun self =>
    match proj self with
    | Some a => Ok (a, self)
    | None => Raise AttributeError
    end.

Declare Scope method_scope.
Delimit Scope method_scope with method.
Notation "x <- c ;; k" := (bind c (fun x => k))
  (at level 61, c at next level, right associativity) : method_scope.
Notation "' pat <- c ;; k" := (bind c (fun x => match x with pat => k end))
  (at level 61, pat pattern, c at next level, right associativity) : method_scope.

(** The schedule [[hi]*24] with [[occ_start:occ_end]] overwritten by [lo]. *)
Definition schedule (hi lo : Q) (occ_start occ_end : nat) : vec :=
  map (fun i => if ((occ_start <=? i) && (i <? occ_end))%nat then lo else hi)
      (seq 0 24).

(** [jnp.repeat(a, n)]: the flattened entries, each [n] times. *)
Definition jnp_repeat (a : matrix) (n : nat) : vec :=
  flat_map (fun x => repeat x n) (concat a).

(** [MPC.__init__(PH, CH, dt, predictor, price)]. *)
Definition MPC_init (PH CH : nat) (dt : Z) (predictor : ZoneParams)
    (price : vec) : MPC :=
  let NU := 1%nat in
  let occ_start := 8%nat in
  let occ_end := 18%nat in
  let u_lb := [map (fun x => -(10) * x) (repeat 1 NU)] in
  let u_ub := [map (fun x => 0 * x) (repeat 1 NU)] in
  {| attr.PH := PH; attr.CH := CH; attr.dt := dt; attr.NU := NU;
     attr.predictor := predictor;
     attr.occ_start := occ_start; attr.occ_end := occ_end;
     attr.u_lb := u_lb; attr.u_ub := u_ub;
     attr.ode_solver := Euler;
     attr.T_ub := schedule 30 26 occ_start occ_end;
     attr.T_lb := schedule 12 22 occ_start occ_end;
     attr.price := price;
     attr.u_start := column (jnp_repeat u_ub PH);
     attr.time := None;
     attr.state := None |}.

Definition set_time (time : Z) : M unit :=
  fun self =>
    Ok (tt,
        {| attr.PH := attr.PH self; attr.CH := attr.CH self;
           attr.dt := attr.dt self; attr.NU := attr.NU self;
           attr.predictor := attr.predictor self;
           attr.occ_start := attr.occ_start self;
           attr.occ_end := attr.occ_end self;
           attr.u_lb := attr.u_lb self; attr.u_ub := attr.u_ub self;
           attr.ode_solver := attr.ode_solver self;
           attr.T_ub := attr.T_ub self; attr.T_lb := attr.T_lb self;
           attr.price := attr.price self;
           attr.u_start := attr.u_start self;
           attr.time := Some time;
           attr.state := attr.state self |}).

Definition set_state (state : vec) : M unit :=
  fun self =>
    Ok (tt,
        {| attr.PH := attr.PH self; attr.CH := attr.CH self;
           attr.dt := attr.dt self; attr.NU := attr.NU self;
           attr.predictor := attr.predictor self;
           attr.occ_start := attr.occ_start self;
           attr.occ_end := attr.occ_end self;
           attr.u_lb := attr.u_lb self; attr.u_ub := attr.u_ub self;
           attr.ode_solver := attr.ode_solver self;
           attr.T_ub := attr.T_ub self; attr.T_lb := attr.T_lb self;
           attr.price := attr.price self;
           attr.u_start := attr.u_start self;
           attr.time := attr.time self;
           attr.state := Some state |}).

(** [jnp.concatenate((a, b), axis=0)]: all rows must have one width. *)
Definition concat_rows (a b : matrix) : outcome matrix :=
  match a ++ b with
  | [] => Ok []
  | r :: _ =>
      if forallb (fun r' => (length r' =? length r)%nat) (a ++ b)
      then Ok (a ++ b)
      else Raise TypeError
  end.

Definition set_u_start_from_last_step (u_prev : matrix) : M unit :=
  fun self =>
    (u_start <-- concat_rows (skipn (attr.NU self) u_prev) (attr.u_ub self) ;;
     Ok (tt,
         {| attr.PH := attr.PH self; attr.CH := attr.CH self;
            attr.dt := attr.dt self; attr.NU := attr.NU self;
            attr.predictor := attr.predictor self;
            attr.occ_start := attr.occ_start self;
            attr.occ_end := attr.occ_end self;
            attr.u_lb := attr.u_lb self; attr.u_ub := attr.u_ub self;
            attr.ode_solver := attr.ode_solver self;
            attr.T_ub := attr.T_ub self; attr.T_lb := attr.T_lb self;
            attr.price := attr.price self;
            attr.u_start := u_start;
            attr.time := attr.time self;
            attr.state := attr.state self |}))%out.

(** [get_u_violations(self, u)]. *)
Definition get_u_violations (u : matrix) : M Q :=
  (u_ub <- getattr attr.u_ub ;;
   PH <- getattr attr.PH ;;
   let u_ub_ph := jnp_repeat u_ub PH in
   u_ub <- getattr attr.u_ub ;;
   over <- lift (bop2 Qminus u u_ub) ;;
   u_lb <- getattr attr.u_lb ;;
   under <- lift (bop2 Qminus u_lb u) ;;
   both <- lift (bop2 Qplus (mmap relu over) (mmap relu under)) ;;
   ret (msum both))%method.

(** Lines 158-162 of [get_T_violations]: the penalty of a trajectory
    [xs] against the bound columns.  [Tz_ph] has shape (n+1,), the bounds
    have shape (PH,1); the differences broadcast to shape (PH, n+1). *)
Definition T_violations_of (xs : matrix) (T_ub_ph T_lb_ph : matrix)
  : outcome Q :=
  (Tz_ph <-- sequence (map (fun r => getitem r 0) xs) ;;
   over <-- bop2 Qminus [Tz_ph] T_ub_ph ;;
   let T_vio_ub_ph := mmap relu over in
   under <-- bop2 Qminus T_lb_ph [Tz_ph] ;;
   let T_vio_lb_ph := mmap relu under in
   let T_vios := msum T_vio_ub_ph + msum T_vio_lb_ph in
   Ok T_vios)%out.

(** [get_T_violations(self, state, ts, te, dt, disturbance, T_ub_ph, T_lb_ph)]. *)
Definition get_T_violations (state : vec) (ts te dt : Z)
    (disturbance : matrix) (T_ub_ph T_lb_ph : matrix) : M Q :=
  (time <- getattr_opt attr.time ;;
   zone <- getattr attr.predictor ;;
   let '(A, B, C, D) := get_ABCD zone in
   let args := (A, B, disturbance) in
   ode_solver <- getattr attr.ode_solver ;;
   '(ts, xs) <- lift (forward f ts te dt state ode_solver args) ;;
   lift (T_violations_of xs T_ub_ph T_lb_ph))%method.

(** Lines 143-145 of [loss_mpc]:
    [jnp.sum(price*jnp.abs(u)*self.dt/3600 + T_vios + u_vios)].  The
    energy term has the shape of [price * |u|]; [T_vios] and [u_vios] are
    scalars and are added to every entry of it before the sum. *)
Definition objective (price u : matrix) (self_dt : Z) (T_vios u_vios : Q)
  : outcome Q :=
  (energy <-- bop2 Qmult price (mmap Qabs u) ;;
   let obj := mmap (fun e => e * inject_Z self_dt / 3600 + T_vios + u_vios)
                   energy in
   Ok (msum obj))%out.

(** [loss_mpc(self, params, state, ts, te, dt, disturbance, T_ub, T_lb, price)];
    [params] stands for the dictionary [{'u': u}]. *)
Definition loss_mpc (params : matrix) (state : vec) (ts te dt : Z)
    (disturbance : matrix) (T_ub T_lb price : matrix) : M Q :=
  (let u := params in
   d <- lift (concat_cols3 (map (firstn 2) disturbance) u
                           (map (skipn 3) disturbance)) ;;
   T_vios <- get_T_violations state ts te dt d T_ub T_lb ;;
   u_vios <- get_u_violations u ;;
   self_dt <- getattr attr.dt ;;
   lift (objective price u self_dt T_vios u_vios))%method.

(* ================================================================== *)
(** ** The optimization step *)

(** The interface of an [optax] gradient transformation: [init] and
    [update(grads, opt_state, params) -> (updates, opt_state)]. *)
Record Optimizer : Type := mkOptimizer {
  opt_state_t : Type;
  opt_init : matrix -> opt_state_t;
  opt_update : matrix -> opt_state_t -> matrix -> matrix * opt_state_t
}.

(** [optax.apply_updates(params, updates)]: [p + u] leaf by leaf. *)
Definition apply_updates (params updates : matrix) : outcome matrix :=
  bop2 Qplus params updates.

(** [h_ph] of [step]: the hour of day of every horizon step. *)
Definition hour_index (ts : Z) (ph : nat) (dt : Z) : nat :=
  let t := (ts + Z.of_nat ph * dt)%Z in
  Z.to_nat ((t mod 86400) / 3600).

(** [a[idx]] with [idx = np.array(list_of_ints)].  An empty list makes a
    float array, which is not a valid index. *)
Definition gather (a : vec) (idx : list nat) : outcome vec :=
  match idx with
  | [] => Raise TypeError
  | _ => sequence (map (getitem a) idx)
  end.

(** The local constants of [step]. *)
Definition lr : Q := 1 # 100.
Definition tolerance : Q := 1 # 1000000.
Definition n_epochs : nat := 1000.
Definition BIG_NUMBER : Q := 1000000.

(** The variables the [while] loop of [step] reads and assigns.  [u_ph]
    is unbound until the first pass. *)
Record loop_vars (S : Type) : Type := mkVars {
  epoch : nat;
  loss : Q;
  params : matrix;
  opt_state : S;
  u_ph : option matrix
}.

Arguments mkVars {S} epoch loss params opt_state u_ph.

Section Step.

(** [jax.grad]: the gradient of a scalar function at a point. *)
Variable grad : (matrix -> outcome Q) -> matrix -> matrix.

(** [optax.adamw(learning_rate=lr)]. *)
Variable adamw : Q -> Optimizer.

(** [jax.value_and_grad(fn)(params, ...)] for a bound method [fn]. *)
Definition value_and_grad (fn : matrix -> M Q) (params : matrix)
  : M (Q * matrix) :=
  fun self =>
    match fn params self with
    | Ok (v, self') =>
        Ok ((v, grad (fun p => omap fst (fn p self)) params), self')
    | Raise e => Raise e
    | Diverge => Diverge
    end.

Definition optimizer : Optimizer := adamw lr.

(** The loop-invariant inputs of the [while] loop. *)
Record horizon : Type := mkHorizon {
  hz_state : vec;
  hz_ts : Z;
  hz_te : Z;
  hz_disturbance : matrix;
  hz_T_ub_ph : matrix;
  hz_T_lb_ph : matrix;
  hz_price_ph : matrix
}.

(** One pass of the loop body (lines 117-132). *)
Definition loop_body (hz : horizon) (v : loop_vars (opt_state_t optimizer))
  : M (loop_vars (opt_state_t optimizer)) :=
  (let u_ph := params v in
   self_dt <- getattr attr.dt ;;
   '(loss, grads) <-
      value_and_grad
        (fun p => loss_mpc p (hz_state hz) (hz_ts hz) (hz_te hz) self_dt
                           (hz_disturbance hz) (hz_T_ub_ph hz)
                           (hz_T_lb_ph hz) (hz_price_ph hz))
        (params v) ;;
   let '(updates, opt_state) :=
     opt_update optimizer grads (opt_state v) (params v) in
   params <- lift (apply_updates (params v) updates) ;;
   let epoch := S (epoch v) in
   ret (mkVars epoch loss params opt_state (Some u_ph)))%method.

(** [while epoch < n_epochs and loss > tolerance: body], for costs that
    are numbers; a NaN cost, which a zone outside [finite_zone] can give,
    makes the test of the code false. *)
Fixpoint while_loop (fuel : nat) (hz : horizon)
    (v : loop_vars (opt_state_t optimizer))
  : M (loop_vars (opt_state_t optimizer)) :=
  if (epoch v <? n_epochs)%nat && Qgtb (loss v) tolerance then
    match fuel with
    | O => fun _ => Diverge
    | S fuel' => (v' <- loop_body hz v ;; while_loop fuel' hz v')%method
    end
  else ret v.

(** [k] passes of the body in a row, the loop condition left aside. *)
Fixpoint passes (k : nat) (hz : horizon)
    (v : loop_vars (opt_state_t optimizer))
  : M (loop_vars (opt_state_t optimizer)) :=
  match k with
  | O => ret v
  | S k' => (v' <- loop_body hz v ;; passes k' hz v')%method
  end.

(** The loop variables on entry (lines 104-111). *)
Definition loop_entry (u0 : matrix) : loop_vars (opt_state_t optimizer) :=
  let params := u0 in
  let opt_state := opt_init optimizer params in
  mkVars 0%nat BIG_NUMBER params opt_state None.

(** Lines 79-96 of [step]: the clock, the state, and the per-step price
    and bound columns. *)
Definition step_horizon (disturbance : matrix) : M horizon :=
  (ts <- getattr_opt attr.time ;;
   PH <- getattr attr.PH ;;
   self_dt <- getattr attr.dt ;;
   let te := (ts + Z.of_nat PH * self_dt)%Z in
   state <- getattr_opt attr.state ;;
   let h_ph := map (fun ph => hour_index ts ph self_dt) (seq 0 PH) in
   price <- getattr attr.price ;;
   price_sel <- lift (gather price h_ph) ;;
   let price_ph := column price_sel in
   T_ub <- getattr attr.T_ub ;;
   T_ub_sel <- lift (gather T_ub h_ph) ;;
   let T_ub_ph := column T_ub_sel in
   T_lb <- getattr attr.T_lb ;;
   T_lb_sel <- lift (gather T_lb h_ph) ;;
   let T_lb_ph := column T_lb_sel in
   ret (mkHorizon state ts te disturbance T_ub_ph T_lb_ph price_ph))%method.

(** Lines 98-132 of [step]: the loop run from [self.u_start]; the final
    values of the loop variables. *)
Definition step_loop (disturbance : matrix)
  : M (loop_vars (opt_state_t optimizer)) :=
  (hz <- step_horizon disturbance ;;
   u0 <- getattr attr.u_start ;;
   while_loop n_epochs hz (loop_entry u0))%method.

(** [MPC.step(self, disturbance)]: [return u_ph]. *)
Definition step (disturbance : matrix) : M matrix :=
  (v <- step_loop disturbance ;;
   match u_ph v with
   | Some u => ret u
   | None => lift (Raise UnboundLocalError)
   end)%method.

(** One pass of the closed-loop driver ([for t in range(ts, te, dt)] of
    the [__main__] block); [dist_t_ph] is the disturbance forecast read
    for time [t], [A] and [B] the plant matrices of the driver. *)
Record plant : Type := mkPlant {
  pl_state : vec;
  pl_u_opt : list Q;
  pl_Tz_opt : list Q;
  pl_To_opt : list Q
}.

Definition driver_pass (A B : matrix) (dt : Z) (t : Z) (dist_t_ph : matrix)
    (pl : plant) : M plant :=
  (let state := pl_state pl in
   _ <- set_time t ;;
   _ <- set_state state ;;
   u_ph <- step dist_t_ph ;;
   _ <- set_u_start_from_last_step u_ph ;;
   row0 <- lift (getitem u_ph 0) ;;
   u_ch <- lift (getitem row0 0) ;;
   dist_row <- lift (getitem dist_t_ph 0) ;;
   let dist_t := [at_set 2 u_ch dist_row] in
   let args := (A, B, dist_t) in
   '(ts, xs) <- lift (forward f t (t + dt) dt state Euler args) ;;
   state <- lift (getlast xs) ;;
   Tz <- lift (getitem state 0) ;;
   To <- lift (getitem (at_set 2 u_ch dist_row) 0) ;;
   ret (mkPlant state (pl_u_opt pl ++ [u_ch]) (pl_Tz_opt pl ++ [Tz])
                (pl_To_opt pl ++ [To])))%method.

End Step.

(* ================================================================== *)
(** ** Notions used by the statements *)

(** A method that only reads [self]. *)
Definition read_only {A} (m : M A) : Prop :=
  forall self a self', m self = Ok (a, self') -> self' = self.

(** Entrywise equality of two arrays of rationals. *)
Definition mat_eq (a b : matrix) : Prop := Forall2 (Forall2 Qeq) a b.

(** The closed forms of the specification for [A] and [B]. *)
Definition closed_form_A (p : ZoneParams) : matrix :=
  [[ -(1 / Cai p) * (1 / Rg p + 1 / Ri p); 0; 1 / (Cai p * Ri p) ];
   [ 0; -(1 / Cwe p) * (1 / Re p + 1 / Rw p); 1 / (Cwe p * Rw p) ];
   [ 1 / (Cwi p * Ri p); 1 / (Cwi p * Rw p);
     -(1 / Cwi p) * (1 / Rw p + 1 / Ri p) ]].

Definition closed_form_B (p : ZoneParams) : matrix :=
  [[ 1 / (Cai p * Rg p); 1 / Cai p; 1 / Cai p; 0; 0 ];
   [ 1 / (Cwe p * Re p); 0; 0; 1 / Cwe p; 0 ];
   [ 0; 0; 0; 0; 1 / Cwi p ]].

(** The cost as the specification words it: one energy term, one upper
    and one lower comfort penalty and one control-bound penalty per
    horizon step, the sample [Tz_t] being compared with the bounds of the
    same step [t]. *)
Definition spec_cost (price u Tz T_ub T_lb : vec) (dt : Z) (u_ub u_lb : Q)
  : Q :=
  vsum (map (fun pu => fst pu * Qabs (snd pu) * (inject_Z dt / 3600))
            (combine price u))
  + vsum (map (fun tb => relu (fst tb - snd tb)) (combine Tz T_ub))
  + vsum (map (fun tb => relu (snd tb - fst tb)) (combine Tz T_lb))
  + vsum (map (fun ut => relu (ut - u_ub) + relu (u_lb - ut)) u).

(** The clock of [forward] at the head of its loop when [k] passes remain
    out of [n], [i] passes being done. *)
Definition at_head (ts te dt : Z) (n k i : nat) (tprev tnext : Z) : Prop :=
  (i + k = n)%nat /\
  match k with
  | O => (te <= tprev)%Z
  | S _ => tprev = (ts + Z.of_nat i * dt)%Z /\
           (tnext = (ts + Z.of_nat (S i) * dt)%Z \/
            tnext = Z.min (ts + Z.of_nat (S i) * dt) te)
  end.


(** A clock value that the jit-compiled zone model accepts: a Python int
    of absolute value below [2^31]. *)
Definition int32 (t : Z) : Prop := (- 2 ^ 31 < t < 2 ^ 31)%Z.

(** Two controllers with the same inputs of an optimization: the
    horizon, the step, the zone, the control bounds, the solver, the
    schedules, the warm-start sequence, the time and the state.  They may
    differ in [CH], [NU], [occ_start] and [occ_end]. *)
Definition same_inputs (a b : MPC) : Prop :=
  attr.PH a = attr.PH b /\ attr.dt a = attr.dt b /\
  attr.predictor a = attr.predictor b /\
  attr.u_lb a = attr.u_lb b /\ attr.u_ub a = attr.u_ub b /\
  attr.ode_solver a = attr.ode_solver b /\
  attr.T_ub a = attr.T_ub b /\ attr.T_lb a = attr.T_lb b /\
  attr.price a = attr.price b /\
  attr.u_start a = attr.u_start b /\
  attr.time a = attr.time b /\ attr.state a = attr.state b.

(** A method whose outcome, the controller it returns left aside, is the
    same on any two controllers with the same inputs. *)
Definition inputs_only {A} (m : M A) : Prop :=
  forall a b, same_inputs a b -> omap fst (m a) = omap fst (m b).

(** Shapes for which the zone dynamics is defined: [A] is m-by-m and [B]
    is m-by-c. *)
Definition zone_shapes (A B : matrix) (m c : nat) : Prop :=
  length A = m /\ Forall (fun r => length r = m) A /\
  length B = m /\ Forall (fun r => length r = c) B.

(* ================================================================== *)
(** ** Reference inputs *)

(** Stand-ins for the library parts: a gradient that is zero everywhere,
    an optimizer that proposes no change, and one that moves every entry
    down by the learning rate. *)
Definition grad0 (fn : matrix -> outcome Q) (p : matrix) : matrix :=
  mmap (fun _ => 0) p.


Definition drift (lr : Q) : Optimizer := {|
  opt_state_t := unit;
  opt_init := fun _ => tt;
  opt_update := fun g _ _ => (mmap (fun _ => - lr) g, tt)
|}.

(** A zone with every capacitance and resistance equal to 1, a two-step
    horizon with a one-second step, and the hourly prices of the driver. *)
Definition unit_zone : ZoneParams := mkZone 1 1 1 1 1 1 1.

Definition price_main : vec :=
  [2987 # 100000; 2987 # 100000; 2987 # 100000; 2987 # 100000;
   2987 # 100000; 2987 # 100000; 4667 # 100000; 4667 # 100000;
   4667 # 100000; 4667 # 100000; 4667 # 100000; 4667 # 100000;
   15877 # 100000; 15877 # 100000; 15877 # 100000; 15877 # 100000;
   15877 # 100000; 15877 # 100000; 15877 # 100000; 4667 # 100000;
   4667 # 100000; 4667 # 100000; 2987 # 100000; 2987 # 100000].

Definition mpc_new : MPC := MPC_init 2 1 1 unit_zone price_main.

(** The controller at 8 am with the zone at 25 degrees everywhere. *)
Definition mpc_8am : MPC :=
  {| attr.PH := 2; attr.CH := 1; attr.dt := 1; attr.NU := 1;
     attr.predictor := unit_zone;
     attr.occ_start := 8; attr.occ_end := 18;
     attr.u_lb := [[-(10)]]; attr.u_ub := [[0]];
     attr.ode_solver := Euler;
     attr.T_ub := schedule 30 26 8 18;
     attr.T_lb := schedule 12 22 8 18;
     attr.price := price_main;
     attr.u_start := [[0]; [0]];
     attr.time := Some 28800%Z;
     attr.state := Some [25; 25; 25] |}.

(** Another controller with the inputs of [mpc_8am]. *)
Definition mpc_8am_other : MPC :=
  {| attr.PH := 2; attr.CH := 2; attr.dt := 1; attr.NU := 3;
     attr.predictor := unit_zone;
     attr.occ_start := 0; attr.occ_end := 24;
     attr.u_lb := [[-(10)]]; attr.u_ub := [[0]];
     attr.ode_solver := Euler;
     attr.T_ub := schedule 30 26 8 18;
     attr.T_lb := schedule 12 22 8 18;
     attr.price := price_main;
     attr.u_start := [[0]; [0]];
     attr.time := Some 28800%Z;
     attr.state := Some [25; 25; 25] |}.

(** Ambient air at 25 degrees and no gains: the zone stays at 25. *)
Definition dist_calm : matrix := [[25; 0; 0; 0; 0]; [25; 0; 0; 0; 0]].

(** Two units of solar gain in both steps: the zone reads 25, 27, 25. *)
Definition dist_sunny : matrix := [[25; 2; 0; 0; 0]; [25; 2; 0; 0; 0]].

(** Five units of solar gain: the zone reads 25, 30, 25. *)
Definition dist_hot : matrix := [[25; 5; 0; 0; 0]; [25; 5; 0; 0; 0]].

(** Three units of solar gain met by one unit of cooling in both steps:
    the zone reads 25, 27, 25 again. *)
Definition dist_gain3 : matrix := [[25; 3; 0; 0; 0]; [25; 3; 0; 0; 0]].
Definition u_cooling : matrix := [[-(1)]; [-(1)]].

(** The calm forecast with a third row that [forward] never uses. *)
Definition dist_calm_longer : matrix :=
  [[25; 0; 0; 0; 0]; [25; 0; 0; 0; 0]; [40; 9; 9; 9; 9]].

(** The value a method call returns, the object left aside. *)
Definition result {A} (m : M A) (self : MPC) : outcome A :=
  omap fst (m self).

Definition plant_8am : plant := mkPlant [25; 25; 25] [] [] [].

(** The plant after one pass of the driver under the calm forecast. *)
Definition plant_after : plant := mkPlant [25; 25; 25] [0] [25] [25].

(** The plant matrices of the unit zone. *)
Definition A_unit : matrix := fst (fst (fst (get_ABCD unit_zone))).
Definition B_unit : matrix := snd (fst (fst (get_ABCD unit_zone))).

(** The price and bound columns of the two steps from 8 am. *)
Definition price_8am : matrix := [[4667 # 100000]; [4667 # 100000]].
Definition T_ub_8am : matrix := [[26]; [26]].
Definition T_lb_8am : matrix := [[22]; [22]].

Definition hz_8am (d : matrix) : horizon :=
  mkHorizon [25; 25; 25] 28800 28802 d T_ub_8am T_lb_8am price_8am.

(** The loop variables after the single pass of the calm run with the
    drifting optimizer, and after the thousand passes of the hot run with
    the frozen one. *)
Definition vars_calm : loop_vars (opt_state_t (optimizer drift)) :=
  mkVars 1 (0 # 129600000000000000) [[-1 # 100]; [-1 # 100]] tt
         (Some [[0]; [0]]).



(* ================================================================== *)
(** ** Notions for the integration loop *)

(** The time at which pass [j] of [forward] ends: the first pass runs to
    [ts + dt] whatever [te] is, the later ones are cut at [te]. *)
Definition pass_end (ts te dt : Z) (j : nat) : Z :=
  match j with
  | O => (ts + dt)%Z
  | S _ => Z.min (ts + Z.of_nat (S j) * dt) te
  end.

(** An array of zeros, up to equality of rationals. *)
Definition all_zero (v : vec) : Prop := Forall (fun x => x == 0) v.

(** Two forecasts that differ at most in column 2, the column of the
    cooling power. *)
Definition same_but_cooling (d d' : matrix) : Prop :=
  Forall2 (fun r r' : vec => firstn 2 r = firstn 2 r' /\
                             skipn 3 r = skipn 3 r' /\
                             length r = length r') d d'.

(* ================================================================== *)
(** ** The closed loop, its data and its indicators *)

(** The [for t in range(ts, te, dt)] loop of the [__main__] block, run
    over the times of its passes, each with the forecast read for it. *)
Fixpoint driver_loop (grad : (matrix -> outcome Q) -> matrix -> matrix)
    (adamw : Q -> Optimizer) (A B : matrix) (dt : Z)
    (passes_in : list (Z * matrix)) (pl : plant) : M plant :=
  match passes_in with
  | [] => ret pl
  | (t, dist_t_ph) :: rest =>
      (pl' <- driver_pass grad adamw A B dt t dist_t_ph pl ;;
       driver_loop grad adamw A B dt rest pl')%method
  end.

(** Two controllers that differ at most in [time], [state] and
    [u_start]. *)
Definition same_settings (a b : MPC) : Prop :=
  attr.PH a = attr.PH b /\ attr.CH a = attr.CH b /\
  attr.dt a = attr.dt b /\ attr.NU a = attr.NU b /\
  attr.predictor a = attr.predictor b /\
  attr.occ_start a = attr.occ_start b /\ attr.occ_end a = attr.occ_end b /\
  attr.u_lb a = attr.u_lb b /\ attr.u_ub a = attr.u_ub b /\
  attr.ode_solver a = attr.ode_solver b /\
  attr.T_ub a = attr.T_ub b /\ attr.T_lb a = attr.T_lb b /\
  attr.price a = attr.price b.

(** A data frame with an integer index: its rows, each with its label. *)
Definition frame : Type := list (Z * vec).

(** [dist.index = range(t_base, t_base + len(dist)*dt, dt)]. *)
Definition set_index (t_base dt : Z) (rows : matrix) : frame :=
  combine (map (fun k => (t_base + Z.of_nat k * dt)%Z) (seq 0 (length rows)))
          rows.

(** [df.loc[lo:hi, :]] on an increasing index: the rows whose label lies
    between [lo] and [hi], both ends included. *)
Definition loc (df : frame) (lo hi : Z) : frame :=
  filter (fun r => ((lo <=? fst r) && (fst r <=? hi))%Z) df.

(** [get_disturbance_ph(disturbance, ts, PH, dt)]. *)
Definition get_disturbance_ph (disturbance : frame) (ts : Z) (PH : nat)
    (dt : Z) : frame :=
  loc disturbance ts (ts + Z.of_nat PH * dt - 1)%Z.

(** [jnp.array(df.values)]. *)
Definition values (df : frame) : matrix := map snd df.

(** [jnp.concatenate((a, b), axis=1)]: the row counts must agree. *)
Definition concat_cols (a b : matrix) : outcome matrix :=
  if (length a =? length b)%nat
  then Ok (map (fun p => fst p ++ snd p) (combine a b))
  else Raise TypeError.

(** Lines 354-356 and 361-365: a 24-entry schedule made a column, with
    the same column appended [nsteps_per_hour - 1] times along axis 1. *)
Fixpoint append_columns (k : nat) (acc col : matrix) : outcome matrix :=
  match k with
  | O => Ok acc
  | S k' => (acc' <-- concat_cols acc col ;; append_columns k' acc' col)%out
  end.

Definition per_step (nsteps_per_hour : nat) (a : vec) : outcome matrix :=
  append_columns (nsteps_per_hour - 1) (column a) (column a).

(** [m.flatten()]. *)
Definition flatten (m : matrix) : vec := concat m.

(** [jnp.maximum(a, b)] on scalars. *)
Definition maximum (a b : Q) : Q := if Qle_bool a b then b else a.

(** Lines 392-397, the indicators but [dT_max]:
    [energy_cost = jnp.sum(price_dt.flatten()*jnp.abs(jnp.array(u_opt))*dt/3600)],
    [energy = jnp.sum(jnp.abs(jnp.array(u_opt))*dt/3600)],
    [dT_lb = jnp.maximum(0, T_lb_dt.flatten() - jnp.array(Tz_opt))],
    [dT_ub = jnp.maximum(0, jnp.array(Tz_opt) - T_ub_dt.flatten())],
    [dTh = (jnp.sum(dT_lb) + jnp.sum(dT_ub))*dt/3600]. *)
Definition kpi_energy_cost (price_dt : matrix) (u_opt : vec) (dt : Z)
  : outcome Q :=
  (e <-- zipb Qmult (flatten price_dt) (map Qabs u_opt) ;;
   Ok (vsum (map (fun x => x * inject_Z dt / 3600) e)))%out.

Definition kpi_energy (u_opt : vec) (dt : Z) : Q :=
  vsum (map (fun x => x * inject_Z dt / 3600) (map Qabs u_opt)).

Definition kpi_dT_lb (T_lb_dt : matrix) (Tz_opt : vec) : outcome vec :=
  (diff <-- zipb Qminus (flatten T_lb_dt) Tz_opt ;;
   Ok (map (maximum 0) diff))%out.

Definition kpi_dT_ub (T_ub_dt : matrix) (Tz_opt : vec) : outcome vec :=
  (diff <-- zipb Qminus Tz_opt (flatten T_ub_dt) ;;
   Ok (map (maximum 0) diff))%out.

Definition kpi_dTh (T_ub_dt T_lb_dt : matrix) (Tz_opt : vec) (dt : Z)
  : outcome Q :=
  (dT_lb <-- kpi_dT_lb T_lb_dt Tz_opt ;;
   dT_ub <-- kpi_dT_ub T_ub_dt Tz_opt ;;
   Ok ((vsum dT_lb + vsum dT_ub) * inject_Z dt / 3600))%out.

(* ================================================================== *)
(** ** The block state-space modules of [state_space.py] *)

Module SSM.

Import String.

(** What a call of a module gives: a value, [NotImplementedError] with its
    message, an exception of the array operations, or no answer. *)
Inductive answer (A : Type) : Type :=
| Returns (a : A)
| NotImplementedError (msg : String.string)
| Fails (e : exn)
| Loops.

Arguments Returns {A} a.
Arguments NotImplementedError {A} msg.
Arguments Fails {A} e.
Arguments Loops {A}.

Definition of_outcome {A} (o : outcome A) : answer A :=
  match o with
  | Ok a => Returns a
  | Raise e => Fails e
  | Diverge => Loops
  end.

Definition abind {A B} (a : answer A) (k : A -> answer B) : answer B :=
  match a with
  | Returns x => k x
  | NotImplementedError msg => NotImplementedError msg
  | Fails e => Fails e
  | Loops => Loops
  end.

(** A sub-module called on one array, or on two. *)
Definition block : Type := vec -> outcome vec.
Definition block2 : Type := vec -> vec -> outcome vec.

Record BaseBlockSSM : Type := mkSSM {
  state_dim : nat;
  input_dim : nat;
  output_dim : nat;
  _fxx : option block;
  _fxu : option block;
  _fyx : option block;
  _fyu : option block;
  _fx : option block2;
  _fy : option block2
}.

(** [BaseBlockSSM.setup]: all six sub-modules are [None]. *)
Definition setup (state_dim input_dim output_dim : nat) : BaseBlockSSM :=
  mkSSM state_dim input_dim output_dim None None None None None None.

(** One of the two equations of [__call__]: the sum of the split pair when
    both parts are there, else the joint module, else
    [NotImplementedError]. *)
Definition equation (fa fb : option block) (fjoint : option block2)
    (msg : String.string) (x u : vec) : answer vec :=
  match fa, fb with
  | Some ga, Some gb =>
      of_outcome (a <-- ga x ;; b <-- gb u ;; zipb Qplus a b)%out
  | _, _ =>
      match fjoint with
      | Some g => of_outcome (g x u)
      | None => NotImplementedError msg
      end
  end.

(** [BaseBlockSSM.__call__(self, x, u)]. *)
Definition call (self : BaseBlockSSM) (x u : vec) : answer (vec * vec) :=
  abind (equation (_fxx self) (_fxu self) (_fx self)
                  "dynamic equation is not implemented"%string x u)
        (fun rhs =>
  abind (equation (_fyx self) (_fyu self) (_fy self)
                  "observation equation is not implemented"%string x u)
        (fun y => Returns (rhs, y))).

(** [RCModel.setup] for the parameter values [p]; the sub-modules hold the
    matrices of [RCModel.fxx], [fxu], [fyx], [fyu] and multiply by them. *)
Definition RCModel_setup (state_dim input_dim output_dim : nat)
    (p : ZoneParams) : BaseBlockSSM :=
  mkSSM state_dim input_dim output_dim
        (Some (fun x => matvec (RCModel.fxx_A p) x))
        (Some (fun u => matvec (RCModel.fxu_B p) u))
        (Some (fun x => matvec RCModel.fyx_C x))
        (Some (fun u => matvec (zeros 1 5) u))
        None None.

End SSM.

(* ================================================================== *)
(** ** Reference inputs for the closed loop and the modules *)

(** A forecast with one row only, one of zeros, and the calm forecast
    with other entries in the cooling column. *)
Definition dist_short : matrix := [[25; 0; 0; 0; 0]].
Definition dist_zero : matrix := [[0; 0; 0; 0; 0]; [0; 0; 0; 0; 0]].
Definition dist_calm_cooled : matrix :=
  [[25; 0; -(7); 0; 0]; [25; 0; -(9); 0; 0]].

(** The trajectory under two units of solar gain. *)
Definition traj_sunny : matrix := [[25; 25; 25]; [27; 25; 25]; [25; 25; 25]].

(** Two passes of the closed loop from 8 am, one second apart, and what
    they leave: the plant, and the controller that holds the time of the
    second pass. *)
Definition two_passes : list (Z * matrix) :=
  [(28800%Z, dist_calm); (28801%Z, dist_calm)].

Definition plant_after2 : plant :=
  mkPlant [25; 25; 25] [0; 0] [25; 25] [25; 25].

Definition mpc_8am_1s : MPC :=
  {| attr.PH := 2; attr.CH := 1; attr.dt := 1; attr.NU := 1;
     attr.predictor := unit_zone;
     attr.occ_start := 8; attr.occ_end := 18;
     attr.u_lb := [[-(10)]]; attr.u_ub := [[0]];
     attr.ode_solver := Euler;
     attr.T_ub := schedule 30 26 8 18;
     attr.T_lb := schedule 12 22 8 18;
     attr.price := price_main;
     attr.u_start := [[0]; [0]];
     attr.time := Some 28801%Z;
     attr.state := Some [25; 25; 25] |}.

(** A module with a joint dynamic equation and no observation equation. *)
Definition joint_only : SSM.BaseBlockSSM :=
  SSM.mkSSM 3 5 1 None None None None (Some (fun x u => Ok x)) None.

(* ================================================================== *)
(** ** Facts about arrays *)

Lemma nth_pred_length {A} (l : list A) (a d : A) :
  l <> [] -> nth (length l - 1) l d = last l a.
Proof.
  induction l as [|b l IH]; intros Hl; [congruence|].
  destruct l as [|c l]; [reflexivity|].
  change (last (b :: c :: l) a) with (last (c :: l) a).
  rewrite <- IH by discriminate.
  simpl. rewrite Nat.sub_0_r. reflexivity.
Qed.

Lemma getitem_clamped {A} (l : list A) :
  l <> [] -> getitem l (length l) = getlast l.
Proof.
  intros Hl. destruct l as [|b l]; [congruence|].
  unfold getitem, getlast.
  replace (Nat.min (length (b :: l)) (length (b :: l) - 1))
    with (length (b :: l) - 1)%nat by lia.
  f_equal. apply nth_pred_length. discriminate.
Qed.

Lemma getitem_in {X} (l : list X) i r : getitem l i = Ok r -> In r l.
Proof.
  intros H. destruct l as [|a l]; [discriminate|].
  assert (E : r = nth (Nat.min i (length (a :: l) - 1)) (a :: l) a)
    by (unfold getitem in H; congruence).
  rewrite E. apply nth_In. cbn [length]. lia.
Qed.

Lemma getitem_ok {X} (l : list X) i : l <> [] -> exists r, getitem l i = Ok r.
Proof. destruct l; [congruence|]. intros _. eexists. reflexivity. Qed.

Lemma forallb_width (rows : matrix) (w : nat) :
  Forall (fun r => length r = w) rows ->
  forallb (fun r => (length r =? w)%nat) rows = true.
Proof.
  intros H. apply forallb_forall. intros r Hr.
  rewrite Forall_forall in H. apply Nat.eqb_eq. auto.
Qed.

Lemma matvec_ok (Mx : matrix) (x : vec) :
  Forall (fun r => length r = length x) Mx ->
  matvec Mx x = Ok (map (fun r => dot r x) Mx).
Proof. intros H. unfold matvec. rewrite forallb_width by exact H. reflexivity. Qed.

Lemma append_row_ok (x_all : matrix) (x : vec) :
  Forall (fun r => length r = length x) x_all ->
  append_row x_all x = Ok (x_all ++ [x]).
Proof. intros H. unfold append_row. rewrite forallb_width by exact H. reflexivity. Qed.

Lemma zipb_same {X Y Z'} (g : X -> Y -> Z') (l1 : list X) (l2 : list Y) :
  length l1 = length l2 ->
  zipb g l1 l2 = Ok (map (fun p => g (fst p) (snd p)) (combine l1 l2)).
Proof. intros H. unfold zipb. rewrite H, Nat.eqb_refl. reflexivity. Qed.

Lemma neg_one_div (c : Q) : -(1) / c == -(1 / c).
Proof. unfold Qdiv. ring. Qed.

(* ================================================================== *)
(** ** Plant matrices *)

Ltac mat_eq_tac :=
  repeat (first [ apply Forall2_nil | apply Forall2_cons ]);
  try reflexivity.

(** C4, as the code has it.  For every parameter tuple, [get_ABCD]
    returns the 3-by-3 matrix [A] and the 3-by-5 matrix [B] of the closed
    forms (zero elsewhere) and [C = [[1, 0, 0]]]; the fourth component is
    the Python scalar [0].  The 1-by-5 zero row is the [D] of
    [RCModel.fyu], whose sibling modules build the same [A], [B], [C]. *)
Theorem get_ABCD_closed_form (p : ZoneParams) :
  mat_eq (fst (fst (fst (get_ABCD p)))) (closed_form_A p) /\
  snd (fst (fst (get_ABCD p))) = closed_form_B p /\
  snd (fst (get_ABCD p)) = [[1; 0; 0]] /\
  snd (get_ABCD p) = PyInt 0 /\
  RCModel.fyu_D = Array2 [[0; 0; 0; 0; 0]] /\
  get_ABCD p = (RCModel.fxx_A p, RCModel.fxu_B p, RCModel.fyx_C, PyInt 0).
Proof.
  repeat split.
  unfold mat_eq. cbn.
  mat_eq_tac; rewrite neg_one_div; reflexivity.
Qed.

(** C4, as stated, fails: the [D] that [get_ABCD] returns is not a 1-by-5
    zero row. *)
Lemma get_ABCD_D_is_not_a_row :
  ~ (forall p : ZoneParams, snd (get_ABCD p) = Array2 (zeros 1 5)).
Proof. intros H. specialize (H unit_zone). discriminate H. Qed.

(* ================================================================== *)
(** ** The integration loop *)

Lemma forward_loop_done func solver A B te dt fuel d tprev tnext i x args st
    t_all x_all :
  (te <= tprev)%Z ->
  forward_loop func solver A B d te dt fuel tprev tnext i x args st t_all x_all
  = Ok (t_all, x_all).
Proof.
  intros H. assert (E : (tprev <? te)%Z = false) by (apply Z.ltb_ge; exact H).
  destruct fuel; simpl; rewrite E; reflexivity.
Qed.

Lemma Euler_zone_step (A B : matrix) m c t0 t1 (x dd : vec) :
  zone_shapes A B m c -> length x = m -> length dd = c ->
  exists x', solver_step Euler f t0 t1 x (A, B, dd) tt = Ok (x', tt) /\
             length x' = m.
Proof.
  intros (HA & HAr & HB & HBr) Hx Hd. simpl. unfold zone_state_space.
  rewrite matvec_ok by (rewrite Hx; exact HAr).
  rewrite matvec_ok by (rewrite Hd; exact HBr). simpl.
  rewrite zipb_same by (rewrite !length_map; congruence). simpl.
  rewrite zipb_same
    by (rewrite !length_map, length_combine, !length_map; lia).
  simpl. eexists. split; [reflexivity|].
  rewrite length_map, length_combine, !length_map, length_combine, !length_map.
  lia.
Qed.

(** Dropping the record of the reads gives the loop of [forward]. *)
Lemma forward_loop_reads_erase func solver (A B d : matrix) te dt :
  forall fuel tprev tnext i x args st t_all x_all reads,
    omap fst (forward_loop_reads func solver A B d te dt fuel tprev tnext i
                                 x args st t_all x_all reads)
    = forward_loop func solver A B d te dt fuel tprev tnext i x args st
                   t_all x_all.
Proof.
  induction fuel as [|fuel IH];
    intros tprev tnext i x args st t_all x_all reads;
    cbn [forward_loop_reads forward_loop];
    destruct (tprev <? te)%Z; try reflexivity.
  destruct (solver_step solver func tprev tnext x args st)
    as [[x1 st1]| |]; cbn [obind omap]; try reflexivity.
  destruct (getitem d (S i)) as [dnext| |]; cbn [obind omap];
    try reflexivity.
  destruct (append_row x_all x1) as [x_all1| |]; cbn [obind omap];
    try reflexivity.
  apply IH.
Qed.

Lemma forward_reads_erase func solver (A B d : matrix) ts te dt (x0 : vec) :
  omap fst (forward_reads func ts te dt x0 solver (A, B, d))
  = forward func ts te dt x0 solver (A, B, d).
Proof.
  unfold forward_reads, forward.
  destruct (getitem d 0) as [dprev| |]; cbn [obind omap]; try reflexivity.
  apply forward_loop_reads_erase.
Qed.

Section ForwardFacts.

Variable func : Z -> vec -> ode_args -> outcome vec.
Variable solver : Solver.
Variables (A B : matrix).
Variables (ts te dt : Z).

(** [n] is the number of passes: the least [n] with [ts + n*dt >= te]. *)
Variable n : nat.
Hypothesis dt_pos : (0 < dt)%Z.
Hypothesis n_hi : (te <= ts + Z.of_nat n * dt)%Z.
Hypothesis n_lo : forall j, (j < n)%nat -> (ts + Z.of_nat j * dt < te)%Z.

Lemma at_head_next k i tprev tnext :
  at_head ts te dt n (S k) i tprev tnext ->
  (tprev < te)%Z /\ at_head ts te dt n k (S i) tnext (Z.min (tnext + dt) te).
Proof.
  intros [Hik [Hp Hn]]. split.
  - subst tprev. apply n_lo. lia.
  - split; [lia|]. destruct k as [|k].
    + assert (Hi : (i + 1 = n)%nat) by lia.
      assert (Hte : (te <= ts + Z.of_nat (S i) * dt)%Z).
      { replace (S i) with n by lia. exact n_hi. }
      destruct Hn as [-> | ->]; lia.
    + assert (Hlt : (ts + Z.of_nat (S i) * dt < te)%Z) by (apply n_lo; lia).
      assert (tnext = (ts + Z.of_nat (S i) * dt)%Z) as ->
          by (destruct Hn as [-> | ->]; lia).
      split; [reflexivity|]. right. f_equal. lia.
Qed.

Lemma at_head_start k :
  k = n -> at_head ts te dt n k 0 ts (ts + dt)%Z.
Proof.
  intros Hk. split; [lia|]. destruct k as [|k].
  - rewrite <- Hk in n_hi. simpl in n_hi. lia.
  - split; [simpl; lia|]. left. lia.
Qed.

Lemma forward_fuel_enough : (n <= forward_fuel ts te)%nat.
Proof.
  unfold forward_fuel.
  destruct (Nat.eq_dec n 0) as [E|E]; [lia|].
  assert (H : (ts + Z.of_nat (n - 1) * dt < te)%Z) by (apply n_lo; lia).
  nia.
Qed.

(** Two disturbance arrays that agree on the rows below [n] drive the
    loop to the same outcome: the row read in the last pass is bound to
    [args] and never handed to the solver. *)
Lemma forward_loop_rows (d d' : matrix) :
  (d = [] <-> d' = []) ->
  (forall i, (i < n)%nat -> getitem d i = getitem d' i) ->
  forall k fuel i tprev tnext x args args' st st' t_all x_all,
    at_head ts te dt n k i tprev tnext ->
    (k <> 0%nat -> args = args' /\ st = st') ->
    forward_loop func solver A B d te dt fuel tprev tnext i x args st
                 t_all x_all =
    forward_loop func solver A B d' te dt fuel tprev tnext i x args' st'
                 t_all x_all.
Proof.
  intros Hnil Hrows. induction k as [|k IH];
    intros fuel i tprev tnext x args args' st st' t_all x_all Hh Heq.
  - destruct Hh as [_ Hte]. rewrite !forward_loop_done by exact Hte.
    reflexivity.
  - destruct (Heq ltac:(discriminate)) as [<- <-].
    pose proof (Hik := proj1 Hh).
    apply at_head_next in Hh. destruct Hh as [Hlt Hh].
    apply Z.ltb_lt in Hlt.
    destruct fuel as [|fuel]; simpl; rewrite Hlt; [reflexivity|].
    destruct (solver_step solver func tprev tnext x args st)
      as [[x1 st1]| |]; simpl; try reflexivity.
    destruct k as [|k].
    + destruct d as [|r d], d' as [|r' d']; simpl; try reflexivity.
      * destruct Hnil as [H _]. discriminate (H eq_refl).
      * destruct Hnil as [_ H]. discriminate (H eq_refl).
      * destruct (append_row x_all x1); simpl; try reflexivity.
        apply IH; [exact Hh | intros F; congruence].
    + rewrite (Hrows (S i)) by lia.
      destruct (getitem d' (S i)); simpl; try reflexivity.
      destruct (append_row x_all x1); simpl; try reflexivity.
      apply IH; [exact Hh | intros _; split; reflexivity].
Qed.

Lemma forward_rows (x0 : vec) (d d' : matrix) :
  (d = [] <-> d' = []) ->
  (forall i, (i < n)%nat -> getitem d i = getitem d' i) ->
  forward func ts te dt x0 solver (A, B, d) =
  forward func ts te dt x0 solver (A, B, d').
Proof.
  intros Hnil Hrows. unfold forward.
  destruct d as [|r d0] eqn:Ed, d' as [|r' d0'] eqn:Ed'; try reflexivity.
  - destruct Hnil as [H _]. discriminate (H eq_refl).
  - destruct Hnil as [_ H]. discriminate (H eq_refl).
  - cbn [getitem obind Nat.min nth].
    apply (forward_loop_rows Hnil Hrows (k := n)).
    + apply at_head_start. reflexivity.
    + intros Hn. assert (E0 : getitem (r :: d0) 0 = getitem (r' :: d0') 0)
        by (apply Hrows; lia).
      injection E0 as ->. split; reflexivity.
Qed.

(** With the Euler solver and the zone dynamics on well-shaped data, the
    loop makes its [k] remaining passes and returns. *)
Lemma forward_loop_total m c (d : matrix) :
  zone_shapes A B m c -> d <> [] -> Forall (fun r => length r = c) d ->
  forall k fuel i tprev tnext (x dd : vec) t_all (x_all : matrix),
    at_head ts te dt n k i tprev tnext -> (k <= fuel)%nat ->
    length x = m -> length dd = c ->
    Forall (fun r => length r = m) x_all ->
    exists t_all' x_all',
      forward_loop f Euler A B d te dt fuel tprev tnext i x (A, B, dd) tt
                   t_all x_all
      = Ok (t_all', x_all') /\
      length t_all' = (length t_all + k)%nat /\
      length x_all' = (length x_all + k)%nat.
Proof.
  intros Hs Hd Hdr. induction k as [|k IH];
    intros fuel i tprev tnext x dd t_all x_all Hh Hf Hx Hdd Hall.
  - destruct Hh as [_ Hte]. exists t_all, x_all.
    rewrite forward_loop_done by exact Hte. rewrite !Nat.add_0_r. auto.
  - apply at_head_next in Hh. destruct Hh as [Hlt Hh].
    apply Z.ltb_lt in Hlt.
    destruct fuel as [|fuel]; [lia|].
    cbn [forward_loop]. rewrite Hlt.
    destruct (Euler_zone_step tprev tnext x dd Hs Hx Hdd) as (x1 & E1 & Hx1).
    rewrite E1. cbn [obind].
    destruct (getitem_ok (S i) Hd) as (r & Er). rewrite Er. cbn [obind].
    rewrite append_row_ok by (rewrite Hx1; exact Hall). cbn [obind].
    destruct (IH fuel (S i) tnext (Z.min (tnext + dt) te) x1 r
                 (t_all ++ [Z.min (tnext + dt) te]) (x_all ++ [x1]))
      as (t' & x' & E & Ht & Hxl); auto.
    + lia.
    + apply getitem_in in Er. rewrite Forall_forall in Hdr. auto.
    + apply Forall_app. split; [exact Hall|]. constructor; auto.
    + exists t', x'. split; [exact E|].
      rewrite length_app in Ht, Hxl. simpl in Ht, Hxl. lia.
Qed.

(** With [k] passes to go from index [i], the loop reads the rows
    [i + 1 .. i + k], in that order. *)
Lemma forward_loop_reads_log fn (sv : Solver) (A' B' d : matrix) :
  forall k fuel i tprev tnext x args st t_all x_all reads r,
    at_head ts te dt n k i tprev tnext ->
    forward_loop_reads fn sv A' B' d te dt fuel tprev tnext i x args st
                       t_all x_all reads = Ok r ->
    snd r = reads ++ seq (S i) k.
Proof.
  induction k as [|k IH];
    intros fuel i tprev tnext x args st t_all x_all reads r Hh H.
  - destruct Hh as [_ Hte].
    assert (E : (tprev <? te)%Z = false) by (apply Z.ltb_ge; exact Hte).
    destruct fuel; cbn [forward_loop_reads] in H; rewrite E in H;
      injection H as <-; cbn [snd seq]; rewrite app_nil_r; reflexivity.
  - apply at_head_next in Hh. destruct Hh as [Hlt Hh].
    apply Z.ltb_lt in Hlt.
    destruct fuel as [|fuel]; cbn [forward_loop_reads] in H;
      rewrite Hlt in H; [discriminate|].
    destruct (solver_step sv fn tprev tnext x args st)
      as [[x1 st1]| |]; cbn [obind] in H; try discriminate.
    destruct (getitem d (S i)) as [dnext| |]; cbn [obind] in H;
      try discriminate.
    destruct (append_row x_all x1) as [x_all1| |]; cbn [obind] in H;
      try discriminate.
    apply (IH _ _ _ _ _ _ _ _ _ _ _ Hh) in H.
    rewrite H, <- app_assoc. reflexivity.
Qed.

Lemma forward_reads_log fn (sv : Solver) (A' B' d : matrix) (x0 : vec) r :
  forward_reads fn ts te dt x0 sv (A', B', d) = Ok r ->
  snd r = seq 0 (S n).
Proof.
  unfold forward_reads.
  destruct (getitem d 0) as [dprev| |]; cbn [obind]; try discriminate.
  intros H.
  eapply forward_loop_reads_log in H;
    [exact H | apply at_head_start; reflexivity].
Qed.

(** C9.  Let [n >= 1] be the number of passes of [forward], [d] a
    disturbance array of exactly [n] rows, and the clock values within
    the 32-bit range of the jit-compiled zone model.  Whenever [forward]
    returns, it has read the rows of [d] at the indices [0, 1, .., n]:
    the last read, made in the last pass, is at index [n], one past the
    last row, and that read is clamped to the last row instead of
    failing.  On well-shaped data [forward], run with the Euler solver on
    the zone model, does return, with a trajectory of [n + 1] rows; and
    for any solver the outcome is the same for every other array [d']
    that has the same rows [0 .. n-1], whatever it holds beyond them. *)
Theorem forward_reads_one_row_past_the_end
    (m c : nat) (x0 : vec) (d d' : matrix) :
  int32 ts -> int32 (ts + dt) -> int32 te ->
  length d = n -> d <> [] ->
  (forall i, (i < n)%nat -> getitem d i = getitem d' i) ->
  zone_shapes A B m c -> length x0 = m ->
  Forall (fun r => length r = c) d ->
  (forall d1 : matrix,
      omap fst (forward_reads func ts te dt x0 solver (A, B, d1))
      = forward func ts te dt x0 solver (A, B, d1)) /\
  (forall t_all x_all reads,
      forward_reads func ts te dt x0 solver (A, B, d)
      = Ok (t_all, x_all, reads) ->
      reads = seq 0 (S n) /\ last reads 0%nat = length d) /\
  getitem d n = getlast d /\
  (exists t_all x_all,
      forward_reads f ts te dt x0 Euler (A, B, d)
      = Ok (t_all, x_all, seq 0 (S n)) /\
      forward f ts te dt x0 Euler (A, B, d) = Ok (t_all, x_all) /\
      length t_all = S n /\ length x_all = S n) /\
  forward func ts te dt x0 solver (A, B, d) =
  forward func ts te dt x0 solver (A, B, d').
Proof.
  intros _ _ _ Hlen Hd Hrows Hs Hx Hdr.
  assert (Hlast : last (seq 0 (S n)) 0%nat = length d).
  { rewrite seq_S, last_last. simpl. symmetry. exact Hlen. }
  split; [|split; [|split; [|split]]].
  - intros d1. apply forward_reads_erase.
  - intros t_all x_all reads H. apply forward_reads_log in H.
    cbn [snd] in H. subst reads. split; [reflexivity | exact Hlast].
  - rewrite <- Hlen. apply getitem_clamped. exact Hd.
  - assert (Hf : exists t_all x_all,
               forward f ts te dt x0 Euler (A, B, d) = Ok (t_all, x_all) /\
               length t_all = S n /\ length x_all = S n).
    { unfold forward.
      destruct (getitem_ok 0 Hd) as (r & Er). rewrite Er. cbn [obind].
      destruct (@forward_loop_total m c d Hs Hd Hdr n (forward_fuel ts te)
                  0%nat ts (ts + dt)%Z x0 r [ts] [x0])
        as (t' & x' & E & Ht & Hxl).
      + apply at_head_start. reflexivity.
      + exact forward_fuel_enough.
      + exact Hx.
      + apply getitem_in in Er. rewrite Forall_forall in Hdr. auto.
      + constructor; auto.
      + exists t', x'. cbn [solver_init Euler]. rewrite E.
        simpl in Ht, Hxl. auto. }
    destruct Hf as (t_all & x_all & Ef & Ht & Hxl).
    exists t_all, x_all. split; [|auto].
    pose proof Ef as Er. rewrite <- forward_reads_erase in Er.
    destruct (forward_reads f ts te dt x0 Euler (A, B, d))
      as [[[t1 x1] r1]| |] eqn:E1; try discriminate.
    apply forward_reads_log in E1. cbn [snd] in E1. subst r1.
    cbn [omap obind fst] in Er. injection Er as -> ->. reflexivity.
  - apply forward_rows; [|exact Hrows].
    assert (Hn : (0 < n)%nat) by (destruct d; [congruence | simpl in Hlen; lia]).
    specialize (Hrows 0%nat Hn).
    split; intros E; [congruence|]. subst d'.
    destruct d as [|r0 d0]; [congruence|]. discriminate Hrows.
Qed.

End ForwardFacts.

(* ================================================================== *)
(** ** Methods that only read the controller *)

Lemma bind_ok {A B} (m : M A) (k : A -> M B) self r :
  bind m k self = Ok r ->
  exists a s1, m self = Ok (a, s1) /\ k a s1 = Ok r.
Proof.
  unfold bind. destruct (m self) as [[a s1]| |]; try discriminate.
  intros H. exists a, s1. auto.
Qed.

Lemma read_only_ret {A} (a : A) : read_only (ret a).
Proof. intros self b s' [= _ <-]. reflexivity. Qed.

Lemma read_only_bind {A B} (m : M A) (k : A -> M B) :
  read_only m -> (forall a, read_only (k a)) -> read_only (bind m k).
Proof.
  intros Hm Hk self b s' H. apply bind_ok in H. destruct H as (a & s1 & E1 & E2).
  apply Hm in E1. subst s1. apply Hk in E2. exact E2.
Qed.

Lemma read_only_lift {A} (o : outcome A) : read_only (lift o).
Proof. intros self b s'. unfold lift. destruct o; intros [= _ <-]. reflexivity. Qed.

Lemma read_only_getattr {A} (proj : MPC -> A) : read_only (getattr proj).
Proof. intros self b s' [= _ <-]. reflexivity. Qed.

Lemma read_only_getattr_opt {A} (proj : MPC -> option A) : read_only (getattr_opt proj).
Proof.
  intros self b s'. unfold getattr_opt. destruct (proj self); intros [= _ <-]. reflexivity.
Qed.

Create HintDb frame.
#[local] Hint Resolve read_only_ret read_only_lift read_only_getattr
  read_only_getattr_opt : frame.

Ltac frame :=
  repeat first
    [ apply read_only_bind; [| intros ?]
    | progress auto with frame
    | match goal with
      | |- read_only (match ?x with _ => _ end) => destruct x
      | |- read_only (let '_ := ?x in _) => destruct x
      end ].

Lemma read_only_get_u_violations u : read_only (get_u_violations u).
Proof. unfold get_u_violations. frame. Qed.

Lemma read_only_get_T_violations state ts te dt d ub lb :
  read_only (get_T_violations state ts te dt d ub lb).
Proof. unfold get_T_violations. frame. Qed.

Lemma read_only_loss_mpc p state ts te dt d ub lb pr :
  read_only (loss_mpc p state ts te dt d ub lb pr).
Proof.
  unfold loss_mpc. frame.
Qed.

(* ================================================================== *)
(** ** The optimization loop *)

Section StepFacts.

Variable grad : (matrix -> outcome Q) -> matrix -> matrix.
Variable adamw : Q -> Optimizer.


Lemma read_only_value_and_grad (fn : matrix -> M Q) p :
  read_only (fn p) -> read_only (value_and_grad grad fn p).
Proof.
  intros H self a s'. unfold value_and_grad.
  destruct (fn p self) as [[v s1]| |] eqn:E; try discriminate.
  intros [= _ <-]. eapply H; eauto.
Qed.

Lemma read_only_loop_body hz (v : loop_vars (opt_state_t (optimizer adamw))) : read_only (loop_body grad adamw hz v).
Proof.
  unfold loop_body. frame.
  apply read_only_value_and_grad, read_only_loss_mpc.
Qed.

Lemma read_only_while_loop hz fuel :
  forall v : loop_vars (opt_state_t (optimizer adamw)), read_only (while_loop grad adamw fuel hz v).
Proof.
  induction fuel as [|fuel IH]; intros v; simpl;
    destruct ((epoch v <? n_epochs)%nat && Qgtb (loss v) tolerance).
  - intros self a s'; discriminate.
  - apply read_only_ret.
  - apply read_only_bind; [apply read_only_loop_body | exact IH].
  - apply read_only_ret.
Qed.

Lemma read_only_passes hz k :
  forall v : loop_vars (opt_state_t (optimizer adamw)), read_only (passes grad adamw k hz v).
Proof.
  induction k as [|k IH]; intros v; simpl.
  - apply read_only_ret.
  - apply read_only_bind; [apply read_only_loop_body | exact IH].
Qed.

Lemma read_only_step_horizon d : read_only (step_horizon d).
Proof. unfold step_horizon. frame. Qed.

Lemma read_only_step_loop d : read_only (step_loop grad adamw d).
Proof.
  unfold step_loop.
  apply read_only_bind; [apply read_only_step_horizon | intros hz].
  apply read_only_bind; [apply read_only_getattr | intros u0].
  apply read_only_while_loop.
Qed.

Lemma read_only_step d : read_only (step grad adamw d).
Proof.
  unfold step. apply read_only_bind; [apply read_only_step_loop|].
  intros v. destruct (u_ph v); auto with frame.
Qed.

(** The loop condition [epoch < n_epochs and loss > tolerance]. *)
Lemma continues_iff (v : loop_vars (opt_state_t (optimizer adamw))) :
  (epoch v <? n_epochs)%nat && Qgtb (loss v) tolerance = true <->
  (epoch v < n_epochs)%nat /\ tolerance < loss v.
Proof.
  rewrite andb_true_iff, Nat.ltb_lt. unfold Qgtb.
  rewrite negb_true_iff, <- not_true_iff_false, Qle_bool_iff.
  split; intros [H1 H2]; split; auto.
  - apply Qnot_le_lt; exact H2.
  - apply Qlt_not_le; exact H2.
Qed.

Lemma stops_iff (v : loop_vars (opt_state_t (optimizer adamw))) :
  (epoch v <? n_epochs)%nat && Qgtb (loss v) tolerance = false <->
  (n_epochs <= epoch v)%nat \/ loss v <= tolerance.
Proof.
  rewrite <- not_true_iff_false, continues_iff. split.
  - intros H. destruct (Nat.lt_ge_cases (epoch v) n_epochs) as [Hlt|Hge]; [|left; exact Hge].
    right. apply Qnot_lt_le. intros Hl. apply H. split; assumption.
  - intros [H|H] [H1 H2]; [lia|]. apply (Qlt_not_le _ _ H2 H).
Qed.

Lemma loop_body_vars hz (v v' : loop_vars (opt_state_t (optimizer adamw))) self s' :
  loop_body grad adamw hz v self = Ok (v', s') ->
  epoch v' = S (epoch v) /\
  u_ph v' = Some (params v) /\
  loss_mpc (params v) (hz_state hz) (hz_ts hz) (hz_te hz) (attr.dt self)
           (hz_disturbance hz) (hz_T_ub_ph hz) (hz_T_lb_ph hz) (hz_price_ph hz) self
    = Ok (loss v', self) /\
  exists updates, apply_updates (params v) updates = Ok (params v').
Proof.
  unfold loop_body. intros H.
  apply bind_ok in H. destruct H as (dt0 & s1 & E1 & H).
  unfold getattr in E1. injection E1 as <- <-.
  apply bind_ok in H. destruct H as ([l g] & s2 & E2 & H).
  unfold value_and_grad in E2.
  destruct (loss_mpc _ _ _ _ _ _ _ _ _ self) as [[l' s3]| |] eqn:E3; try discriminate.
  injection E2 as <- _ <-.
  assert (s3 = self) as -> by (eapply read_only_loss_mpc; exact E3).
  destruct (opt_update _ _ _ _) as [upd os].
  apply bind_ok in H. destruct H as (p' & s4 & E4 & H).
  unfold lift in E4. destruct (apply_updates (params v) upd) eqn:E5; try discriminate.
  injection E4 as <- <-. injection H as <- <-. simpl.
  repeat split; eauto.
Qed.


Lemma passes_epoch hz k : forall (v vk : loop_vars (opt_state_t (optimizer adamw))) self sk,
  passes grad adamw k hz v self = Ok (vk, sk) ->
  epoch vk = (epoch v + k)%nat.
Proof.
  induction k as [|k IH]; intros v vk self sk H; simpl in H.
  - injection H as <- _. lia.
  - apply bind_ok in H. destruct H as (v1 & s1 & E1 & E2).
    apply loop_body_vars in E1. destruct E1 as (He & _).
    apply IH in E2. lia.
Qed.

Lemma passes_last hz k : forall (v vf : loop_vars (opt_state_t (optimizer adamw))) self sf,
  passes grad adamw (S k) hz v self = Ok (vf, sf) ->
  exists vk, passes grad adamw k hz v self = Ok (vk, self) /\
             loop_body grad adamw hz vk self = Ok (vf, sf).
Proof.
  induction k as [|k IH]; intros v vf self sf H.
  - simpl in H. apply bind_ok in H. destruct H as (v1 & s1 & E1 & E2).
    injection E2 as <- <-. exists v. split; [reflexivity | exact E1].
  - change (passes grad adamw (S (S k)) hz v self)
      with (bind (loop_body grad adamw hz v) (passes grad adamw (S k) hz) self) in H.
    apply bind_ok in H. destruct H as (v1 & s1 & E1 & E2).
    assert (s1 = self) as -> by (eapply read_only_loop_body; exact E1).
    apply IH in E2. destruct E2 as (vk & Ek & Eb).
    exists vk. split; [|exact Eb].
    simpl. unfold bind at 1. rewrite E1. exact Ek.
Qed.

(** What a normal exit of the [while] loop means. *)
Lemma while_loop_sound hz fuel : forall (v vf : loop_vars (opt_state_t (optimizer adamw))) self sf,
  while_loop grad adamw fuel hz v self = Ok (vf, sf) ->
  exists k,
    passes grad adamw k hz v self = Ok (vf, sf) /\
    ((n_epochs <= epoch vf)%nat \/ loss vf <= tolerance) /\
    forall j, (j < k)%nat ->
      exists vj, passes grad adamw j hz v self = Ok (vj, self) /\
                 (epoch vj < n_epochs)%nat /\ tolerance < loss vj.
Proof.
  induction fuel as [|fuel IH]; intros v vf self sf H; simpl in H;
    destruct ((epoch v <? n_epochs)%nat && Qgtb (loss v) tolerance) eqn:G;
    try discriminate.
  - injection H as <- <-. exists 0%nat. split; [reflexivity|].
    split; [apply stops_iff; exact G | intros j Hj; lia].
  - apply bind_ok in H. destruct H as (v1 & s1 & E1 & E2).
    assert (s1 = self) as -> by (eapply read_only_loop_body; exact E1).
    apply IH in E2. destruct E2 as (k & Ek & Hstop & Hbefore).
    exists (S k). split; [|split].
    + simpl. unfold bind at 1. rewrite E1. exact Ek.
    + exact Hstop.
    + intros [|j] Hj.
      * exists v. split; [reflexivity|]. apply continues_iff. exact G.
      * destruct (Hbefore j ltac:(lia)) as (vj & Ej & Hc).
        exists vj. split; [|exact Hc].
        simpl. unfold bind at 1. rewrite E1. exact Ej.
  - injection H as <- <-. exists 0%nat. split; [reflexivity|].
    split; [apply stops_iff; exact G | intros j Hj; lia].
Qed.



Lemma n_epochs_pos : (0 < n_epochs)%nat.
Proof. unfold n_epochs. lia. Qed.

Lemma tolerance_below_big : tolerance < BIG_NUMBER.
Proof. reflexivity. Qed.

Lemma step_horizon_disturbance d self hz s' :
  step_horizon d self = Ok (hz, s') -> hz_disturbance hz = d.
Proof.
  unfold step_horizon, bind, getattr, getattr_opt, lift, ret. intros H.
  repeat match type of H with
         | context [match ?x with _ => _ end] => destruct x; try discriminate
         end.
  inversion H. reflexivity.
Qed.

Lemma loss_mpc_rows p st ts te dt d ub lb pr self r :
  loss_mpc p st ts te dt d ub lb pr self = Ok r -> length p = length d.
Proof.
  unfold loss_mpc. intros H. apply bind_ok in H.
  destruct H as (dd & s1 & E & _).
  unfold lift, concat_cols3 in E. rewrite !length_map in E.
  match type of E with
  | context [if ?c then _ else _] => destruct c eqn:G; [|discriminate]
  end.
  apply andb_true_iff in G. destruct G as [G _]. apply Nat.eqb_eq in G. auto.
Qed.

Lemma while_loop_enters hz u0 self :
  while_loop grad adamw n_epochs hz (loop_entry adamw u0) self =
  bind (loop_body grad adamw hz (loop_entry adamw u0))
       (while_loop grad adamw (n_epochs - 1) hz) self.
Proof. reflexivity. Qed.

Lemma step_loop_unfold d self hz :
  step_horizon d self = Ok (hz, self) ->
  step_loop grad adamw d self =
  while_loop grad adamw n_epochs hz (loop_entry adamw (attr.u_start self)) self.
Proof. intros H. unfold step_loop, bind at 1. rewrite H. reflexivity. Qed.

Lemma step_loop_horizon d self vf sf :
  step_loop grad adamw d self = Ok (vf, sf) ->
  exists hz, step_horizon d self = Ok (hz, self).
Proof.
  unfold step_loop. intros H. apply bind_ok in H.
  destruct H as (hz & s1 & E & _).
  assert (s1 = self) as -> by (eapply read_only_step_horizon; exact E).
  eauto.
Qed.


(** A normal exit of the loop of [step] happens after [k >= 1] passes,
    at the first [k] that exhausts the budget or meets the tolerance. *)
Lemma step_loop_exit hz self vf sf :
  while_loop grad adamw n_epochs hz (loop_entry adamw (attr.u_start self)) self
    = Ok (vf, sf) ->
  exists k,
    (1 <= k <= n_epochs)%nat /\ epoch vf = k /\
    passes grad adamw k hz (loop_entry adamw (attr.u_start self)) self
      = Ok (vf, sf) /\
    (k = n_epochs \/ loss vf <= tolerance) /\
    forall j, (1 <= j < k)%nat ->
      exists vj,
        passes grad adamw j hz (loop_entry adamw (attr.u_start self)) self
          = Ok (vj, self) /\
        tolerance < loss vj.
Proof.
  set (v0 := loop_entry adamw (attr.u_start self)).
  intros H. apply while_loop_sound in H.
  destruct H as (k & Ek & Hstop & Hbefore).
  pose proof Ek as He. apply passes_epoch in He.
  change (epoch v0) with 0%nat in He. simpl in He. exists k.
  assert (Hk1 : (1 <= k)%nat).
  { destruct k as [|k]; [|lia]. simpl in Ek. injection Ek as <- _.
    exfalso. destruct Hstop as [Hs|Hs].
    - change (epoch v0) with 0%nat in Hs. pose proof n_epochs_pos. lia.
    - change (loss v0) with BIG_NUMBER in Hs.
      apply (Qlt_not_le _ _ tolerance_below_big Hs). }
  assert (Hkn : (k <= n_epochs)%nat).
  { destruct (Hbefore (k - 1)%nat ltac:(lia)) as (vj & Ej & Hlt & _).
    apply passes_epoch in Ej. change (epoch v0) with 0%nat in Ej. lia. }
  repeat split; try lia; try assumption.
  - destruct Hstop as [Hs|Hs]; [left; lia | right; exact Hs].
  - intros j Hj. destruct (Hbefore j ltac:(lia)) as (vj & Ej & _ & Hl).
    exists vj. split; assumption.
Qed.


(** [step] returns the [u_ph] bound by the last pass. *)
Lemma step_of_step_loop d self vf sf :
  step_loop grad adamw d self = Ok (vf, sf) ->
  exists hz vprev,
    step_horizon d self = Ok (hz, self) /\
    (1 <= epoch vf)%nat /\
    passes grad adamw (epoch vf - 1) hz (loop_entry adamw (attr.u_start self))
           self = Ok (vprev, self) /\
    loop_body grad adamw hz vprev self = Ok (vf, sf) /\
    u_ph vf = Some (params vprev) /\
    step grad adamw d self = Ok (params vprev, sf).
Proof.
  intros H. destruct (@step_loop_horizon d self vf sf H) as (hz & Hz).
  pose proof H as H'. rewrite (@step_loop_unfold d self hz Hz) in H'.
  apply step_loop_exit in H'. destruct H' as (k & Hk & He & Ek & _).
  destruct k as [|k]; [lia|].
  apply passes_last in Ek. destruct Ek as (vk & Ek & Eb).
  pose proof Eb as Hv. apply loop_body_vars in Hv.
  destruct Hv as (_ & Hu & _).
  exists hz, vk. rewrite He. replace (S k - 1)%nat with k by lia.
  repeat split; try assumption; try lia.
  unfold step, bind at 1. rewrite H, Hu. reflexivity.
Qed.

Lemma step_inv d self u sf :
  step grad adamw d self = Ok (u, sf) ->
  exists vf, step_loop grad adamw d self = Ok (vf, sf) /\ u_ph vf = Some u.
Proof.
  unfold step. intros H. apply bind_ok in H.
  destruct H as (vf & s1 & E & H).
  destruct (u_ph vf) as [u'|] eqn:Eu; [|discriminate].
  injection H as <- <-. exists vf. split; [exact E | exact Eu].
Qed.

(** The sequence [step] returns has one row per row of the forecast. *)
Lemma step_rows d self u sf :
  step grad adamw d self = Ok (u, sf) -> length u = length d.
Proof.
  intros H. apply step_inv in H. destruct H as (vf & Hl & Hu).
  apply step_of_step_loop in Hl.
  destruct Hl as (hz & vprev & Hz & _ & _ & Eb & Hu' & _).
  rewrite Hu' in Hu. injection Hu as <-.
  apply loop_body_vars in Eb. destruct Eb as (_ & _ & El & _).
  apply loss_mpc_rows in El. rewrite El.
  f_equal. eapply step_horizon_disturbance. exact Hz.
Qed.

(** What one pass of the closed-loop driver does, call by call. *)
Lemma driver_pass_inv A B dt t d pl self pl' self' :
  driver_pass grad adamw A B dt t d pl self = Ok (pl', self') ->
  exists s0 s1 u row0 u_ch dist_row t_all xs,
    set_time t self = Ok (tt, s0) /\
    set_state (pl_state pl) s0 = Ok (tt, s1) /\
    attr.time s1 = Some t /\ attr.state s1 = Some (pl_state pl) /\
    step grad adamw d s1 = Ok (u, s1) /\
    set_u_start_from_last_step u s1 = Ok (tt, self') /\
    attr.time self' = Some t /\ attr.state self' = Some (pl_state pl) /\
    getitem u 0 = Ok row0 /\ getitem row0 0 = Ok u_ch /\
    getitem d 0 = Ok dist_row /\
    forward f t (t + dt) dt (pl_state pl) Euler
            (A, B, [at_set 2 u_ch dist_row]) = Ok (t_all, xs) /\
    getlast xs = Ok (pl_state pl') /\
    pl_u_opt pl' = pl_u_opt pl ++ [u_ch].
Proof.
  unfold driver_pass. intros H.
  apply bind_ok in H. destruct H as ([] & s0 & E0 & H).
  apply bind_ok in H. destruct H as ([] & s1 & E1 & H).
  apply bind_ok in H. destruct H as (u & s2 & E2 & H).
  assert (s2 = s1) as -> by (eapply read_only_step; exact E2).
  apply bind_ok in H. destruct H as ([] & s3 & E3 & H).
  apply bind_ok in H. destruct H as (row0 & s4 & E4 & H).
  apply bind_ok in H. destruct H as (u_ch & s5 & E5 & H).
  apply bind_ok in H. destruct H as (dist_row & s6 & E6 & H).
  apply bind_ok in H. destruct H as ([t_all xs] & s7 & E7 & H).
  apply bind_ok in H. destruct H as (st' & s8 & E8 & H).
  apply bind_ok in H. destruct H as (Tz & s9 & E9 & H).
  apply bind_ok in H. destruct H as (To & s10 & E10 & H).
  unfold lift in E4, E5, E6, E7, E8, E9, E10.
  destruct (getitem u 0) as [r0| |] eqn:G4; try discriminate.
  injection E4 as -> <-.
  destruct (getitem row0 0) as [c0| |] eqn:G5; try discriminate.
  injection E5 as -> <-.
  destruct (getitem d 0) as [dr| |] eqn:G6; try discriminate.
  injection E6 as -> <-.
  destruct (forward f t (t + dt) dt (pl_state pl) Euler
                    (A, B, [at_set 2 u_ch dist_row])) as [tx| |] eqn:G7;
    try discriminate.
  injection E7 as -> <-.
  destruct (getlast xs) as [l0| |] eqn:G8; try discriminate.
  injection E8 as -> <-.
  destruct (getitem st' 0) as [z0| |]; try discriminate.
  injection E9 as -> <-.
  destruct (getitem (at_set 2 u_ch dist_row) 0) as [o0| |]; try discriminate.
  injection E10 as -> <-.
  injection H as <- <-.
  unfold set_time in E0. injection E0 as <-.
  unfold set_state in E1. injection E1 as <-.
  exists (match set_time t self with Ok (_, s) => s | _ => self end).
  eexists. exists u, row0, u_ch, dist_row, t_all, xs.
  split; [reflexivity|]. split; [reflexivity|].
  split; [reflexivity|]. split; [reflexivity|].
  split; [exact E2|]. split; [exact E3|].
  unfold set_u_start_from_last_step in E3.
  match type of E3 with
  | obind ?c _ = _ => destruct c as [us| |]; try discriminate
  end.
  cbn [obind] in E3. injection E3 as <-.
  repeat split; try reflexivity; assumption.
Qed.


(** C10.  The loop of [step] is entered at least once: on entry the cost
    is [1e6], above the tolerance.  When the loop returns [vf], at least
    one pass was made; the sequence [step] returns is the iterate
    [params vprev] held at the start of the last pass, the cost of that
    very sequence is the last evaluated loss, and the parameters updated
    in the last pass, [params vprev + updates], are not what is
    returned. *)
Theorem step_returns_iterate_of_last_loss d self vf sf :
  step_loop grad adamw d self = Ok (vf, sf) ->
  exists hz vprev,
    step_horizon d self = Ok (hz, self) /\
    while_loop grad adamw n_epochs hz (loop_entry adamw (attr.u_start self))
               self =
      bind (loop_body grad adamw hz (loop_entry adamw (attr.u_start self)))
           (while_loop grad adamw (n_epochs - 1) hz) self /\
    (1 <= epoch vf)%nat /\
    passes grad adamw (epoch vf - 1) hz (loop_entry adamw (attr.u_start self))
           self = Ok (vprev, self) /\
    loop_body grad adamw hz vprev self = Ok (vf, sf) /\
    u_ph vf = Some (params vprev) /\
    step grad adamw d self = Ok (params vprev, sf) /\
    loss_mpc (params vprev) (hz_state hz) (hz_ts hz) (hz_te hz) (attr.dt self)
             (hz_disturbance hz) (hz_T_ub_ph hz) (hz_T_lb_ph hz)
             (hz_price_ph hz) self = Ok (loss vf, self) /\
    exists updates, apply_updates (params vprev) updates = Ok (params vf).
Proof.
  intros H. apply step_of_step_loop in H.
  destruct H as (hz & vprev & Hz & H1 & Ep & Eb & Hu & Hs).
  pose proof Eb as Hv. apply loop_body_vars in Hv.
  destruct Hv as (_ & _ & Hl & Hupd).
  exists hz, vprev.
  split; [exact Hz|]. split; [apply while_loop_enters|].
  repeat split; assumption.
Qed.

(** C7.  [step], every cost evaluation [loss_mpc] and every
    [value_and_grad] of it return the controller they were called on,
    attribute for attribute: [state], [time], [u_start], the bound and
    price schedules and the control bounds are those of before the call.
    In a pass of the closed-loop driver the controller holds the old
    plant state while [step] runs and after it; the new plant state is
    the last row of the driver's own [forward] call, made after [step]
    has returned. *)
Theorem step_leaves_controller_unchanged :
  (forall d, read_only (step grad adamw d)) /\
  (forall p st ts te dt d ub lb pr,
      read_only (loss_mpc p st ts te dt d ub lb pr) /\
      read_only (value_and_grad grad
                   (fun q => loss_mpc q st ts te dt d ub lb pr) p)) /\
  (forall A B dt t d pl self pl' self',
      driver_pass grad adamw A B dt t d pl self = Ok (pl', self') ->
      exists s0 s1 u row0 u_ch dist_row t_all xs,
        set_time t self = Ok (tt, s0) /\
        set_state (pl_state pl) s0 = Ok (tt, s1) /\
        attr.state s1 = Some (pl_state pl) /\
        step grad adamw d s1 = Ok (u, s1) /\
        set_u_start_from_last_step u s1 = Ok (tt, self') /\
        attr.state self' = Some (pl_state pl) /\
        getitem u 0 = Ok row0 /\ getitem row0 0 = Ok u_ch /\
        getitem d 0 = Ok dist_row /\
        forward f t (t + dt) dt (pl_state pl) Euler
                (A, B, [at_set 2 u_ch dist_row]) = Ok (t_all, xs) /\
        getlast xs = Ok (pl_state pl')).
Proof.
  split; [|split].
  - intros d. apply read_only_step.
  - intros p st ts te dt d ub lb pr. split.
    + apply read_only_loss_mpc.
    + apply read_only_value_and_grad, read_only_loss_mpc.
  - intros A B dt t d pl self pl' self' H.
    apply driver_pass_inv in H.
    destruct H as (s0 & s1 & u & row0 & u_ch & dist_row & t_all & xs & H).
    exists s0, s1, u, row0, u_ch, dist_row, t_all, xs. intuition.
Qed.

(** *** What the outcome of [step] depends on *)

Lemma inputs_only_ret {X} (x : X) : inputs_only (ret x).
Proof. intros a b _. reflexivity. Qed.

Lemma inputs_only_lift {X} (o : outcome X) : inputs_only (lift o).
Proof. intros a b _. unfold lift. destruct o; reflexivity. Qed.

Lemma inputs_only_getattr {X} (proj : MPC -> X) :
  (forall a b, same_inputs a b -> proj a = proj b) ->
  inputs_only (getattr proj).
Proof. intros Hp a b H. unfold getattr. cbn. rewrite (Hp a b H). reflexivity. Qed.

Lemma inputs_only_getattr_opt {X} (proj : MPC -> option X) :
  (forall a b, same_inputs a b -> proj a = proj b) ->
  inputs_only (getattr_opt proj).
Proof.
  intros Hp a b H. unfold getattr_opt. rewrite (Hp a b H).
  destruct (proj b); reflexivity.
Qed.

Lemma inputs_only_bind {X Y} (m : M X) (k : X -> M Y) :
  read_only m -> inputs_only m -> (forall x, inputs_only (k x)) ->
  inputs_only (bind m k).
Proof.
  intros Hr Hm Hk a b H. unfold bind. specialize (Hm a b H).
  destruct (m a) as [[x a']| |] eqn:Ea, (m b) as [[y b']| |] eqn:Eb;
    cbn in Hm; try discriminate.
  - injection Hm as ->.
    apply Hr in Ea. apply Hr in Eb. subst a' b'. apply Hk. exact H.
  - injection Hm as ->. reflexivity.
  - reflexivity.
Qed.

Ltac one_input :=
  let H := fresh in
  intros ? ? H; red in H; decompose [and] H; assumption.

Ltac inputs :=
  repeat first
    [ apply inputs_only_ret
    | apply inputs_only_lift
    | apply inputs_only_getattr; one_input
    | apply inputs_only_getattr_opt; one_input
    | apply inputs_only_bind;
      [ first [ solve [auto with frame]
              | apply read_only_get_T_violations
              | apply read_only_get_u_violations ]
      | | intros ? ]
    | match goal with
      | |- inputs_only (match ?x with _ => _ end) => destruct x
      | |- inputs_only (let '_ := ?x in _) => destruct x
      end ].

Lemma inputs_only_get_u_violations u : inputs_only (get_u_violations u).
Proof. unfold get_u_violations. inputs. Qed.

Lemma inputs_only_get_T_violations state ts te dt d ub lb :
  inputs_only (get_T_violations state ts te dt d ub lb).
Proof. unfold get_T_violations. inputs. Qed.

Lemma inputs_only_loss_mpc p state ts te dt d ub lb pr :
  inputs_only (loss_mpc p state ts te dt d ub lb pr).
Proof.
  unfold loss_mpc. inputs.
Qed.

Lemma inputs_only_step_horizon d : inputs_only (step_horizon d).
Proof. unfold step_horizon. inputs. Qed.

Section SameInputs.

(** The gradient at a point is determined by the values of the function:
    [jax.grad] of two functions that return the same value on every
    argument is the same. *)
Hypothesis grad_ext :
  forall (g h : matrix -> outcome Q) (p : matrix),
    (forall q, g q = h q) -> grad g p = grad h p.

Lemma inputs_only_value_and_grad (fn : matrix -> M Q) p :
  (forall q, inputs_only (fn q)) ->
  inputs_only (value_and_grad grad fn p).
Proof.
  intros Hfn a b H. unfold value_and_grad.
  pose proof (Hfn p a b H) as Hp.
  rewrite (grad_ext (fun q => omap fst (fn q a))
                    (fun q => omap fst (fn q b)) p (fun q => Hfn q a b H)).
  destruct (fn p a) as [[v s]| |], (fn p b) as [[v' s']| |];
    cbn in Hp; try discriminate.
  - injection Hp as ->. reflexivity.
  - injection Hp as ->. reflexivity.
  - reflexivity.
Qed.

Lemma inputs_only_loop_body hz
    (v : loop_vars (opt_state_t (optimizer adamw))) :
  inputs_only (loop_body grad adamw hz v).
Proof.
  unfold loop_body.
  apply inputs_only_bind; [auto with frame | inputs | intros self_dt].
  apply inputs_only_bind.
  - apply read_only_value_and_grad, read_only_loss_mpc.
  - apply inputs_only_value_and_grad. intros q. apply inputs_only_loss_mpc.
  - intros [l g]. destruct (opt_update _ _ _ _) as [upd os]. inputs.
Qed.

Lemma inputs_only_while_loop hz fuel :
  forall v : loop_vars (opt_state_t (optimizer adamw)),
    inputs_only (while_loop grad adamw fuel hz v).
Proof.
  induction fuel as [|fuel IH]; intros v; cbn [while_loop];
    destruct ((epoch v <? n_epochs)%nat && Qgtb (loss v) tolerance).
  - intros a b _. reflexivity.
  - apply inputs_only_ret.
  - apply inputs_only_bind;
      [apply read_only_loop_body | apply inputs_only_loop_body | exact IH].
  - apply inputs_only_ret.
Qed.

Lemma inputs_only_step d : inputs_only (step grad adamw d).
Proof.
  unfold step, step_loop.
  apply inputs_only_bind; [apply read_only_step_loop | | ].
  - apply inputs_only_bind;
      [apply read_only_step_horizon | apply inputs_only_step_horizon |].
    intros hz.
    apply inputs_only_bind; [auto with frame | inputs |].
    intros u0. apply inputs_only_while_loop.
  - intros v. destruct (u_ph v); inputs.
Qed.

(** C8.  Two runs of [step] on the same forecast give the same outcome,
    failures included, whenever the two controllers have the same inputs
    (time, state, warm-start sequence, and the settings [step] reads),
    whatever else differs between them.  In particular a second call on
    the controller the first call returned gives the same sequence, and
    a call made in between, on any forecast, changes nothing: nothing is
    carried from one call to the next, the optimizer state being made
    anew by [init] in every call.  No random key is handed to the
    gradient or to the optimizer, which are called with the arguments of
    lines 118-121; all the statement asks of [jax.grad] is that it is
    determined by the values of the function it differentiates. *)
Theorem step_twice_same_result d :
  (forall a b, same_inputs a b ->
     result (step grad adamw d) a = result (step grad adamw d) b) /\
  (forall self u s1,
     step grad adamw d self = Ok (u, s1) ->
     step grad adamw d s1 = Ok (u, s1)) /\
  (forall d0 self u0 s0,
     step grad adamw d0 self = Ok (u0, s0) ->
     step grad adamw d s0 = step grad adamw d self).
Proof.
  split; [|split].
  - intros a b H. unfold result. apply inputs_only_step. exact H.
  - intros self u s1 H.
    assert (s1 = self) as -> by (eapply read_only_step; exact H). exact H.
  - intros d0 self u0 s0 H.
    assert (s0 = self) as -> by (eapply read_only_step; exact H).
    reflexivity.
Qed.

End SameInputs.

Lemma step_horizon_needs_setters d self r :
  step_horizon d self = Ok r ->
  exists t st, attr.time self = Some t /\ attr.state self = Some st.
Proof.
  unfold step_horizon, bind, getattr_opt, getattr.
  destruct (attr.time self) as [t|]; [|discriminate].
  destruct (attr.state self) as [st|]; [|discriminate].
  intros _. exists t, st. split; reflexivity.
Qed.

(** C3, as the code has it.  [step] takes the forecast alone: whenever
    it returns, time and state had been put into the controller
    beforehand, the controller is returned as it was, and the value is
    the whole optimized sequence, one row per row of the forecast.  In a
    pass of the closed-loop driver the time [t] and the plant state are
    put in by [set_time] and [set_state] first; [step], called on that
    controller, returns the whole sequence, [PH] rows for a forecast of
    [PH] rows.  It is the driver that takes the first action
    [u_ph[0][0]] out of it, hands the whole sequence to
    [set_u_start_from_last_step], writes the action into column 2 of the
    first forecast row and applies it to the plant through its own
    [forward] call over one step, the last row of which is the new plant
    state. *)
Theorem step_returns_whole_sequence :
  (forall d self u s',
      step grad adamw d self = Ok (u, s') ->
      (exists t st, attr.time self = Some t /\ attr.state self = Some st) /\
      s' = self /\ length u = length d) /\
  (forall A B dt t d pl self pl' self',
      driver_pass grad adamw A B dt t d pl self = Ok (pl', self') ->
      exists s0 s1 u row0 u_ch dist_row t_all xs,
        set_time t self = Ok (tt, s0) /\
        set_state (pl_state pl) s0 = Ok (tt, s1) /\
        attr.time s1 = Some t /\ attr.state s1 = Some (pl_state pl) /\
        step grad adamw d s1 = Ok (u, s1) /\
        length u = length d /\
        (length d = attr.PH self -> length u = attr.PH self) /\
        set_u_start_from_last_step u s1 = Ok (tt, self') /\
        getitem u 0 = Ok row0 /\ getitem row0 0 = Ok u_ch /\
        getitem d 0 = Ok dist_row /\
        forward f t (t + dt) dt (pl_state pl) Euler
                (A, B, [at_set 2 u_ch dist_row]) = Ok (t_all, xs) /\
        getlast xs = Ok (pl_state pl') /\
        pl_u_opt pl' = pl_u_opt pl ++ [u_ch]).
Proof.
  split.
  - intros d self u s' H.
    assert (s' = self) as -> by (eapply read_only_step; exact H).
    split; [|split; [reflexivity | eapply step_rows; exact H]].
    apply step_inv in H. destruct H as (vf & Hl & _).
    apply step_loop_horizon in Hl. destruct Hl as (hz & Hz).
    eapply step_horizon_needs_setters. exact Hz.
  - intros A B dt t d pl self pl' self' H. apply driver_pass_inv in H.
    destruct H as (s0 & s1 & u & row0 & u_ch & dist_row & t_all & xs & H).
    destruct H as (E0 & E1 & Ht & Hst & Hs & Eu & _ & _ & G0 & G1 & Gd & Ef
                   & El & Ep).
    assert (Hr : length u = length d) by (eapply step_rows; exact Hs).
    exists s0, s1, u, row0, u_ch, dist_row, t_all, xs.
    repeat split; try assumption.
    intros HPH. rewrite Hr. exact HPH.
Qed.

End StepFacts.

(* ================================================================== *)
(** ** Warm start *)




(* ================================================================== *)
(** ** What the cost code computes *)

Lemma zipb_stretch_r {X Y Z'} (g : X -> Y -> Z') (l : list X) (b : Y) :
  zipb g l [b] = Ok (map (fun a => g a b) l).
Proof.
  unfold zipb. destruct l as [|a [|a' l]]; reflexivity.
Qed.

Lemma zipb_stretch_l {X Y Z'} (g : X -> Y -> Z') (a : X) (l : list Y) :
  zipb g [a] l = Ok (map (g a) l).
Proof.
  unfold zipb. destruct l as [|b [|b' l]]; reflexivity.
Qed.

Lemma sequence_map_Ok {X Y} (g : X -> Y) (l : list X) :
  sequence (map (fun x => Ok (g x)) l) = Ok (map g l).
Proof. induction l as [|x l IH]; simpl; [|rewrite IH]; reflexivity. Qed.

(** A (n,) array against a (PH,1) array: one row of [n] entries per
    entry of the column. *)
Lemma bop2_row_column (g : Q -> Q -> Q) (v c : vec) :
  bop2 g [v] (column c) = Ok (map (fun b => map (fun a => g a b) v) c).
Proof.
  unfold bop2. rewrite zipb_stretch_l. cbn [obind]. unfold column.
  rewrite map_map.
  rewrite (map_ext _ (fun b => Ok (map (fun a => g a b) v)))
    by (intros b; apply zipb_stretch_r).
  apply sequence_map_Ok.
Qed.

Lemma bop2_column_row (g : Q -> Q -> Q) (v c : vec) :
  bop2 g (column c) [v] = Ok (map (fun b => map (fun a => g b a) v) c).
Proof.
  unfold bop2. rewrite zipb_stretch_r. cbn [obind]. unfold column.
  rewrite map_map.
  rewrite (map_ext _ (fun b => Ok (map (fun a => g b a) v)))
    by (intros b; apply zipb_stretch_l).
  apply sequence_map_Ok.
Qed.

(** The temperature penalty sums over every pair of a sample and a step:
    each of the samples of the trajectory, the initial state included, is
    compared with the bounds of each step. *)
Lemma T_violations_of_all_pairs (xs : matrix) (Tz ubs lbs : vec) :
  sequence (map (fun r => getitem r 0) xs) = Ok Tz ->
  T_violations_of xs (column ubs) (column lbs) =
  Ok (msum (map (fun ub => map (fun t => relu (t - ub)) Tz) ubs)
      + msum (map (fun lb => map (fun t => relu (lb - t)) Tz) lbs)).
Proof.
  intros H. unfold T_violations_of. rewrite H. cbn [obind].
  rewrite bop2_row_column, bop2_column_row. cbn [obind].
  unfold mmap. rewrite !map_map.
  do 2 f_equal; f_equal; apply map_ext; intros b; rewrite map_map; reflexivity.
Qed.

Lemma bop2_columns (g : Q -> Q -> Q) (a b : vec) :
  length a = length b ->
  bop2 g (column a) (column b) =
  Ok (column (map (fun p => g (fst p) (snd p)) (combine a b))).
Proof.
  intros H. unfold bop2.
  rewrite zipb_same by (unfold column; rewrite !length_map; exact H).
  cbn [obind]. revert b H.
  induction a as [|x a IH]; intros [|y b] H; try discriminate; [reflexivity|].
  simpl in H. injection H as H. specialize (IH b H).
  cbn [column map combine sequence fst snd] in *.
  cbn [zipb length Nat.eqb map combine fst snd obind].
  unfold column in IH. rewrite IH. reflexivity.
Qed.

Lemma vsum_shift (g : Q -> Q) (k : Q) (l : vec) :
  vsum (map (fun e => g e + k) l)
  == vsum (map g l) + inject_Z (Z.of_nat (length l)) * k.
Proof.
  induction l as [|x l IH].
  - simpl. ring.
  - cbn [map vsum fold_right length]. fold (vsum (map (fun e => g e + k) l)).
    fold (vsum (map g l)). rewrite IH.
    rewrite Nat2Z.inj_succ, <- Z.add_1_r, inject_Z_plus.
    simpl (inject_Z 1). ring.
Qed.

Lemma vsum_map_ext (g h : Q -> Q) (l : vec) :
  (forall x, g x == h x) -> vsum (map g l) == vsum (map h l).
Proof.
  intros E. induction l as [|x l IH]; [reflexivity|].
  cbn [map vsum fold_right]. fold (vsum (map g l)). fold (vsum (map h l)).
  rewrite IH, E. reflexivity.
Qed.

Lemma msum_column (g : Q -> Q) (l : vec) :
  msum (mmap g (column l)) == vsum (map g l).
Proof.
  unfold msum, mmap, column. rewrite !map_map. cbn [map vsum fold_right].
  apply vsum_map_ext. intros x. ring.
Qed.

Lemma combine_map_abs (pv uv : vec) :
  map (fun p => fst p * snd p) (combine pv (map Qabs uv)) =
  map (fun p => fst p * Qabs (snd p)) (combine pv uv).
Proof.
  revert uv. induction pv as [|p pv IH]; intros [|u uv]; try reflexivity.
  cbn [map combine fst snd]. rewrite IH. reflexivity.
Qed.

(** The scalar penalties are counted once per entry of the energy term. *)
Lemma objective_adds_penalties_to_every_step (pv uv : vec) (self_dt : Z)
    (T_vios u_vios : Q) :
  length pv = length uv ->
  exists v,
    objective (column pv) (column uv) self_dt T_vios u_vios = Ok v /\
    v == vsum (map (fun p => fst p * Qabs (snd p) * inject_Z self_dt / 3600)
                   (combine pv uv))
         + inject_Z (Z.of_nat (length pv)) * (T_vios + u_vios).
Proof.
  intros H. unfold objective.
  assert (E : mmap Qabs (column uv) = column (map Qabs uv)).
  { unfold mmap, column. rewrite !map_map. reflexivity. }
  rewrite E, bop2_columns by (rewrite length_map; exact H). cbn [obind].
  eexists. split; [reflexivity|].
  rewrite msum_column, combine_map_abs.
  rewrite (vsum_map_ext _
             (fun e => e * inject_Z self_dt / 3600 + (T_vios + u_vios)))
    by (intros x; ring).
  rewrite vsum_shift, !length_map, length_combine, <- H, Nat.min_id, map_map.
  reflexivity.
Qed.

(* ================================================================== *)
(** ** The cost on concrete horizons *)

Ltac qcompute := vm_compute; reflexivity.

(** C1, evaluated.  Two steps from 8 am, one unit of cooling in each and
    a zone temperature of 25, 27, 25: the sample 27 exceeds the upper
    bound 26 by one degree, once.  The specified cost is the energy term
    plus 1, whichever two consecutive samples are taken as the steps.
    [loss_mpc] returns the energy term plus 4: the three samples are
    compared with the bounds of both steps (the difference of a (3,)
    array and a (2,1) array is a (2,3) array), which gives 2, and that
    sum is added to each of the two entries of the energy term before
    the final sum. *)
Theorem loss_mpc_on_two_steps :
  exists t_all v,
    forward f 28800 28802 1 [25; 25; 25] Euler
            (A_unit, B_unit, [[25; 3; -(1); 0; 0]; [25; 3; -(1); 0; 0]])
      = Ok (t_all, [[25; 25; 25]; [27; 25; 25]; [25; 25; 27]]) /\
    result (loss_mpc u_cooling [25; 25; 25] 28800 28802 1 dist_gain3
                     T_ub_8am T_lb_8am price_8am) mpc_8am = Ok v /\
    v == (9334 # 360000000) + 4 /\
    spec_cost [4667 # 100000; 4667 # 100000] [-(1); -(1)] [25; 27]
              [26; 26] [22; 22] 1 0 (-(10)) == (9334 # 360000000) + 1 /\
    spec_cost [4667 # 100000; 4667 # 100000] [-(1); -(1)] [27; 25]
              [26; 26] [22; 22] 1 0 (-(10)) == (9334 # 360000000) + 1 /\
    ~ v == (9334 # 360000000) + 1.
Proof.
  eexists. eexists.
  split; [qcompute|]. split; [qcompute|].
  split; [qcompute|]. split; [qcompute|]. split; [qcompute|].
  intros H. vm_compute in H. discriminate H.
Qed.

(** C2, evaluated.  Under the calm forecast the zone stays at 25, inside
    the band 22 to 26, and the cost is 0.  Raising the single sample of
    the second instant to 27, one degree above the bound, makes the
    temperature penalty 2 and the cost 4; raising it to 30, four degrees
    above, makes them 8 and 16.  The increase is the excess times the
    number of steps in the penalty, and times its square in the cost. *)
Theorem one_sample_above_the_bound :
  T_violations_of [[25; 25; 25]; [25; 25; 25]; [25; 25; 25]]
                  T_ub_8am T_lb_8am = Ok 0 /\
  T_violations_of [[25; 25; 25]; [27; 25; 25]; [25; 25; 25]]
                  T_ub_8am T_lb_8am = Ok 2 /\
  T_violations_of [[25; 25; 25]; [30; 25; 25]; [25; 25; 25]]
                  T_ub_8am T_lb_8am = Ok 8 /\
  exists v0 v1 v4,
    result (loss_mpc [[0]; [0]] [25; 25; 25] 28800 28802 1 dist_calm
                     T_ub_8am T_lb_8am price_8am) mpc_8am = Ok v0 /\
    result (loss_mpc [[0]; [0]] [25; 25; 25] 28800 28802 1 dist_sunny
                     T_ub_8am T_lb_8am price_8am) mpc_8am = Ok v1 /\
    result (loss_mpc [[0]; [0]] [25; 25; 25] 28800 28802 1 dist_hot
                     T_ub_8am T_lb_8am price_8am) mpc_8am = Ok v4 /\
    v0 == 0 /\ v1 - v0 == 4 /\ v4 - v0 == 16 /\
    ~ v1 - v0 == 1 /\ ~ v4 - v0 == 4.
Proof.
  split; [qcompute|]. split; [qcompute|]. split; [qcompute|].
  eexists. eexists. eexists.
  split; [qcompute|]. split; [qcompute|]. split; [qcompute|].
  split; [qcompute|]. split; [qcompute|]. split; [qcompute|].
  split; intros H; vm_compute in H; discriminate H.
Qed.

(** C3, as stated, fails: on a two-step horizon [step] returns a
    two-row sequence, not a single action. *)
Lemma step_does_not_return_one_action :
  ~ (exists a s', step grad0 drift dist_calm mpc_8am = Ok ([[a]], s')).
Proof.
  intros (a & s' & H).
  assert (E : result (step grad0 drift dist_calm) mpc_8am = Ok [[0]; [0]])
    by qcompute.
  unfold result in E. rewrite H in E. discriminate E.
Qed.

(* ================================================================== *)
(** ** The statements on concrete runs *)

Lemma zone_shapes_unit : zone_shapes A_unit B_unit 3 5.
Proof. repeat split; repeat constructor. Defined.

Lemma dist_calm_rows i :
  (i < 2)%nat -> getitem dist_calm i = getitem dist_calm_longer i.
Proof. destruct i as [|[|i]]; intros H; try reflexivity. lia. Defined.

Lemma int32_8am : int32 28800 /\ int32 (28800 + 1) /\ int32 28802.
Proof. unfold int32. lia. Defined.

(** The two-pass run reads the rows 0, 1 and 2 of a forecast of two rows;
    the forecast with a third row gives the same trajectory. *)
Lemma forward_reads_one_row_past_the_end_witness :
  (forall d1 : matrix,
      omap fst (forward_reads f 28800 28802 1 [25; 25; 25] Euler
                              (A_unit, B_unit, d1))
      = forward f 28800 28802 1 [25; 25; 25] Euler (A_unit, B_unit, d1)) /\
  (forall t_all x_all reads,
      forward_reads f 28800 28802 1 [25; 25; 25] Euler
                    (A_unit, B_unit, dist_calm)
      = Ok (t_all, x_all, reads) ->
      reads = seq 0 3 /\ last reads 0%nat = length dist_calm) /\
  getitem dist_calm 2 = getlast dist_calm /\
  (exists t_all x_all,
      forward_reads f 28800 28802 1 [25; 25; 25] Euler
                    (A_unit, B_unit, dist_calm)
      = Ok (t_all, x_all, seq 0 3) /\
      forward f 28800 28802 1 [25; 25; 25] Euler (A_unit, B_unit, dist_calm)
        = Ok (t_all, x_all) /\
      length t_all = 3%nat /\ length x_all = 3%nat) /\
  forward f 28800 28802 1 [25; 25; 25] Euler (A_unit, B_unit, dist_calm) =
  forward f 28800 28802 1 [25; 25; 25] Euler
          (A_unit, B_unit, dist_calm_longer).
Proof.
  apply (@forward_reads_one_row_past_the_end f Euler A_unit B_unit
           28800 28802 1 2 ltac:(lia) ltac:(lia)
           ltac:(intros j Hj; lia) 3 5 [25; 25; 25] dist_calm
           dist_calm_longer).
  - exact (proj1 int32_8am).
  - exact (proj1 (proj2 int32_8am)).
  - exact (proj2 (proj2 int32_8am)).
  - reflexivity.
  - discriminate.
  - exact dist_calm_rows.
  - exact zone_shapes_unit.
  - reflexivity.
  - repeat constructor.
Defined.


Lemma step_horizon_8am d :
  step_horizon d mpc_8am = Ok (hz_8am d, mpc_8am).
Proof. reflexivity. Defined.

Lemma step_loop_calm :
  step_loop grad0 drift dist_calm mpc_8am = Ok (vars_calm, mpc_8am).
Proof. vm_compute. reflexivity. Defined.



(** In the calm run the sequence returned is the start sequence of zeros,
    whose cost 0 is the last loss; the drifted parameters are dropped. *)
Lemma step_returns_iterate_of_last_loss_witness :
  exists hz vprev,
    step_horizon dist_calm mpc_8am = Ok (hz, mpc_8am) /\
    while_loop grad0 drift n_epochs hz
               (loop_entry drift (attr.u_start mpc_8am)) mpc_8am =
      bind (loop_body grad0 drift hz
                      (loop_entry drift (attr.u_start mpc_8am)))
           (while_loop grad0 drift (n_epochs - 1) hz) mpc_8am /\
    (1 <= epoch vars_calm)%nat /\
    passes grad0 drift (epoch vars_calm - 1) hz
           (loop_entry drift (attr.u_start mpc_8am)) mpc_8am
      = Ok (vprev, mpc_8am) /\
    loop_body grad0 drift hz vprev mpc_8am = Ok (vars_calm, mpc_8am) /\
    u_ph vars_calm = Some (params vprev) /\
    step grad0 drift dist_calm mpc_8am = Ok (params vprev, mpc_8am) /\
    loss_mpc (params vprev) (hz_state hz) (hz_ts hz) (hz_te hz)
             (attr.dt mpc_8am) (hz_disturbance hz) (hz_T_ub_ph hz)
             (hz_T_lb_ph hz) (hz_price_ph hz) mpc_8am
      = Ok (loss vars_calm, mpc_8am) /\
    exists updates,
      apply_updates (params vprev) updates = Ok (params vars_calm).
Proof.
  exact (@step_returns_iterate_of_last_loss grad0 drift dist_calm mpc_8am
           vars_calm mpc_8am step_loop_calm).
Defined.

Lemma step_calm :
  step grad0 drift dist_calm mpc_8am = Ok ([[0]; [0]], mpc_8am).
Proof. vm_compute. reflexivity. Defined.

Lemma driver_pass_calm :
  driver_pass grad0 drift A_unit B_unit 1 28800 dist_calm plant_8am mpc_new
  = Ok (plant_after, mpc_8am).
Proof. vm_compute. reflexivity. Defined.

(** One pass of the driver from a fresh controller: the controller that
    comes back holds the old plant state, and [step] gave back the very
    controller it was called on. *)
Lemma step_leaves_controller_unchanged_witness :
  (forall a self', step grad0 drift dist_calm mpc_8am = Ok (a, self') ->
                   self' = mpc_8am) /\
  exists s0 s1 u row0 u_ch dist_row t_all xs,
    set_time 28800 mpc_new = Ok (tt, s0) /\
    set_state (pl_state plant_8am) s0 = Ok (tt, s1) /\
    attr.state s1 = Some (pl_state plant_8am) /\
    step grad0 drift dist_calm s1 = Ok (u, s1) /\
    set_u_start_from_last_step u s1 = Ok (tt, mpc_8am) /\
    attr.state mpc_8am = Some (pl_state plant_8am) /\
    getitem u 0 = Ok row0 /\ getitem row0 0 = Ok u_ch /\
    getitem dist_calm 0 = Ok dist_row /\
    forward f 28800 (28800 + 1) 1 (pl_state plant_8am) Euler
            (A_unit, B_unit, [at_set 2 u_ch dist_row]) = Ok (t_all, xs) /\
    getlast xs = Ok (pl_state plant_after).
Proof.
  split.
  - exact (proj1 (step_leaves_controller_unchanged grad0 drift) dist_calm
                 mpc_8am).
  - exact (proj2 (proj2 (step_leaves_controller_unchanged grad0 drift))
                 A_unit B_unit 1%Z 28800%Z dist_calm plant_8am mpc_new
                 plant_after mpc_8am driver_pass_calm).
Defined.

Lemma grad0_ext (g h : matrix -> outcome Q) (p : matrix) :
  (forall q, g q = h q) -> grad0 g p = grad0 h p.
Proof. intros _. reflexivity. Defined.

Lemma same_inputs_8am : same_inputs mpc_8am mpc_8am_other.
Proof. repeat split. Defined.

(** The calm run on two controllers that differ in [CH], [NU] and the
    occupancy hours, and a second call after the first. *)
Lemma step_twice_same_result_witness :
  result (step grad0 drift dist_calm) mpc_8am
  = result (step grad0 drift dist_calm) mpc_8am_other /\
  step grad0 drift dist_calm mpc_8am = Ok ([[0]; [0]], mpc_8am) /\
  step grad0 drift dist_hot mpc_8am = step grad0 drift dist_hot mpc_8am.
Proof.
  split; [|split].
  - exact (proj1 (@step_twice_same_result grad0 drift grad0_ext dist_calm)
                 mpc_8am mpc_8am_other same_inputs_8am).
  - exact (proj1 (proj2 (@step_twice_same_result grad0 drift grad0_ext
                           dist_calm))
                 mpc_8am [[0]; [0]] mpc_8am step_calm).
  - exact (proj2 (proj2 (@step_twice_same_result grad0 drift grad0_ext
                           dist_hot))
                 dist_calm mpc_8am [[0]; [0]] mpc_8am step_calm).
Defined.

Lemma step_returns_whole_sequence_witness :
  ((exists t st, attr.time mpc_8am = Some t /\ attr.state mpc_8am = Some st)
   /\ mpc_8am = mpc_8am /\ length [[0]; [0]] = length dist_calm) /\
  exists s0 s1 u row0 u_ch dist_row t_all xs,
    set_time 28800 mpc_new = Ok (tt, s0) /\
    set_state (pl_state plant_8am) s0 = Ok (tt, s1) /\
    attr.time s1 = Some 28800%Z /\
    attr.state s1 = Some (pl_state plant_8am) /\
    step grad0 drift dist_calm s1 = Ok (u, s1) /\
    length u = length dist_calm /\
    (length dist_calm = attr.PH mpc_new -> length u = attr.PH mpc_new) /\
    set_u_start_from_last_step u s1 = Ok (tt, mpc_8am) /\
    getitem u 0 = Ok row0 /\ getitem row0 0 = Ok u_ch /\
    getitem dist_calm 0 = Ok dist_row /\
    forward f 28800 (28800 + 1) 1 (pl_state plant_8am) Euler
            (A_unit, B_unit, [at_set 2 u_ch dist_row]) = Ok (t_all, xs) /\
    getlast xs = Ok (pl_state plant_after) /\
    pl_u_opt plant_after = pl_u_opt plant_8am ++ [u_ch].
Proof.
  split.
  - exact (proj1 (step_returns_whole_sequence grad0 drift) dist_calm
                 mpc_8am [[0]; [0]] mpc_8am step_calm).
  - exact (proj2 (step_returns_whole_sequence grad0 drift) A_unit B_unit
                 1%Z 28800%Z dist_calm plant_8am mpc_new plant_after mpc_8am
                 driver_pass_calm).
Defined.


(* ================================================================== *)
(** ** The horizon data of a step *)

Lemma hour_index_lt ts ph dt : (hour_index ts ph dt < 24)%nat.
Proof.
  unfold hour_index.
  pose proof (Z.mod_pos_bound (ts + Z.of_nat ph * dt) 86400 ltac:(lia)) as Hm.
  assert (H : (0 <= (ts + Z.of_nat ph * dt) mod 86400 / 3600 < 24)%Z).
  { split; [apply Z.div_pos; lia|]. apply Z.div_lt_upper_bound; lia. }
  lia.
Qed.

(** X1.  The hour index of a horizon step always lies in 0..23, for
    negative clock values and steps too; it is the hour count modulo 24
    and does not change when the clock moves by whole days. *)
Theorem hour_index_in_day ts ph dt :
  (hour_index ts ph dt < 24)%nat /\
  Z.of_nat (hour_index ts ph dt)
  = (((ts + Z.of_nat ph * dt) / 3600) mod 24)%Z /\
  forall k, hour_index (ts + 86400 * k) ph dt = hour_index ts ph dt.
Proof.
  split; [apply hour_index_lt|]. split.
  - unfold hour_index.
    set (t := (ts + Z.of_nat ph * dt)%Z).
    rewrite Z2Nat.id.
    + change 86400%Z with (3600 * 24)%Z.
      rewrite Z.rem_mul_r by lia.
      rewrite Z.mul_comm, Z.div_add by lia.
      rewrite Z.div_small by (apply Z.mod_pos_bound; lia). lia.
    + apply Z.div_pos; [|lia]. apply Z.mod_pos_bound. lia.
  - intros k. unfold hour_index. do 2 f_equal.
    replace (ts + 86400 * k + Z.of_nat ph * dt)%Z
      with (ts + Z.of_nat ph * dt + k * 86400)%Z by lia.
    apply Z.mod_add. lia.
Qed.

Lemma sequence_map_getitem (a : vec) (idx : list nat) :
  Forall (fun i => (i < length a)%nat) idx ->
  sequence (map (getitem a) idx) = Ok (map (fun i => nth i a 0) idx).
Proof.
  induction idx as [|i idx IH]; intros H; [reflexivity|].
  inversion H as [|? ? Hi Hrest]; subst.
  cbn [map sequence]. rewrite (IH Hrest).
  destruct a as [|a0 a]; [simpl in Hi; lia|].
  unfold getitem. cbn [obind].
  replace (Nat.min i (length (a0 :: a) - 1)) with i by lia.
  rewrite (nth_indep (a0 :: a) a0 0 Hi). reflexivity.
Qed.

Lemma gather_ok (a : vec) (idx : list nat) :
  idx <> [] -> Forall (fun i => (i < length a)%nat) idx ->
  gather a idx = Ok (map (fun i => nth i a 0) idx).
Proof.
  intros Hne H. unfold gather. destruct idx as [|i idx]; [congruence|].
  apply sequence_map_getitem. exact H.
Qed.

Lemma nth_error_column_map {X} (g : X -> Q) (l : list X) (i : nat) :
  nth_error (column (map g l)) i = option_map (fun x => [g x]) (nth_error l i).
Proof.
  unfold column. rewrite map_map, nth_error_map. reflexivity.
Qed.

(** X2.  Once time and state are set, for a horizon of at least one step
    and 24-entry schedules, [step] builds its horizon data without
    raising: the end time is [ts + PH*dt], and the price and bound columns
    have [PH] rows, row [i] holding the schedule entry of the hour of
    [ts + i*dt].  No index is clamped. *)
Theorem step_horizon_columns d self ts st :
  attr.time self = Some ts -> attr.state self = Some st ->
  (1 <= attr.PH self)%nat ->
  length (attr.price self) = 24%nat ->
  length (attr.T_ub self) = 24%nat -> length (attr.T_lb self) = 24%nat ->
  exists hz,
    step_horizon d self = Ok (hz, self) /\
    hz_state hz = st /\ hz_ts hz = ts /\ hz_disturbance hz = d /\
    hz_te hz = (ts + Z.of_nat (attr.PH self) * attr.dt self)%Z /\
    length (hz_price_ph hz) = attr.PH self /\
    length (hz_T_ub_ph hz) = attr.PH self /\
    length (hz_T_lb_ph hz) = attr.PH self /\
    forall i, (i < attr.PH self)%nat ->
      nth_error (hz_price_ph hz) i
        = Some [nth (hour_index ts i (attr.dt self)) (attr.price self) 0] /\
      nth_error (hz_T_ub_ph hz) i
        = Some [nth (hour_index ts i (attr.dt self)) (attr.T_ub self) 0] /\
      nth_error (hz_T_lb_ph hz) i
        = Some [nth (hour_index ts i (attr.dt self)) (attr.T_lb self) 0].
Proof.
  intros Ht Hs HPH Hp Hu Hl.
  set (idx := map (fun ph => hour_index ts ph (attr.dt self))
                  (seq 0 (attr.PH self))).
  assert (Hne : idx <> []).
  { unfold idx. destruct (attr.PH self); [lia|]. discriminate. }
  assert (Hin : forall a : vec, length a = 24%nat ->
                  Forall (fun i => (i < length a)%nat) idx).
  { intros a Ha. unfold idx. apply Forall_forall. intros h Hh.
    apply in_map_iff in Hh. destruct Hh as (ph & <- & _).
    rewrite Ha. apply hour_index_lt. }
  unfold step_horizon, bind, getattr_opt, getattr, lift, ret.
  rewrite Ht, Hs. fold idx.
  rewrite !gather_ok by auto.
  eexists. split; [reflexivity|]. cbn [hz_state hz_ts hz_disturbance hz_te
    hz_price_ph hz_T_ub_ph hz_T_lb_ph].
  repeat split; try reflexivity;
    try (unfold column, idx; rewrite !length_map, length_seq; reflexivity).
  all: unfold idx; rewrite map_map, nth_error_column_map,
         nth_error_seq; 
       destruct (Nat.ltb_spec i (attr.PH self)); [reflexivity | lia].
Qed.

Lemma nth_schedule hi lo s e h :
  (h < 24)%nat ->
  nth h (schedule hi lo s e) 0
  = if ((s <=? h) && (h <? e))%nat then lo else hi.
Proof.
  intros H. unfold schedule.
  set (g := fun i => if ((s <=? i) && (i <? e))%nat then lo else hi).
  rewrite (nth_indep _ 0 (g 0%nat))
    by (rewrite length_map, length_seq; exact H).
  rewrite map_nth, seq_nth by exact H. reflexivity.
Qed.

(** X3.  A controller made by [__init__] has 24-entry bound schedules:
    26 and 22 degrees in the occupied hours 8..17, 30 and 12 degrees in
    the others, so the lower bound is below the upper one in every hour.
    Its start sequence is [PH] rows of zero, and [time] and [state] are
    not set yet. *)
Theorem init_schedules PH CH dt predictor price :
  let self := MPC_init PH CH dt predictor price in
  length (attr.T_ub self) = 24%nat /\ length (attr.T_lb self) = 24%nat /\
  (forall h, (h < 24)%nat ->
     nth h (attr.T_ub self) 0
       = (if ((8 <=? h) && (h <? 18))%nat then 26 else 30) /\
     nth h (attr.T_lb self) 0
       = (if ((8 <=? h) && (h <? 18))%nat then 22 else 12) /\
     nth h (attr.T_lb self) 0 < nth h (attr.T_ub self) 0) /\
  attr.u_start self = repeat [0] PH /\
  attr.time self = None /\ attr.state self = None.
Proof.
  cbn zeta. split; [reflexivity|]. split; [reflexivity|]. split.
  - intros h Hh. cbn [MPC_init attr.T_ub attr.T_lb].
    rewrite !nth_schedule by exact Hh.
    destruct ((8 <=? h) && (h <? 18))%nat; repeat split; reflexivity.
  - split; [|split; reflexivity].
    cbn [MPC_init attr.u_start]. unfold jnp_repeat, column.
    cbn [repeat map concat app flat_map].
    rewrite app_nil_r, map_repeat. reflexivity.
Qed.

(* ================================================================== *)
(** ** Errors of a step *)

(** X4.  [step] raises [AttributeError] as long as [set_time] or
    [set_state] has not been called. *)
Theorem step_before_setters grad adamw d self :
  attr.time self = None \/ attr.state self = None ->
  step grad adamw d self = Raise AttributeError.
Proof.
  intros H. unfold step, step_loop, bind at 1 2.
  assert (E : step_horizon d self = Raise AttributeError).
  { unfold step_horizon, bind, getattr_opt, getattr.
    destruct (attr.time self) as [ts|]; [|reflexivity].
    destruct H as [H|H]; [discriminate|]. rewrite H. reflexivity. }
  rewrite E. reflexivity.
Qed.

Lemma loss_mpc_row_mismatch p st ts te dt d ub lb pr self :
  length p <> length d ->
  loss_mpc p st ts te dt d ub lb pr self = Raise TypeError.
Proof.
  intros H. unfold loss_mpc, bind at 1, lift, concat_cols3.
  rewrite !length_map.
  match goal with
  | |- context [(?a =? ?b)%nat && _] =>
      destruct (Nat.eqb_spec a b) as [E|E];
        [exfalso; apply H; symmetry; exact E | reflexivity]
  end.
Qed.

Lemma step_row_mismatch grad adamw d self hz :
  step_horizon d self = Ok (hz, self) ->
  length d <> length (attr.u_start self) ->
  step grad adamw d self = Raise TypeError.
Proof.
  intros Hz Hlen.
  assert (Hd : hz_disturbance hz = d)
    by (eapply step_horizon_disturbance; exact Hz).
  unfold step, bind at 1.
  rewrite (@step_loop_unfold grad adamw d self hz Hz), while_loop_enters.
  unfold bind at 1, loop_body, bind at 1, getattr, bind at 1, value_and_grad.
  cbn [params loop_entry].
  rewrite loss_mpc_row_mismatch by (rewrite Hd; congruence).
  reflexivity.
Qed.

Lemma step_horizon_returns d self ts st :
  attr.time self = Some ts -> attr.state self = Some st ->
  (1 <= attr.PH self)%nat ->
  length (attr.price self) = 24%nat ->
  length (attr.T_ub self) = 24%nat -> length (attr.T_lb self) = 24%nat ->
  exists hz, step_horizon d self = Ok (hz, self).
Proof.
  intros Ht Hs HPH Hp Hu Hl.
  set (idx := map (fun ph => hour_index ts ph (attr.dt self))
                  (seq 0 (attr.PH self))).
  assert (Hne : idx <> []).
  { unfold idx. destruct (attr.PH self); [lia|]. discriminate. }
  assert (Hin : forall a : vec, length a = 24%nat ->
                  Forall (fun i => (i < length a)%nat) idx).
  { intros a Ha. unfold idx. apply Forall_forall. intros h Hh.
    apply in_map_iff in Hh. destruct Hh as (ph & <- & _).
    rewrite Ha. apply hour_index_lt. }
  unfold step_horizon, bind, getattr_opt, getattr, lift, ret.
  rewrite Ht, Hs. fold idx.
  rewrite !gather_ok by auto.
  eexists. reflexivity.
Qed.

(** X5.  When the forecast has another number of rows than the start
    sequence, the first cost evaluation fails: [step] raises [TypeError],
    and so does the pass of the closed loop that reads such a forecast,
    as happens when fewer than [PH] rows of data are left. *)
Theorem forecast_of_other_length_is_rejected grad adamw d self :
  length d <> length (attr.u_start self) ->
  (forall hz, step_horizon d self = Ok (hz, self) ->
              step grad adamw d self = Raise TypeError) /\
  (forall A B dt t pl,
      (1 <= attr.PH self)%nat ->
      length (attr.price self) = 24%nat ->
      length (attr.T_ub self) = 24%nat ->
      length (attr.T_lb self) = 24%nat ->
      driver_pass grad adamw A B dt t d pl self = Raise TypeError).
Proof.
  intros Hlen. split.
  - intros hz Hz. eapply step_row_mismatch; eassumption.
  - intros A B dt t pl HPH Hp Hu Hl.
    unfold driver_pass, bind at 1, set_time, bind at 1, set_state.
    unfold bind at 1.
    match goal with
    | |- match step grad adamw d ?s with _ => _ end = _ =>
        destruct (@step_horizon_returns d s t (pl_state pl))
          as (hz & Hz); try reflexivity; try assumption;
        rewrite (@step_row_mismatch grad adamw d s hz Hz Hlen)
    end.
    reflexivity.
Qed.

(* ================================================================== *)
(** ** Sign of the cost *)

Lemma relu_nonneg x : 0 <= relu x.
Proof.
  unfold relu. destruct (Qle_bool x 0) eqn:E; [apply Qle_refl|].
  apply Qlt_le_weak, Qnot_le_lt. intros H.
  apply Qle_bool_iff in H. congruence.
Qed.

Lemma relu_zero_iff x : relu x == 0 <-> x <= 0.
Proof.
  unfold relu. destruct (Qle_bool x 0) eqn:E.
  - apply Qle_bool_iff in E. split; [intros _; exact E | reflexivity].
  - split; intros H.
    + rewrite H. apply Qle_refl.
    + apply Qle_bool_iff in H. congruence.
Qed.

Lemma vsum_nonneg (l : vec) : Forall (fun x => 0 <= x) l -> 0 <= vsum l.
Proof.
  induction 1 as [|x l Hx _ IH]; [apply Qle_refl|].
  cbn [vsum fold_right]. fold (vsum l).
  rewrite <- (Qplus_0_r 0). apply Qplus_le_compat; assumption.
Qed.

Lemma vsum_zero_iff (l : vec) :
  Forall (fun x => 0 <= x) l ->
  (vsum l == 0 <-> Forall (fun x => x == 0) l).
Proof.
  induction 1 as [|x l Hx Hl IH]; [split; [constructor | reflexivity]|].
  cbn [vsum fold_right]. fold (vsum l).
  pose proof (vsum_nonneg Hl) as Hs. split.
  - intros E. assert (x == 0) by lra. assert (vsum l == 0) by lra.
    constructor; [assumption | apply IH; assumption].
  - intros E. inversion E as [|? ? Ex El]; subst.
    apply IH in El. lra.
Qed.

Lemma msum_nonneg (m : matrix) :
  Forall (Forall (fun x => 0 <= x)) m -> 0 <= msum m.
Proof.
  intros H. unfold msum. apply vsum_nonneg.
  apply Forall_map. eapply Forall_impl; [|exact H].
  intros r Hr. apply vsum_nonneg. exact Hr.
Qed.

Lemma msum_zero_iff (m : matrix) :
  Forall (Forall (fun x => 0 <= x)) m ->
  (msum m == 0 <-> Forall (Forall (fun x => x == 0)) m).
Proof.
  intros H. unfold msum.
  rewrite vsum_zero_iff
    by (apply Forall_map; eapply Forall_impl; [|exact H];
        intros r Hr; apply vsum_nonneg; exact Hr).
  rewrite Forall_map. split; intros E.
  - rewrite Forall_forall in *. intros r Hr.
    apply vsum_zero_iff; [apply H | apply E]; exact Hr.
  - rewrite Forall_forall in *. intros r Hr.
    apply vsum_zero_iff; [apply H | apply E]; exact Hr.
Qed.



(** Entries of a broadcast combination combine entries of the operands. *)
Lemma zipb_entries {X Y W} (P : X -> Prop) (P' : Y -> Prop) (R : W -> Prop)
    (g : X -> Y -> W) (l1 : list X) (l2 : list Y) (l : list W) :
  (forall x y, P x -> P' y -> R (g x y)) ->
  Forall P l1 -> Forall P' l2 -> zipb g l1 l2 = Ok l -> Forall R l.
Proof.
  intros Hg H1 H2. unfold zipb.
  assert (Hc : Forall R (map (fun p => g (fst p) (snd p)) (combine l1 l2))).
  { apply Forall_map, Forall_forall. intros [x y] Hin.
    rewrite Forall_forall in H1, H2.
    apply Hg; [apply H1 | apply H2]; simpl;
      [eapply in_combine_l | eapply in_combine_r]; exact Hin. }
  assert (Hl : forall a, P a -> Forall R (map (g a) l2)).
  { intros a Ha. apply Forall_map. eapply Forall_impl; [|exact H2].
    intros y Hy. apply Hg; assumption. }
  assert (Hr : forall b, P' b -> Forall R (map (fun x => g x b) l1)).
  { intros b Hb. apply Forall_map. eapply Forall_impl; [|exact H1].
    intros x Hx. apply Hg; assumption. }
  destruct (length l1 =? length l2)%nat; [intros [= <-]; exact Hc|].
  destruct l1 as [|a [|a' l1]].
  - destruct l2 as [|b [|b' l2]]; try discriminate.
    intros [= <-]. constructor.
  - intros [= <-]. inversion H1; subst. exact (Hl a ltac:(assumption)).
  - destruct l2 as [|b [|b' l2]]; try discriminate.
    intros [= <-]. inversion H2; subst. exact (Hr b ltac:(assumption)).
Qed.








Lemma Forall_rows_zero {X} (g : X -> vec) (l : list X) :
  Forall (Forall (fun x => x == 0)) (map g l) <->
  forall a, In a l -> Forall (fun x => x == 0) (g a).
Proof.
  rewrite Forall_map, Forall_forall. reflexivity.
Qed.

(** X7.  Against bound columns, the temperature penalty is zero exactly
    when every sample of the trajectory, the initial one included, lies
    within the bounds of every step of the horizon: a sample that is fine
    for its own step is penalised if another step has a tighter band. *)
Theorem T_violations_zero_iff (xs : matrix) (Tz ubs lbs : vec) :
  sequence (map (fun r => getitem r 0) xs) = Ok Tz ->
  exists v,
    T_violations_of xs (column ubs) (column lbs) = Ok v /\
    (v == 0 <->
     forall t, In t Tz ->
       (forall ub, In ub ubs -> t <= ub) /\
       (forall lb, In lb lbs -> lb <= t)).
Proof.
  intros H. rewrite (T_violations_of_all_pairs xs ubs lbs H).
  eexists. split; [reflexivity|].
  set (Mu := map (fun ub => map (fun t => relu (t - ub)) Tz) ubs).
  set (Ml := map (fun lb => map (fun t => relu (lb - t)) Tz) lbs).
  assert (Hu : Forall (Forall (fun x => 0 <= x)) Mu).
  { apply Forall_map, Forall_forall. intros ub _.
    apply Forall_map, Forall_forall. intros t _. apply relu_nonneg. }
  assert (Hl : Forall (Forall (fun x => 0 <= x)) Ml).
  { apply Forall_map, Forall_forall. intros lb _.
    apply Forall_map, Forall_forall. intros t _. apply relu_nonneg. }
  pose proof (msum_nonneg Hu) as Hu0. pose proof (msum_nonneg Hl) as Hl0.
  assert (Ezu : msum Mu == 0 <->
                forall ub, In ub ubs -> forall t, In t Tz -> t <= ub).
  { rewrite (msum_zero_iff Hu). unfold Mu. rewrite Forall_rows_zero.
    split; intros E ub Hub.
    - intros t Ht. specialize (E ub Hub).
      rewrite Forall_map, Forall_forall in E. specialize (E t Ht).
      apply relu_zero_iff in E. lra.
    - apply Forall_map, Forall_forall. intros t Ht.
      apply relu_zero_iff. specialize (E ub Hub t Ht). lra. }
  assert (Ezl : msum Ml == 0 <->
                forall lb, In lb lbs -> forall t, In t Tz -> lb <= t).
  { rewrite (msum_zero_iff Hl). unfold Ml. rewrite Forall_rows_zero.
    split; intros E lb Hlb.
    - intros t Ht. specialize (E lb Hlb).
      rewrite Forall_map, Forall_forall in E. specialize (E t Ht).
      apply relu_zero_iff in E. lra.
    - apply Forall_map, Forall_forall. intros t Ht.
      apply relu_zero_iff. specialize (E lb Hlb t Ht). lra. }
  split.
  - intros E. assert (E1 : msum Mu == 0) by lra.
    assert (E2 : msum Ml == 0) by lra.
    intros t Ht. split; [intros ub Hub | intros lb Hlb].
    + apply (proj1 Ezu E1 ub Hub t Ht).
    + apply (proj1 Ezl E2 lb Hlb t Ht).
  - intros E.
    assert (E1 : msum Mu == 0)
      by (apply Ezu; intros ub Hub t Ht; apply (proj1 (E t Ht)); exact Hub).
    assert (E2 : msum Ml == 0)
      by (apply Ezl; intros lb Hlb t Ht; apply (proj2 (E t Ht)); exact Hlb).
    lra.
Qed.

Lemma msum_column_id (l : vec) : msum (column (map (fun x => x) l)) == vsum l.
Proof.
  rewrite map_id. unfold msum, column. rewrite map_map. cbn [vsum fold_right].
  induction l as [|x l IH]; [reflexivity|].
  cbn [map vsum fold_right]. fold (vsum l).
  fold (vsum (map (fun x0 : Q => x0 + 0) l)). rewrite IH. ring.
Qed.

Lemma bop2_column_scalar (g : Q -> Q -> Q) (a : vec) (b : Q) :
  bop2 g (column a) [[b]] = Ok (column (map (fun x => g x b) a)).
Proof.
  unfold bop2. rewrite zipb_stretch_r. cbn [obind]. unfold column.
  rewrite !map_map.
  rewrite (map_ext _ (fun x => Ok [g x b])) by reflexivity.
  apply sequence_map_Ok.
Qed.

Lemma bop2_scalar_column (g : Q -> Q -> Q) (a : vec) (b : Q) :
  bop2 g [[b]] (column a) = Ok (column (map (g b) a)).
Proof.
  unfold bop2. rewrite zipb_stretch_l. cbn [obind]. unfold column.
  rewrite !map_map.
  rewrite (map_ext _ (fun x => Ok [g b x])) by reflexivity.
  apply sequence_map_Ok.
Qed.

Lemma combine_map_same {X Y W} (g : X -> Y) (h : X -> W) (l : list X) :
  combine (map g l) (map h l) = map (fun x => (g x, h x)) l.
Proof. induction l as [|x l IH]; simpl; [|rewrite IH]; reflexivity. Qed.

(** X8.  For a control column and one-entry bounds, the control penalty
    is the sum over the entries of the excess above [u_ub] and below
    [u_lb]; it is zero exactly when every control lies in
    [[u_lb, u_ub]]. *)
Theorem get_u_violations_zero_iff (uv : vec) (ub lb : Q) (self : MPC) :
  attr.u_ub self = [[ub]] -> attr.u_lb self = [[lb]] ->
  exists v,
    get_u_violations (column uv) self = Ok (v, self) /\
    v == vsum (map (fun u => relu (u - ub) + relu (lb - u)) uv) /\
    (v == 0 <-> forall u, In u uv -> lb <= u <= ub).
Proof.
  intros Hub Hlb.
  unfold get_u_violations, bind, getattr, lift, ret. rewrite Hub.
  rewrite bop2_column_scalar. cbv beta iota. rewrite Hlb.
  rewrite bop2_scalar_column. cbv beta iota.
  assert (E1 : mmap relu (column (map (fun x => x - ub) uv))
               = column (map (fun x => relu (x - ub)) uv))
    by (unfold mmap, column; rewrite !map_map; reflexivity).
  assert (E2 : mmap relu (column (map (Qminus lb) uv))
               = column (map (fun x => relu (lb - x)) uv))
    by (unfold mmap, column; rewrite !map_map; reflexivity).
  rewrite E1, E2, bop2_columns by (rewrite !length_map; reflexivity).
  rewrite combine_map_same, map_map. cbn [fst snd].
  eexists. split; [reflexivity|].
  set (w := map (fun u => relu (u - ub) + relu (lb - u)) uv).
  assert (Hv : msum (column w) == vsum w).
  { rewrite <- (map_id w) at 1. rewrite msum_column_id. reflexivity. }
  split; [exact Hv|]. rewrite Hv.
  assert (Hw : Forall (fun x => 0 <= x) w).
  { apply Forall_map, Forall_forall. intros u _.
    pose proof (relu_nonneg (u - ub)). pose proof (relu_nonneg (lb - u)).
    lra. }
  rewrite (vsum_zero_iff Hw). unfold w. rewrite Forall_map, Forall_forall.
  split; intros E u Hu.
  - specialize (E u Hu).
    pose proof (relu_nonneg (u - ub)). pose proof (relu_nonneg (lb - u)).
    assert (Ea : relu (u - ub) == 0) by lra.
    assert (Eb : relu (lb - u) == 0) by lra.
    apply relu_zero_iff in Ea, Eb. lra.
  - destruct (E u Hu) as [Ha Hb].
    assert (Ea : relu (u - ub) == 0) by (apply relu_zero_iff; lra).
    assert (Eb : relu (lb - u) == 0) by (apply relu_zero_iff; lra).
    lra.
Qed.

(* ================================================================== *)
(** ** More on the integration loop *)

Lemma append_row_inv (x_all : matrix) (x : vec) (r : matrix) :
  append_row x_all x = Ok r -> r = x_all ++ [x].
Proof.
  unfold append_row.
  match goal with
  | |- context [if ?c then _ else _] => destruct c; [|discriminate]
  end.
  intros [= <-]. reflexivity.
Qed.

Section ForwardTrace.

Variable func : Z -> vec -> ode_args -> outcome vec.
Variable solver : Solver.
Variables (A B d : matrix).
Variables (ts te dt : Z).
Variable n : nat.
Hypothesis dt_pos : (0 < dt)%Z.
Hypothesis n_hi : (te <= ts + Z.of_nat n * dt)%Z.
Hypothesis n_lo : forall j, (j < n)%nat -> (ts + Z.of_nat j * dt < te)%Z.

Lemma pass_end_next k i tprev tnext :
  at_head ts te dt n (S k) i tprev tnext ->
  Z.min (tnext + dt) te = Z.min (ts + Z.of_nat (i + 2) * dt) te.
Proof.
  intros [Hik [Hp Hn]].
  assert (Hlt : (ts + Z.of_nat i * dt < te)%Z) by (apply n_lo; lia).
  destruct Hn as [-> | ->]; lia.
Qed.

Lemma forward_loop_stamps :
  forall k fuel i tprev tnext x args st t_all x_all t' x',
    at_head ts te dt n k i tprev tnext ->
    forward_loop func solver A B d te dt fuel tprev tnext i x args st
                 t_all x_all = Ok (t', x') ->
    t' = t_all ++ map (fun j => Z.min (ts + Z.of_nat (i + j + 2) * dt) te)
                      (seq 0 k) /\
    length x' = (length x_all + k)%nat /\
    forall j, (j < length x_all)%nat -> nth_error x' j = nth_error x_all j.
Proof.
  induction k as [|k IH];
    intros fuel i tprev tnext x args st t_all x_all t' x' Hh H.
  - destruct Hh as [_ Hte]. rewrite forward_loop_done in H by exact Hte.
    injection H as <- <-. cbn [seq map]. rewrite app_nil_r, Nat.add_0_r.
    auto.
  - pose proof (pass_end_next Hh) as Hmin.
    apply (at_head_next dt_pos n_hi n_lo) in Hh. destruct Hh as [Hlt Hh].
    apply Z.ltb_lt in Hlt.
    destruct fuel as [|fuel]; cbn [forward_loop] in H; rewrite Hlt in H;
      [discriminate|].
    destruct (solver_step solver func tprev tnext x args st)
      as [[x1 st1]| |]; cbn [obind] in H; try discriminate.
    destruct (getitem d (S i)) as [dnext| |]; cbn [obind] in H;
      try discriminate.
    destruct (append_row x_all x1) as [x_all1| |] eqn:Ea; cbn [obind] in H;
      try discriminate.
    apply append_row_inv in Ea. subst x_all1.
    apply (IH _ _ _ _ _ _ _ _ _ _ _ Hh) in H.
    destruct H as (Ht & Hl & Hn).
    split; [|split].
    + rewrite Ht, <- app_assoc. f_equal. cbn [seq map app].
      rewrite Hmin, Nat.add_0_r. f_equal.
      rewrite <- seq_shift, map_map. apply map_ext. intros j.
      do 3 f_equal. lia.
    + rewrite Hl, length_app. simpl. lia.
    + intros j Hj. rewrite Hn by (rewrite length_app; simpl; lia).
      apply nth_error_app1. exact Hj.
Qed.

(** X9.  With [dt > 0] and [n] passes, the time stamps that [forward]
    returns are [ts] followed, for pass [j], by [min(ts + (j+2)*dt, te)]:
    the stamp stored with the state reached at [ts + (j+1)*dt] is the end
    of the following pass, so the last two of a trajectory of two or more
    passes are both [te].  The states have [n + 1] rows, the first being
    the initial state. *)
Theorem forward_time_stamps (x0 : vec) t_all x_all :
  forward func ts te dt x0 solver (A, B, d) = Ok (t_all, x_all) ->
  t_all = ts :: map (fun j => Z.min (ts + Z.of_nat (j + 2) * dt) te)
                    (seq 0 n) /\
  length x_all = S n /\ nth_error x_all 0 = Some x0.
Proof.
  unfold forward. intros H.
  destruct (getitem d 0) as [dprev| |]; cbn [obind] in H; try discriminate.
  apply forward_loop_stamps with (k := n) in H;
    [|apply at_head_start; [exact n_hi | reflexivity]].
  destruct H as (Ht & Hl & Hn). split; [|split].
  - rewrite Ht. reflexivity.
  - rewrite Hl. reflexivity.
  - rewrite Hn by (simpl; lia). reflexivity.
Qed.

Lemma forward_loop_euler_rows :
  forall k fuel i tprev tnext (x dd : vec) t_all (x_all : matrix) t' x',
    at_head ts te dt n k i tprev tnext ->
    tnext = pass_end ts te dt i -> getitem d i = Ok dd ->
    length x_all = S i -> nth_error x_all i = Some x ->
    forward_loop f Euler A B d te dt fuel tprev tnext i x (A, B, dd) tt
                 t_all x_all = Ok (t', x') ->
    (forall j, (j <= i)%nat -> nth_error x' j = nth_error x_all j) /\
    forall j, (i <= j < i + k)%nat ->
      exists xj xj1 dj,
        nth_error x' j = Some xj /\ nth_error x' (S j) = Some xj1 /\
        getitem d j = Ok dj /\
        solver_step Euler f (ts + Z.of_nat j * dt) (pass_end ts te dt j)
                    xj (A, B, dj) tt = Ok (xj1, tt).
Proof.
  induction k as [|k IH];
    intros fuel i tprev tnext x dd t_all x_all t' x' Hh Hn Hd Hlen Hx H.
  - destruct Hh as [_ Hte]. rewrite forward_loop_done in H by exact Hte.
    injection H as <- <-. split; [reflexivity | intros j Hj; lia].
  - pose proof (pass_end_next Hh) as Hmin.
    pose proof (proj1 (proj2 Hh)) as Hp.
    apply (at_head_next dt_pos n_hi n_lo) in Hh. destruct Hh as [Hlt Hh].
    apply Z.ltb_lt in Hlt.
    destruct fuel as [|fuel]; cbn [forward_loop] in H; rewrite Hlt in H;
      [discriminate|].
    destruct (solver_step Euler f tprev tnext x (A, B, dd) tt)
      as [[x1 []]| |] eqn:Es; cbn [obind] in H; try discriminate.
    destruct (getitem d (S i)) as [dnext| |] eqn:Eg; cbn [obind] in H;
      try discriminate.
    destruct (append_row x_all x1) as [x_all1| |] eqn:Ea; cbn [obind] in H;
      try discriminate.
    apply append_row_inv in Ea. subst x_all1.
    apply (IH _ _ _ _ _ _ _ _ _ _ Hh) in H; auto.
    + destruct H as (Hsame & Hrows). split.
      * intros j Hj. rewrite Hsame by lia.
        apply nth_error_app1. lia.
      * intros j Hj. destruct (Nat.eq_dec j i) as [->|Hne].
        -- exists x, x1, dd.
           rewrite !Hsame by lia.
           rewrite nth_error_app1 by lia.
           rewrite nth_error_app2 by lia.
           rewrite Hlen, Nat.sub_diag. subst tprev tnext.
           repeat split; auto.
        -- apply Hrows. lia.
    + unfold pass_end. rewrite Hmin. do 3 f_equal. lia.
    + rewrite length_app. simpl. lia.
    + rewrite nth_error_app2 by lia. rewrite Hlen, Nat.sub_diag. reflexivity.
Qed.

(** X10.  With [dt > 0] and [n] passes, every row of the trajectory that
    [forward] returns with the Euler solver on the zone model is the Euler
    step from the row before it, under disturbance row [j] for pass [j]:
    [x + (A x + B d_j) * h].  The step [h] of the first pass is [dt] even
    when [te] is nearer than that; later passes stop at [te]. *)
Theorem forward_rows_are_euler_steps (x0 : vec) t_all x_all :
  forward f ts te dt x0 Euler (A, B, d) = Ok (t_all, x_all) ->
  forall j, (j < n)%nat ->
    exists xj xj1 dj,
      nth_error x_all j = Some xj /\ nth_error x_all (S j) = Some xj1 /\
      getitem d j = Ok dj /\
      solver_step Euler f (ts + Z.of_nat j * dt) (pass_end ts te dt j)
                  xj (A, B, dj) tt = Ok (xj1, tt).
Proof.
  unfold forward. intros H j Hj.
  destruct (getitem d 0) as [dprev| |] eqn:Eg; cbn [obind] in H;
    try discriminate.
  cbn [solver_init Euler] in H.
  apply forward_loop_euler_rows with (k := n) in H; auto.
  - destruct H as (_ & Hrows). apply Hrows. lia.
  - apply at_head_start; [exact n_hi | reflexivity].
Qed.

End ForwardTrace.

(** A property of the state that every solver step keeps, given one of
    the disturbance rows, holds for every row of the trajectory. *)
Lemma forward_loop_invariant func solver (A B d : matrix) te dt
    (P Pd : vec -> Prop) :
  (forall t0 t1 x dd st x' st',
      P x -> Pd dd ->
      solver_step solver func t0 t1 x (A, B, dd) st = Ok (x', st') -> P x') ->
  Forall Pd d ->
  forall fuel tprev tnext i x dd st t_all x_all t' x',
    P x -> Pd dd -> Forall P x_all ->
    forward_loop func solver A B d te dt fuel tprev tnext i x (A, B, dd) st
                 t_all x_all = Ok (t', x') ->
    Forall P x'.
Proof.
  intros Hstep Hd. induction fuel as [|fuel IH];
    intros tprev tnext i x dd st t_all x_all t' x' Hx Hdd Hall H;
    cbn [forward_loop] in H; destruct (tprev <? te)%Z; try discriminate;
    try (injection H as <- <-; exact Hall).
  destruct (solver_step solver func tprev tnext x (A, B, dd) st)
    as [[x1 st1]| |] eqn:Es; cbn [obind] in H; try discriminate.
  destruct (getitem d (S i)) as [dnext| |] eqn:Eg; cbn [obind] in H;
    try discriminate.
  destruct (append_row x_all x1) as [x_all1| |] eqn:Ea; cbn [obind] in H;
    try discriminate.
  apply append_row_inv in Ea. subst x_all1.
  assert (Hx1 : P x1) by (eapply Hstep; eauto).
  eapply IH; [exact Hx1 | | | exact H].
  - apply getitem_in in Eg. rewrite Forall_forall in Hd. auto.
  - apply Forall_app. split; [exact Hall|]. constructor; auto.
Qed.

Lemma dot_all_zero (r x : vec) : all_zero x -> dot r x == 0.
Proof.
  unfold all_zero, dot. revert x.
  induction r as [|a r IH]; intros [|b x] H; try reflexivity.
  inversion H as [|? ? Hb Hx]; subst.
  cbn [combine map vsum fold_right fst snd].
  fold (vsum (map (fun p => fst p * snd p) (combine r x))).
  rewrite (IH x Hx), Hb. ring.
Qed.

Lemma matvec_all_zero (Mx : matrix) (x y : vec) :
  all_zero x -> matvec Mx x = Ok y -> all_zero y.
Proof.
  intros Hx. unfold matvec.
  match goal with
  | |- context [if ?c then _ else _] => destruct c; [|discriminate]
  end.
  intros [= <-]. apply Forall_map, Forall_forall. intros r _.
  apply dot_all_zero. exact Hx.
Qed.

Lemma Euler_zone_keeps_origin (A B : matrix) t0 t1 (x dd : vec) st x' st' :
  all_zero x -> all_zero dd ->
  solver_step Euler f t0 t1 x (A, B, dd) st = Ok (x', st') -> all_zero x'.
Proof.
  intros Hx Hd. cbn [solver_step Euler f]. unfold zone_state_space.
  destruct (matvec A x) as [Ax| |] eqn:EA; cbn [obind]; try discriminate.
  destruct (matvec B dd) as [Bd| |] eqn:EB; cbn [obind]; try discriminate.
  destruct (zipb Qplus Ax Bd) as [dy| |] eqn:Ez; cbn [obind];
    try discriminate.
  destruct (zipb Qplus x _) as [y1| |] eqn:Ey; cbn [obind];
    try discriminate.
  intros [= <- _].
  assert (Hdy : all_zero dy).
  { eapply zipb_entries
      with (P := fun v => v == 0) (P' := fun v => v == 0);
      [| eapply matvec_all_zero; [exact Hx | exact EA]
       | eapply matvec_all_zero; [exact Hd | exact EB] | exact Ez].
    intros a b Ha Hb. rewrite Ha, Hb. ring. }
  eapply zipb_entries
    with (P := fun v => v == 0) (P' := fun v => v == 0);
    [| exact Hx | | exact Ey].
  - intros a b Ha Hb. rewrite Ha, Hb. ring.
  - apply Forall_map. eapply Forall_impl; [|exact Hdy].
    intros v Hv. cbv beta. rewrite Hv. ring.
Qed.

(** X11.  The origin is a fixed point of the simulation: from a zero
    initial state and under zero disturbance rows, every state of the
    trajectory [forward] returns with the Euler solver on the zone model
    is zero, for any matrices, times and step. *)
Theorem forward_stays_at_origin (A B d : matrix) ts te dt (x0 : vec)
    t_all x_all :
  all_zero x0 -> Forall all_zero d ->
  forward f ts te dt x0 Euler (A, B, d) = Ok (t_all, x_all) ->
  Forall all_zero x_all.
Proof.
  intros Hx Hd. unfold forward.
  destruct (getitem d 0) as [dprev| |] eqn:Eg; cbn [obind]; try discriminate.
  intros H.
  eapply forward_loop_invariant with (P := all_zero) (Pd := all_zero);
    [| exact Hd | exact Hx | | | exact H].
  - intros t0 t1 x dd st x' st'. apply Euler_zone_keeps_origin.
  - apply getitem_in in Eg. rewrite Forall_forall in Hd. auto.
  - constructor; auto.
Qed.

(** X12.  An empty forecast makes [forward] raise [IndexError] before
    anything is integrated.  With a forecast of at least one row and an
    end time not after the start, [forward] calls no solver step and
    returns the initial state alone, with the single stamp [ts], whatever
    the step [dt] is. *)
Theorem forward_without_passes func solver (A B d : matrix) ts te dt
    (x0 : vec) :
  forward func ts te dt x0 solver (A, B, []) = Raise IndexError /\
  ((te <= ts)%Z -> d <> [] ->
   forward func ts te dt x0 solver (A, B, d) = Ok ([ts], [x0])).
Proof.
  split; [reflexivity|]. intros Hte Hd. unfold forward.
  destruct (getitem_ok 0 Hd) as (r & Er). rewrite Er. cbn [obind].
  apply forward_loop_done. exact Hte.
Qed.

Lemma forward_loop_never_ends func solver (A B d : matrix) te dt :
  (dt <= 0)%Z ->
  forall fuel tprev tnext i x args st t_all x_all r,
    (tprev < te)%Z -> (tnext < te)%Z ->
    forward_loop func solver A B d te dt fuel tprev tnext i x args st
                 t_all x_all <> Ok r.
Proof.
  intros Hdt. induction fuel as [|fuel IH];
    intros tprev tnext i x args st t_all x_all r Hp Hn;
    cbn [forward_loop]; apply Z.ltb_lt in Hp; rewrite Hp; [discriminate|].
  destruct (solver_step solver func tprev tnext x args st)
    as [[x1 st1]| |]; cbn [obind]; try discriminate.
  destruct (getitem d (S i)) as [dnext| |]; cbn [obind]; try discriminate.
  destruct (append_row x_all x1) as [x_all1| |]; cbn [obind];
    try discriminate.
  apply IH; lia.
Qed.

(** X13.  With a step [dt <= 0] and a start before the end, the loop of
    [forward] never reaches its exit: however many passes are allowed, it
    returns no trajectory (it can only stop by an exception). *)
Theorem forward_with_nonpositive_step func solver (A B d : matrix)
    ts te dt (x0 : vec) :
  (dt <= 0)%Z -> (ts < te)%Z ->
  (forall fuel args st r,
     forward_loop func solver A B d te dt fuel ts (ts + dt) 0 x0 args st
                  [ts] [x0] <> Ok r) /\
  forall r, forward func ts te dt x0 solver (A, B, d) <> Ok r.
Proof.
  intros Hdt Hlt. split.
  - intros fuel args st r. apply forward_loop_never_ends; lia.
  - intros r. unfold forward.
    destruct (getitem d 0) as [dprev| |]; cbn [obind]; try discriminate.
    apply forward_loop_never_ends; lia.
Qed.

(* ================================================================== *)
(** ** The closed loop *)

Lemma same_settings_refl a : same_settings a a.
Proof. unfold same_settings. repeat split. Qed.

Lemma same_settings_trans a b c :
  same_settings a b -> same_settings b c -> same_settings a c.
Proof.
  unfold same_settings. intros H1 H2.
  decompose [and] H1. decompose [and] H2.
  repeat split; congruence.
Qed.

Lemma concat_rows_inv (a b r : matrix) :
  concat_rows a b = Ok r -> r = a ++ b.
Proof.
  unfold concat_rows. destruct (a ++ b) as [|r0 l] eqn:E.
  - intros [= <-]. reflexivity.
  - match goal with
    | |- context [if ?c then _ else _] => destruct c; [|discriminate]
    end.
    intros [= <-]. reflexivity.
Qed.

(** One pass of the driver: what it leaves in the controller and what it
    appends to the logs. *)
Lemma driver_pass_effect grad adamw A B dt t d pl self pl' self' :
  driver_pass grad adamw A B dt t d pl self = Ok (pl', self') ->
  same_settings self self' /\
  attr.time self' = Some t /\ attr.state self' = Some (pl_state pl) /\
  (exists u, length u = length d /\
             attr.u_start self' = skipn (attr.NU self) u ++ attr.u_ub self) /\
  length (pl_u_opt pl') = S (length (pl_u_opt pl)) /\
  length (pl_Tz_opt pl') = S (length (pl_Tz_opt pl)) /\
  length (pl_To_opt pl') = S (length (pl_To_opt pl)).
Proof.
  unfold driver_pass. intros H.
  apply bind_ok in H. destruct H as ([] & s0 & E0 & H).
  apply bind_ok in H. destruct H as ([] & s1 & E1 & H).
  apply bind_ok in H. destruct H as (u & s2 & E2 & H).
  assert (s2 = s1) as -> by (eapply read_only_step; exact E2).
  apply bind_ok in H. destruct H as ([] & s3 & E3 & H).
  apply bind_ok in H. destruct H as (row0 & s4 & E4 & H).
  assert (s4 = s3) as -> by (eapply read_only_lift; exact E4).
  apply bind_ok in H. destruct H as (u_ch & s5 & E5 & H).
  assert (s5 = s3) as -> by (eapply read_only_lift; exact E5).
  apply bind_ok in H. destruct H as (dist_row & s6 & E6 & H).
  assert (s6 = s3) as -> by (eapply read_only_lift; exact E6).
  apply bind_ok in H. destruct H as ([t_all xs] & s7 & E7 & H).
  assert (s7 = s3) as -> by (eapply read_only_lift; exact E7).
  apply bind_ok in H. destruct H as (st' & s8 & E8 & H).
  assert (s8 = s3) as -> by (eapply read_only_lift; exact E8).
  apply bind_ok in H. destruct H as (Tz & s9 & E9 & H).
  assert (s9 = s3) as -> by (eapply read_only_lift; exact E9).
  apply bind_ok in H. destruct H as (To & s10 & E10 & H).
  assert (s10 = s3) as -> by (eapply read_only_lift; exact E10).
  injection H as <- <-.
  apply step_rows in E2.
  unfold set_time in E0. injection E0 as <-.
  unfold set_state in E1. injection E1 as <-.
  unfold set_u_start_from_last_step in E3. cbn [attr.NU attr.u_ub] in E3.
  destruct (concat_rows (skipn (attr.NU self) u) (attr.u_ub self))
    as [us| |] eqn:Ec; cbn [obind] in E3; try discriminate.
  apply concat_rows_inv in Ec. subst us. injection E3 as <-.
  cbn [pl_u_opt pl_Tz_opt pl_To_opt attr.time attr.state attr.u_start].
  rewrite !length_app. cbn [length].
  split; [unfold same_settings; cbn; repeat split|].
  split; [reflexivity|]. split; [reflexivity|].
  split; [exists u; split; [exact E2 | reflexivity]|].
  repeat split; lia.
Qed.

(** X14.  Whatever the number of passes of the closed loop, the
    controller keeps its settings (horizon, step, bounds, schedules,
    prices, predictor, solver): only [time], [state] and [u_start] are
    ever reassigned.  Each of the three logs grows by one entry per pass,
    and after the last pass the controller holds the time of that pass. *)
Theorem driver_loop_keeps_settings grad adamw A B dt passes_in :
  forall pl self pl' self',
    driver_loop grad adamw A B dt passes_in pl self = Ok (pl', self') ->
    same_settings self self' /\
    length (pl_u_opt pl') = (length (pl_u_opt pl) + length passes_in)%nat /\
    length (pl_Tz_opt pl') = (length (pl_Tz_opt pl) + length passes_in)%nat /\
    length (pl_To_opt pl') = (length (pl_To_opt pl) + length passes_in)%nat /\
    (passes_in <> [] ->
     attr.time self' = Some (fst (last passes_in (0%Z, [])))).
Proof.
  induction passes_in as [|[t d] rest IH]; intros pl self pl' self' H.
  - cbn [driver_loop] in H. injection H as <- <-.
    rewrite !Nat.add_0_r.
    repeat split; try reflexivity; try congruence.
  - cbn [driver_loop] in H. apply bind_ok in H.
    destruct H as (pl1 & s1 & E1 & H).
    apply driver_pass_effect in E1.
    destruct E1 as (Hs & Ht & _ & _ & Hu & Hz & Ho).
    pose proof (IH _ _ _ _ H) as (Hs' & Hu' & Hz' & Ho' & Hlast).
    split; [eapply same_settings_trans; eassumption|].
    cbn [length]. repeat split; try lia.
    intros _. destruct rest as [|p rest'].
    + cbn [driver_loop] in H. injection H as <- <-. exact Ht.
    + change (last ((t, d) :: p :: rest') (0%Z, []))
        with (last (p :: rest') (0%Z, [])).
      apply Hlast. discriminate.
Qed.

(** X15.  The start sequence keeps the length of the horizon over the
    closed loop: when every forecast has [PH >= 1] rows and the control
    bound is a single row, the sequence stored for the next pass has [PH]
    rows again after any number of passes. *)
Theorem driver_loop_keeps_horizon_length grad adamw A B dt PH passes_in :
  forall pl self pl' self',
    (1 <= PH)%nat ->
    Forall (fun p => length (snd p) = PH) passes_in ->
    attr.NU self = 1%nat -> length (attr.u_ub self) = 1%nat ->
    length (attr.u_start self) = PH ->
    driver_loop grad adamw A B dt passes_in pl self = Ok (pl', self') ->
    length (attr.u_start self') = PH.
Proof.
  induction passes_in as [|[t d] rest IH];
    intros pl self pl' self' HPH Hall HNU Hub Hlen H.
  - cbn [driver_loop] in H. injection H as <- <-. exact Hlen.
  - cbn [driver_loop] in H. apply bind_ok in H.
    destruct H as (pl1 & s1 & E1 & H).
    apply driver_pass_effect in E1.
    destruct E1 as (Hs & _ & _ & (u & Hu & Hstart) & _).
    inversion Hall as [|? ? Hd Hrest]; subst. cbn [snd] in Hd.
    destruct Hs as (_ & _ & _ & ENU & _ & _ & _ & _ & Eub & _).
    eapply IH; [exact HPH | exact Hrest | | | | exact H].
    + rewrite <- ENU. exact HNU.
    + rewrite <- Eub. exact Hub.
    + rewrite Hstart, length_app, length_skipn, HNU, Hub, Hu, Hd. lia.
Qed.

(* ================================================================== *)
(** ** The forecast read for a pass *)

Lemma loc_by_position (lbl : nat -> Z) (inside : Z -> bool) (j PH : nat) :
  (forall k, inside (lbl k) = ((j <=? k) && (k <? j + PH))%nat) ->
  forall (rows : matrix) (s : nat),
    map snd (filter (fun r => inside (fst r))
                    (combine (map lbl (seq s (length rows))) rows))
    = firstn (j + PH - Nat.max s j) (skipn (j - s) rows).
Proof.
  intros Hin. induction rows as [|r rows IH]; intros s.
  - cbn. rewrite skipn_nil, firstn_nil. reflexivity.
  - cbn [length seq map combine filter fst]. rewrite Hin.
    destruct (Nat.leb_spec j s) as [Hjs|Hjs]; cbn [andb].
    + destruct (Nat.ltb_spec s (j + PH)) as [Hs|Hs].
      * cbn [map snd]. rewrite IH.
        replace (j - s)%nat with 0%nat by lia.
        replace (j - S s)%nat with 0%nat by lia. cbn [skipn].
        replace (j + PH - Nat.max s j)%nat
          with (S (j + PH - Nat.max (S s) j)) by lia.
        reflexivity.
      * rewrite IH.
        replace (j + PH - Nat.max s j)%nat with 0%nat by lia.
        replace (j + PH - Nat.max (S s) j)%nat with 0%nat by lia.
        reflexivity.
    + rewrite IH.
      replace (j - s)%nat with (S (j - S s)) by lia. cbn [skipn].
      replace (Nat.max (S s) j) with (Nat.max s j) by lia. reflexivity.
Qed.

(** X16.  On a frame indexed from [t_base] in steps of [dt > 0], the
    forecast read at the time of row [j] is made of the rows [j] to
    [j + PH - 1]: exactly [PH] rows while that many are left, and only
    the rows that remain near the end of the data. *)
Theorem get_disturbance_ph_rows (t_base dt : Z) (rows : matrix)
    (j PH : nat) :
  (0 < dt)%Z ->
  values (get_disturbance_ph (set_index t_base dt rows)
                             (t_base + Z.of_nat j * dt) PH dt)
  = firstn PH (skipn j rows) /\
  length (get_disturbance_ph (set_index t_base dt rows)
                             (t_base + Z.of_nat j * dt) PH dt)
  = Nat.min PH (length rows - j).
Proof.
  intros Hdt.
  assert (E : values (get_disturbance_ph (set_index t_base dt rows)
                        (t_base + Z.of_nat j * dt) PH dt)
              = firstn PH (skipn j rows)).
  { unfold values, get_disturbance_ph, loc, set_index.
    rewrite (@loc_by_position
               (fun k => (t_base + Z.of_nat k * dt)%Z)
               (fun l => ((t_base + Z.of_nat j * dt <=? l)
                          && (l <=? t_base + Z.of_nat j * dt
                                    + Z.of_nat PH * dt - 1))%Z) j PH).
    - rewrite Nat.sub_0_r. f_equal. lia.
    - intros k. cbv beta.
      destruct (Nat.leb_spec j k) as [Hjk|Hjk];
        destruct (Nat.ltb_spec k (j + PH)) as [Hk|Hk]; cbn [andb].
      + apply andb_true_iff. split; [apply Z.leb_le | apply Z.leb_le]; nia.
      + apply andb_false_iff. right. apply Z.leb_gt. nia.
      + apply andb_false_iff. left. apply Z.leb_gt. nia.
      + apply andb_false_iff. left. apply Z.leb_gt. nia. }
  split; [exact E|].
  unfold values in E.
  rewrite <- (length_map snd), E, length_firstn, length_skipn. reflexivity.
Qed.

(* ================================================================== *)
(** ** The per-step schedules and the indicators *)

Lemma repeat_snoc {X} (x : X) (c : nat) : repeat x c ++ [x] = repeat x (S c).
Proof. induction c as [|c IH]; simpl; [|rewrite IH]; reflexivity. Qed.

Lemma append_columns_repeat (k c : nat) (a : vec) :
  append_columns k (map (fun x => repeat x c) a) (column a)
  = Ok (map (fun x => repeat x (c + k)) a).
Proof.
  revert c. induction k as [|k IH]; intros c.
  - simpl. rewrite Nat.add_0_r. reflexivity.
  - cbn [append_columns]. unfold concat_cols, column.
    rewrite !length_map, Nat.eqb_refl. cbn [obind].
    rewrite combine_map_same, map_map. cbn [fst snd].
    rewrite (map_ext (fun x : Q => repeat x c ++ [x])
                     (fun x : Q => repeat x (S c)))
      by (intros; apply repeat_snoc).
    rewrite IH. replace (S c + k)%nat with (c + S k)%nat by lia.
    reflexivity.
Qed.

Lemma nth_concat_repeat (n : nat) (a : vec) (k : nat) :
  (0 < n)%nat -> (k < n * length a)%nat ->
  nth k (concat (map (fun x => repeat x n) a)) 0 = nth (k / n) a 0.
Proof.
  intros Hn. revert k. induction a as [|x a IH]; intros k Hk.
  - simpl in Hk. lia.
  - cbn [map concat]. destruct (Nat.lt_ge_cases k n) as [Hlt|Hge].
    + rewrite app_nth1 by (rewrite repeat_length; exact Hlt).
      rewrite Nat.div_small by exact Hlt. simpl.
      apply nth_repeat_lt. exact Hlt.
    + rewrite app_nth2 by (rewrite repeat_length; exact Hge).
      rewrite repeat_length.
      cbn [length] in Hk.
      rewrite IH by nia.
      replace k with ((k - n) + 1 * n)%nat at 2 by lia.
      rewrite Nat.div_add by lia.
      rewrite Nat.add_1_r. reflexivity.
Qed.

Lemma length_concat_repeat (n : nat) (a : vec) :
  length (concat (map (fun x => repeat x n) a)) = (n * length a)%nat.
Proof.
  induction a as [|x a IH]; simpl; [lia|].
  rewrite length_app, repeat_length, IH. lia.
Qed.

(** X17.  The schedule written out per simulation step: for
    [nsteps_per_hour >= 1] the loop of concatenations returns a
    [len(a) x nsteps_per_hour] array whose flattening holds every hourly
    value [nsteps_per_hour] times in a row, so entry [k] is the value of
    hour [k / nsteps_per_hour]. *)
Theorem per_step_by_hour (nsteps_per_hour : nat) (a : vec) :
  (1 <= nsteps_per_hour)%nat ->
  exists m,
    per_step nsteps_per_hour a = Ok m /\
    length m = length a /\
    Forall (fun r => length r = nsteps_per_hour) m /\
    length (flatten m) = (nsteps_per_hour * length a)%nat /\
    forall k, (k < nsteps_per_hour * length a)%nat ->
              nth k (flatten m) 0 = nth (k / nsteps_per_hour) a 0.
Proof.
  intros Hn.
  exists (map (fun x => repeat x nsteps_per_hour) a).
  split; [|split; [|split; [|split]]].
  - unfold per_step.
    change (column a) with (map (fun x : Q => repeat x 1) a) at 1.
    rewrite append_columns_repeat.
    replace (1 + (nsteps_per_hour - 1))%nat with nsteps_per_hour by lia.
    reflexivity.
  - apply length_map.
  - apply Forall_map, Forall_forall. intros x _. apply repeat_length.
  - apply length_concat_repeat.
  - intros k Hk. unfold flatten. apply nth_concat_repeat; lia.
Qed.

Lemma maximum_zero_nonneg x : 0 <= maximum 0 x.
Proof.
  unfold maximum. destruct (Qle_bool 0 x) eqn:E.
  - apply Qle_bool_iff. exact E.
  - apply Qle_refl.
Qed.

Lemma maximum_zero_iff x : maximum 0 x == 0 <-> x <= 0.
Proof.
  unfold maximum. destruct (Qle_bool 0 x) eqn:E.
  - apply Qle_bool_iff in E. split; intros H; lra.
  - split; intros _; [|reflexivity].
    destruct (Qlt_le_dec x 0) as [H|H]; [lra|].
    apply Qle_bool_iff in H. congruence.
Qed.

Lemma Forall_combine_nth {X Y} (P : X * Y -> Prop) (l1 : list X)
    (l2 : list Y) (dx : X) (dy : Y) :
  length l1 = length l2 ->
  (Forall P (combine l1 l2) <->
   forall k, (k < length l2)%nat -> P (nth k l1 dx, nth k l2 dy)).
Proof.
  revert l2. induction l1 as [|x l1 IH]; intros [|y l2] Hlen;
    try discriminate.
  - simpl. split; [intros _ k Hk; lia | constructor].
  - simpl in Hlen. injection Hlen as Hlen. cbn [combine length]. split.
    + intros H k Hk. inversion H as [|? ? Hx Hr]; subst.
      destruct k as [|k]; [exact Hx|].
      cbn [nth]. apply (proj1 (IH l2 Hlen) Hr). lia.
    + intros H. constructor.
      * apply (H 0%nat). lia.
      * apply IH; [exact Hlen|]. intros k Hk. apply (H (S k)). lia.
Qed.

(** X18.  For logs as long as the per-step bounds and [dt > 0], the
    degree-hours indicator [dTh] is never negative, and it is zero
    exactly when every logged temperature lies within the bounds of its
    own step. *)
Theorem kpi_dTh_zero_iff (T_ub_dt T_lb_dt : matrix) (Tz_opt : vec) (dt : Z) :
  length (flatten T_lb_dt) = length Tz_opt ->
  length (flatten T_ub_dt) = length Tz_opt ->
  (0 < dt)%Z ->
  exists v,
    kpi_dTh T_ub_dt T_lb_dt Tz_opt dt = Ok v /\
    0 <= v /\
    (v == 0 <->
     forall k, (k < length Tz_opt)%nat ->
               nth k (flatten T_lb_dt) 0 <= nth k Tz_opt 0 /\
               nth k Tz_opt 0 <= nth k (flatten T_ub_dt) 0).
Proof.
  intros Hlb Hub Hdt.
  set (lbs := flatten T_lb_dt) in *. set (ubs := flatten T_ub_dt) in *.
  unfold kpi_dTh, kpi_dT_lb, kpi_dT_ub. fold lbs ubs.
  rewrite (zipb_same Qminus lbs Tz_opt Hlb).
  rewrite (zipb_same Qminus Tz_opt ubs (eq_sym Hub)).
  cbn [obind]. rewrite !map_map.
  set (l1 := map (fun p : Q * Q => maximum 0 (fst p - snd p))
                 (combine lbs Tz_opt)).
  set (l2 := map (fun p : Q * Q => maximum 0 (fst p - snd p))
                 (combine Tz_opt ubs)).
  assert (N1 : Forall (fun x => 0 <= x) l1)
    by (apply Forall_map, Forall_forall; intros; apply maximum_zero_nonneg).
  assert (N2 : Forall (fun x => 0 <= x) l2)
    by (apply Forall_map, Forall_forall; intros; apply maximum_zero_nonneg).
  pose proof (vsum_nonneg N1) as S1. pose proof (vsum_nonneg N2) as S2.
  assert (Hd : 0 < inject_Z dt / 3600).
  { apply Qlt_shift_div_l; [reflexivity|].
    rewrite Qmult_0_l. change 0 with (inject_Z 0).
    rewrite <- Zlt_Qlt. exact Hdt. }
  set (c := inject_Z dt / 3600) in *.
  eexists. split; [reflexivity|].
  assert (E : (vsum l1 + vsum l2) * inject_Z dt / 3600
              == (vsum l1 + vsum l2) * c)
    by (unfold c; field).
  split.
  - rewrite E. apply Qmult_le_0_compat; lra.
  - rewrite E.
    assert (Z1 : vsum l1 == 0 <->
                 forall k, (k < length Tz_opt)%nat ->
                           nth k lbs 0 <= nth k Tz_opt 0).
    { rewrite (vsum_zero_iff N1). unfold l1. rewrite Forall_map.
      rewrite (Forall_combine_nth _ lbs Tz_opt 0 0 Hlb).
      split; intros H k Hk; specialize (H k Hk); cbn [fst snd] in *.
      - apply maximum_zero_iff in H. lra.
      - apply maximum_zero_iff. lra. }
    assert (Z2 : vsum l2 == 0 <->
                 forall k, (k < length Tz_opt)%nat ->
                           nth k Tz_opt 0 <= nth k ubs 0).
    { rewrite (vsum_zero_iff N2). unfold l2. rewrite Forall_map.
      rewrite (Forall_combine_nth _ Tz_opt ubs 0 0 (eq_sym Hub)).
      rewrite Hub.
      split; intros H k Hk; specialize (H k Hk); cbn [fst snd] in *.
      - apply maximum_zero_iff in H. lra.
      - apply maximum_zero_iff. lra. }
    split.
    + intros H0.
      assert (Hs : vsum l1 + vsum l2 == 0).
      { destruct (Qeq_dec (vsum l1 + vsum l2) 0) as [|Hne]; [assumption|].
        exfalso. assert (0 < vsum l1 + vsum l2) by lra.
        assert (0 < (vsum l1 + vsum l2) * c)
          by (apply Qmult_lt_0_compat; assumption).
        lra. }
      assert (vsum l1 == 0) by lra. assert (vsum l2 == 0) by lra.
      intros k Hk. split; [apply Z1 | apply Z2]; assumption.
    + intros H.
      assert (vsum l1 == 0) by (apply Z1; intros k Hk; apply H; exact Hk).
      assert (vsum l2 == 0) by (apply Z2; intros k Hk; apply H; exact Hk).
      assert (Hs : vsum l1 + vsum l2 == 0) by lra.
      rewrite Hs. ring.
Qed.

Lemma weighted_sum_bounds (pmin pmax c : Q) (ps us : vec) :
  0 <= c -> length ps = length us ->
  Forall (fun p => pmin <= p /\ p <= pmax) ps ->
  pmin * vsum (map (fun x => x * c) (map Qabs us))
    <= vsum (map (fun x => x * c)
                 (map (fun p : Q * Q => fst p * snd p)
                      (combine ps (map Qabs us)))) /\
  vsum (map (fun x => x * c)
            (map (fun p : Q * Q => fst p * snd p)
                 (combine ps (map Qabs us))))
    <= pmax * vsum (map (fun x => x * c) (map Qabs us)).
Proof.
  intros Hc. revert us. induction ps as [|p ps IH]; intros [|u us] Hlen Hp;
    try discriminate.
  - simpl. split; lra.
  - simpl in Hlen. injection Hlen as Hlen.
    inversion Hp as [|? ? [Hlo Hhi] Hr]; subst.
    destruct (IH us Hlen Hr) as [IH1 IH2].
    cbn [map combine vsum fold_right fst snd].
    fold (vsum (map (fun x => x * c) (map Qabs us))).
    fold (vsum (map (fun x => x * c)
                 (map (fun p : Q * Q => fst p * snd p)
                      (combine ps (map Qabs us))))).
    set (S0 := vsum (map (fun x => x * c) (map Qabs us))) in *.
    set (S1 := vsum _) in *.
    assert (Hw : 0 <= Qabs u * c)
      by (apply Qmult_le_0_compat; [apply Qabs_nonneg | exact Hc]).
    set (w := Qabs u * c) in *.
    assert (E : p * Qabs u * c == p * w) by (unfold w; ring).
    assert (L1 : pmin * w <= p * w) by (apply Qmult_le_compat_r; assumption).
    assert (L2 : p * w <= pmax * w) by (apply Qmult_le_compat_r; assumption).
    rewrite E. split.
    + setoid_replace (pmin * (w + S0)) with (pmin * w + pmin * S0) by ring.
      lra.
    + setoid_replace (pmax * (w + S0)) with (pmax * w + pmax * S0) by ring.
      lra.
Qed.

(** X19.  With one price per logged control and [dt >= 0], the energy
    cost lies between the lowest and the highest price times the energy;
    with logs of another length than the per-step prices (and neither of
    length 1) the indicator cannot be computed: [TypeError]. *)
Theorem kpi_energy_cost_bounds (price_dt : matrix) (u_opt : vec) (dt : Z)
    (pmin pmax : Q) :
  (length (flatten price_dt) = length u_opt ->
   (0 <= dt)%Z ->
   Forall (fun p => pmin <= p /\ p <= pmax) (flatten price_dt) ->
   exists v,
     kpi_energy_cost price_dt u_opt dt = Ok v /\
     pmin * kpi_energy u_opt dt <= v /\
     v <= pmax * kpi_energy u_opt dt) /\
  (length (flatten price_dt) <> length u_opt ->
   (1 < length (flatten price_dt))%nat -> (1 < length u_opt)%nat ->
   kpi_energy_cost price_dt u_opt dt = Raise TypeError).
Proof.
  split.
  - intros Hlen Hdt Hp.
    unfold kpi_energy_cost, kpi_energy.
    rewrite zipb_same by (rewrite length_map; exact Hlen).
    cbn [obind]. eexists. split; [reflexivity|].
    assert (Hc : 0 <= inject_Z dt / 3600).
    { apply Qle_shift_div_l; [reflexivity|].
      rewrite Qmult_0_l. change 0 with (inject_Z 0).
      rewrite <- Zle_Qle. exact Hdt. }
    assert (Hlen' : length (flatten price_dt) = length u_opt) by exact Hlen.
    pose proof (@weighted_sum_bounds pmin pmax (inject_Z dt / 3600)
                  (flatten price_dt) u_opt Hc Hlen' Hp) as [B1 B2].
    assert (E : forall l : vec,
               vsum (map (fun x => x * inject_Z dt / 3600) l)
               == vsum (map (fun x => x * (inject_Z dt / 3600)) l)).
    { intros l. apply vsum_map_ext. intros x. field. }
    rewrite !E. split; assumption.
  - intros Hne H1 H2. unfold kpi_energy_cost, zipb.
    rewrite length_map.
    destruct (Nat.eqb_spec (length (flatten price_dt)) (length u_opt))
      as [Heq|_]; [contradiction|].
    destruct (flatten price_dt) as [|a [|b ps]]; cbn [length] in H1;
      try lia.
    destruct u_opt as [|c [|e us]]; cbn [length] in H2; try lia.
    reflexivity.
Qed.

(* ================================================================== *)
(** ** The block state-space modules *)

Lemma RCModel_fxx_rows (p : ZoneParams) (x : vec) :
  length x = 3%nat ->
  Forall (fun r => length r = length x) (RCModel.fxx_A p).
Proof. intros ->. repeat constructor. Qed.

Lemma RCModel_fxu_rows (p : ZoneParams) (u : vec) :
  length u = 5%nat ->
  Forall (fun r => length r = length u) (RCModel.fxu_B p).
Proof. intros ->. repeat constructor. Qed.

Section BlockCalls.

Import String.

(** X20.  [BaseBlockSSM.__call__] raises [NotImplementedError] for an
    equation that has neither both split parts nor a joint module: for the
    dynamic equation first (always so on the base class, whose [setup]
    leaves every sub-module [None]), for the observation equation once
    the dynamic one returned; and when both split parts are there, a
    joint module is never called. *)
Theorem call_not_implemented (self : SSM.BaseBlockSSM) (x u : vec) :
  (forall sd id od,
      SSM.call (SSM.setup sd id od) x u
      = SSM.NotImplementedError "dynamic equation is not implemented"%string) /\
  ((SSM._fxx self = None \/ SSM._fxu self = None) ->
   SSM._fx self = None ->
   SSM.call self x u
   = SSM.NotImplementedError "dynamic equation is not implemented"%string) /\
  (forall rhs,
      SSM.equation (SSM._fxx self) (SSM._fxu self) (SSM._fx self)
                   "dynamic equation is not implemented"%string x u
      = SSM.Returns rhs ->
      (SSM._fyx self = None \/ SSM._fyu self = None) ->
      SSM._fy self = None ->
      SSM.call self x u
      = SSM.NotImplementedError "observation equation is not implemented"%string) /\
  (forall a b c e g h,
      SSM._fxx self = Some a -> SSM._fxu self = Some b ->
      SSM._fyx self = Some c -> SSM._fyu self = Some e ->
      SSM.call self x u
      = SSM.call (SSM.mkSSM (SSM.state_dim self) (SSM.input_dim self)
                            (SSM.output_dim self)
                            (Some a) (Some b) (Some c) (Some e) g h) x u).
Proof.
  split; [|split; [|split]].
  - intros sd id od. reflexivity.
  - intros Hd Hj. unfold SSM.call, SSM.equation. rewrite Hj.
    destruct Hd as [-> | ->]; [reflexivity|].
    destruct (SSM._fxx self); reflexivity.
  - intros rhs Hr Ho Hj. unfold SSM.call. rewrite Hr. cbn [SSM.abind].
    unfold SSM.equation. rewrite Hj.
    destruct Ho as [-> | ->]; [reflexivity|].
    destruct (SSM._fyx self); reflexivity.
  - intros a b c e g h Ha Hb Hc He. unfold SSM.call, SSM.equation.
    cbn [SSM._fxx SSM._fxu SSM._fyx SSM._fyu SSM._fx SSM._fy].
    rewrite Ha, Hb, Hc, He. reflexivity.
Qed.

End BlockCalls.

(** X21.  Called on a state of 3 entries and an input of 5, an [RCModel]
    returns; its first result is [A x + B u] for the matrices of
    [get_ABCD], the right-hand side [f] of the controller's model, and
    its second is the one-entry array of the zone temperature [x[0]].
    On a state of another length the call raises [TypeError]. *)
Theorem RCModel_call (sd id od : nat) (p : ZoneParams) (x u : vec) (t : Z) :
  (length x = 3%nat -> length u = 5%nat ->
   exists rhs y0,
     SSM.call (SSM.RCModel_setup sd id od p) x u = SSM.Returns (rhs, [y0]) /\
     f t x (fst (fst (fst (get_ABCD p))), snd (fst (fst (get_ABCD p))), u)
     = Ok rhs /\
     length rhs = 3%nat /\
     y0 == nth 0 x 0) /\
  (length x <> 3%nat ->
   SSM.call (SSM.RCModel_setup sd id od p) x u = SSM.Fails TypeError).
Proof.
  split.
  - intros Hx Hu.
    destruct x as [|x0 [|x1 [|x2 [|? ?]]]]; try discriminate.
    destruct u as [|u0 [|u1 [|u2 [|u3 [|u4 [|? ?]]]]]]; try discriminate.
    eexists. eexists. split; [|split; [|split]].
    + unfold SSM.call, SSM.RCModel_setup, SSM.equation.
      cbn [SSM._fxx SSM._fxu SSM._fyx SSM._fyu SSM._fx SSM._fy].
      rewrite (@matvec_ok (RCModel.fxx_A p) [x0; x1; x2])
        by (apply RCModel_fxx_rows; reflexivity).
      rewrite (@matvec_ok (RCModel.fxu_B p) [u0; u1; u2; u3; u4])
        by (apply RCModel_fxu_rows; reflexivity).
      cbn [obind].
      rewrite zipb_same by (rewrite !length_map; reflexivity).
      cbn [SSM.of_outcome SSM.abind].
      rewrite (@matvec_ok RCModel.fyx_C [x0; x1; x2])
        by (repeat constructor).
      rewrite (@matvec_ok (zeros 1 5) [u0; u1; u2; u3; u4])
        by (repeat constructor).
      cbn [obind].
      rewrite zipb_same by reflexivity.
      cbn [SSM.of_outcome SSM.abind].
      cbn [RCModel.fyx_C zeros repeat mat_set at_set map combine fst snd].
      reflexivity.
    + unfold f, zone_state_space.
      change (fst (fst (fst (get_ABCD p)))) with (RCModel.fxx_A p).
      change (snd (fst (fst (get_ABCD p)))) with (RCModel.fxu_B p).
      rewrite (@matvec_ok (RCModel.fxx_A p) [x0; x1; x2])
        by (apply RCModel_fxx_rows; reflexivity).
      rewrite (@matvec_ok (RCModel.fxu_B p) [u0; u1; u2; u3; u4])
        by (apply RCModel_fxu_rows; reflexivity).
      cbn [obind].
      rewrite zipb_same by (rewrite !length_map; reflexivity).
      reflexivity.
    + rewrite length_map, length_combine, !length_map. reflexivity.
    + unfold dot. cbn. ring.
  - intros Hx. unfold SSM.call, SSM.RCModel_setup, SSM.equation.
    cbn [SSM._fxx SSM._fxu SSM._fyx SSM._fyu SSM._fx SSM._fy].
    unfold matvec at 1.
    replace (forallb _ (RCModel.fxx_A p)) with false; [reflexivity|].
    symmetry. cbn [RCModel.fxx_A zeros repeat mat_set at_set forallb length].
    destruct (Nat.eqb_spec 3 (length x)) as [E|_]; [|reflexivity].
    exfalso. apply Hx. symmetry. exact E.
Qed.

(* ================================================================== *)
(** ** The zone at rest, and the column of the forecast never read *)

(** X22.  For a zone with no zero capacitance or resistance, a uniform
    temperature [T] with ambient air at [T] and no gains is an
    equilibrium of the model of [get_ABCD]: the right-hand side is zero,
    and an Euler step of any length returns the same temperatures. *)
Theorem zone_equilibrium (p : ZoneParams) (T : Q) (t t1 : Z) :
  ~ Cai p == 0 -> ~ Cwe p == 0 -> ~ Cwi p == 0 -> ~ Re p == 0 ->
  ~ Ri p == 0 -> ~ Rw p == 0 -> ~ Rg p == 0 ->
  let A := fst (fst (fst (get_ABCD p))) in
  let B := snd (fst (fst (get_ABCD p))) in
  exists rhs x',
    f t [T; T; T] (A, B, [T; 0; 0; 0; 0]) = Ok rhs /\
    Forall2 Qeq rhs [0; 0; 0] /\
    solver_step Euler f t t1 [T; T; T] (A, B, [T; 0; 0; 0; 0]) tt
    = Ok (x', tt) /\
    Forall2 Qeq x' [T; T; T].
Proof.
  intros H1 H2 H3 H4 H5 H6 H7 A B.
  eexists. eexists. split; [|split; [|split]].
  - reflexivity.
  - cbn. repeat constructor; field; auto.
  - reflexivity.
  - cbn. repeat constructor; field; auto.
Qed.

Lemma same_but_cooling_left (d d' : matrix) :
  same_but_cooling d d' -> map (firstn 2) d = map (firstn 2) d'.
Proof.
  induction 1 as [|r r' d d' (H1 & _ & _) _ IH]; [reflexivity|].
  cbn [map]. rewrite H1, IH. reflexivity.
Qed.

Lemma same_but_cooling_right (d d' : matrix) :
  same_but_cooling d d' -> map (skipn 3) d = map (skipn 3) d'.
Proof.
  induction 1 as [|r r' d d' (_ & H2 & _) _ IH]; [reflexivity|].
  cbn [map]. rewrite H2, IH. reflexivity.
Qed.

Lemma at_set_cooling (x : Q) (r r' : vec) :
  firstn 2 r = firstn 2 r' -> skipn 3 r = skipn 3 r' ->
  length r = length r' ->
  at_set 2 x r = at_set 2 x r'.
Proof.
  intros H1 H2 H3.
  destruct r as [|a [|b [|c r]]]; destruct r' as [|a' [|b' [|c' r']]];
    try discriminate; cbn in *; try congruence.
Qed.

Section CoolingColumn.

Variable grad : (matrix -> outcome Q) -> matrix -> matrix.
Variable adamw : Q -> Optimizer.

Lemma loop_body_cooling (hz hz' : horizon)
    (v : loop_vars (opt_state_t (optimizer adamw))) :
  hz_state hz = hz_state hz' -> hz_ts hz = hz_ts hz' ->
  hz_te hz = hz_te hz' ->
  hz_T_ub_ph hz = hz_T_ub_ph hz' -> hz_T_lb_ph hz = hz_T_lb_ph hz' ->
  hz_price_ph hz = hz_price_ph hz' ->
  same_but_cooling (hz_disturbance hz) (hz_disturbance hz') ->
  loop_body grad adamw hz v = loop_body grad adamw hz' v.
Proof.
  intros E1 E2 E3 E4 E5 E6 Hd.
  unfold loop_body, loss_mpc.
  rewrite (same_but_cooling_left Hd), (same_but_cooling_right Hd).
  rewrite E1, E2, E3, E4, E5, E6. reflexivity.
Qed.

Lemma while_loop_cooling (hz hz' : horizon) :
  (forall v, loop_body grad adamw hz v = loop_body grad adamw hz' v) ->
  forall fuel (v : loop_vars (opt_state_t (optimizer adamw))) self,
    while_loop grad adamw fuel hz v self
    = while_loop grad adamw fuel hz' v self.
Proof.
  intros Hb. induction fuel as [|fuel IH]; intros v self; cbn [while_loop].
  - reflexivity.
  - destruct ((epoch v <? n_epochs)%nat && Qgtb (loss v) tolerance);
      [|reflexivity].
    unfold bind. rewrite (Hb v).
    destruct (loop_body grad adamw hz' v self) as [[v1 s1]| |];
      [apply IH | reflexivity | reflexivity].
Qed.

Lemma step_horizon_cooling (d d' : matrix) self :
  step_horizon d' self
  = match step_horizon d self with
    | Ok (hz, s) =>
        Ok (mkHorizon (hz_state hz) (hz_ts hz) (hz_te hz) d' (hz_T_ub_ph hz)
                      (hz_T_lb_ph hz) (hz_price_ph hz), s)
    | Raise e => Raise e
    | Diverge => Diverge
    end.
Proof.
  unfold step_horizon, bind, getattr_opt, getattr, lift, ret.
  destruct (attr.time self) as [ts|]; [|reflexivity].
  destruct (attr.state self) as [st|]; [|reflexivity].
  destruct (gather (attr.price self) _) as [pr| |]; try reflexivity.
  destruct (gather (attr.T_ub self) _) as [ub| |]; try reflexivity.
  destruct (gather (attr.T_lb self) _) as [lb| |]; reflexivity.
Qed.

Lemma step_loop_cooling (d d' : matrix) self :
  same_but_cooling d d' ->
  step_loop grad adamw d self = step_loop grad adamw d' self.
Proof.
  intros Hd. unfold step_loop, bind.
  rewrite (step_horizon_cooling d d' self).
  destruct (step_horizon d self) as [[hz s]| |] eqn:Hz; try reflexivity.
  unfold getattr.
  apply while_loop_cooling. intros v.
  apply loop_body_cooling; try reflexivity.
  cbn [hz_disturbance].
  rewrite (@step_horizon_disturbance d self hz s Hz). exact Hd.
Qed.

Lemma step_cooling (d d' : matrix) self :
  same_but_cooling d d' ->
  step grad adamw d self = step grad adamw d' self.
Proof.
  intros Hd. unfold step, bind.
  rewrite (step_loop_cooling self Hd). reflexivity.
Qed.

End CoolingColumn.

(** X23.  The cooling-power column of the forecast is never read: [step]
    puts the control sequence in its place before simulating, and the
    closed loop the applied control, so two forecasts that differ at
    most in column 2 give the same result, failures included. *)
Theorem forecast_cooling_column_is_ignored grad adamw (d d' : matrix) :
  same_but_cooling d d' ->
  (forall self, step grad adamw d self = step grad adamw d' self) /\
  (forall A B dt t pl self,
      driver_pass grad adamw A B dt t d pl self
      = driver_pass grad adamw A B dt t d' pl self).
Proof.
  intros Hd. split.
  - intros self. apply step_cooling. exact Hd.
  - intros A B dt t pl self.
    unfold driver_pass, bind.
    destruct (set_time t self) as [[[] s0]| |]; try reflexivity.
    destruct (set_state (pl_state pl) s0) as [[[] s1]| |]; try reflexivity.
    rewrite <- (step_cooling grad adamw s1 Hd).
    destruct (step grad adamw d s1) as [[u s2]| |]; try reflexivity.
    destruct (set_u_start_from_last_step u s2) as [[[] s3]| |];
      try reflexivity.
    destruct (lift (getitem u 0) s3) as [[row0 s4]| |]; try reflexivity.
    destruct (lift (getitem row0 0) s4) as [[u_ch s5]| |]; try reflexivity.
    unfold lift.
    inversion Hd as [|r r' rest rest' (H1 & H2 & H3) Hrest]; subst;
      cbn [getitem]; [reflexivity|].
    cbn [Nat.min nth].
    rewrite (@at_set_cooling u_ch r r' H1 H2 H3). reflexivity.
Qed.

(* ================================================================== *)
(** ** The further statements on concrete runs *)

Lemma step_horizon_columns_witness :
  exists hz,
    step_horizon dist_calm mpc_8am = Ok (hz, mpc_8am) /\
    hz_state hz = [25; 25; 25] /\ hz_ts hz = 28800%Z /\
    hz_disturbance hz = dist_calm /\
    hz_te hz = (28800 + Z.of_nat (attr.PH mpc_8am) * attr.dt mpc_8am)%Z /\
    length (hz_price_ph hz) = attr.PH mpc_8am /\
    length (hz_T_ub_ph hz) = attr.PH mpc_8am /\
    length (hz_T_lb_ph hz) = attr.PH mpc_8am /\
    forall i, (i < attr.PH mpc_8am)%nat ->
      nth_error (hz_price_ph hz) i
        = Some [nth (hour_index 28800 i (attr.dt mpc_8am))
                    (attr.price mpc_8am) 0] /\
      nth_error (hz_T_ub_ph hz) i
        = Some [nth (hour_index 28800 i (attr.dt mpc_8am))
                    (attr.T_ub mpc_8am) 0] /\
      nth_error (hz_T_lb_ph hz) i
        = Some [nth (hour_index 28800 i (attr.dt mpc_8am))
                    (attr.T_lb mpc_8am) 0].
Proof.
  apply (@step_horizon_columns dist_calm mpc_8am 28800%Z [25; 25; 25]).
  - reflexivity.
  - reflexivity.
  - simpl. lia.
  - reflexivity.
  - reflexivity.
  - reflexivity.
Defined.

(** At 9 am the bounds of a fresh controller are 26 and 22. *)
Lemma init_schedules_witness :
  nth 9 (attr.T_ub mpc_new) 0 = 26 /\ nth 9 (attr.T_lb mpc_new) 0 = 22 /\
  nth 9 (attr.T_lb mpc_new) 0 < nth 9 (attr.T_ub mpc_new) 0.
Proof.
  exact (proj1 (proj2 (proj2 (init_schedules 2 1 1 unit_zone price_main)))
               9%nat ltac:(lia)).
Defined.

(** A fresh controller cannot step. *)
Lemma step_before_setters_witness :
  step grad0 drift dist_calm mpc_new = Raise AttributeError.
Proof.
  apply (@step_before_setters grad0 drift dist_calm mpc_new).
  left. reflexivity.
Defined.

(** One row of forecast for a horizon of two. *)
Lemma forecast_of_other_length_is_rejected_witness :
  step grad0 drift dist_short mpc_8am = Raise TypeError /\
  driver_pass grad0 drift A_unit B_unit 1 28800 dist_short plant_8am mpc_new
  = Raise TypeError.
Proof.
  assert (Hlen : length dist_short <> length (attr.u_start mpc_8am))
    by (simpl; lia).
  assert (Hlen' : length dist_short <> length (attr.u_start mpc_new))
    by (simpl; lia).
  split.
  - exact (proj1 (@forecast_of_other_length_is_rejected grad0 drift
                    dist_short mpc_8am Hlen)
                 (hz_8am dist_short) (step_horizon_8am dist_short)).
  - apply (proj2 (@forecast_of_other_length_is_rejected grad0 drift
                    dist_short mpc_new Hlen')).
    + simpl. lia.
    + reflexivity.
    + reflexivity.
    + reflexivity.
Defined.



Lemma T_violations_zero_iff_witness :
  exists v,
    T_violations_of traj_sunny (column [26; 26]) (column [22; 22]) = Ok v /\
    (v == 0 <->
     forall t, In t [25; 27; 25] ->
       (forall ub, In ub [26; 26] -> t <= ub) /\
       (forall lb, In lb [22; 22] -> lb <= t)).
Proof.
  apply (@T_violations_zero_iff traj_sunny [25; 27; 25] [26; 26] [22; 22]).
  reflexivity.
Defined.

Lemma get_u_violations_zero_iff_witness :
  exists v,
    get_u_violations (column [-(1); -(1)]) mpc_8am = Ok (v, mpc_8am) /\
    v == vsum (map (fun u => relu (u - 0) + relu (-(10) - u))
                   [-(1); -(1)]) /\
    (v == 0 <-> forall u, In u [-(1); -(1)] -> -(10) <= u <= 0).
Proof.
  apply (@get_u_violations_zero_iff [-(1); -(1)] 0 (-(10)) mpc_8am).
  - reflexivity.
  - reflexivity.
Defined.

Lemma forward_calm :
  forward f 28800 28802 1 [25; 25; 25] Euler (A_unit, B_unit, dist_calm)
  = Ok ([28800; 28802; 28802]%Z,
        [[25; 25; 25]; [25; 25; 25]; [25; 25; 25]]).
Proof. vm_compute. reflexivity. Defined.

Lemma two_passes_to_8am : forall j, (j < 2)%nat ->
  (28800 + Z.of_nat j * 1 < 28802)%Z.
Proof. intros j Hj. lia. Defined.

(** The stamps of the two-pass run: 28800, then 28802 twice. *)
Lemma forward_time_stamps_witness :
  [28800; 28802; 28802]%Z
  = 28800%Z :: map (fun j => Z.min (28800 + Z.of_nat (j + 2) * 1) 28802)
                   (seq 0 2) /\
  length [[25; 25; 25]; [25; 25; 25]; [25; 25; 25]] = 3%nat /\
  nth_error [[25; 25; 25]; [25; 25; 25]; [25; 25; 25]] 0
  = Some [25; 25; 25].
Proof.
  exact (@forward_time_stamps f Euler A_unit B_unit dist_calm
           28800%Z 28802%Z 1%Z 2%nat ltac:(lia) ltac:(lia)
           two_passes_to_8am [25; 25; 25] _ _ forward_calm).
Defined.

(** The second pass of the two-pass run. *)
Lemma forward_rows_are_euler_steps_witness :
  exists xj xj1 dj,
    nth_error [[25; 25; 25]; [25; 25; 25]; [25; 25; 25]] 1 = Some xj /\
    nth_error [[25; 25; 25]; [25; 25; 25]; [25; 25; 25]] 2 = Some xj1 /\
    getitem dist_calm 1 = Ok dj /\
    solver_step Euler f (28800 + Z.of_nat 1 * 1)
                (pass_end 28800 28802 1 1) xj (A_unit, B_unit, dj) tt
    = Ok (xj1, tt).
Proof.
  exact (@forward_rows_are_euler_steps A_unit B_unit dist_calm
           28800%Z 28802%Z 1%Z 2%nat ltac:(lia) ltac:(lia)
           two_passes_to_8am [25; 25; 25] _ _ forward_calm 1%nat
           ltac:(lia)).
Defined.

Lemma forward_origin :
  forward f 0 2 1 [0; 0; 0] Euler (A_unit, B_unit, dist_zero)
  = Ok ([0; 2; 2]%Z, [[0; 0; 0]; [0; 0; 0]; [0; 0; 0]]).
Proof. vm_compute. reflexivity. Defined.

Lemma forward_stays_at_origin_witness :
  Forall all_zero [[0; 0; 0]; [0; 0; 0]; [0; 0; 0]].
Proof.
  apply (@forward_stays_at_origin A_unit B_unit dist_zero 0%Z 2%Z 1%Z
           [0; 0; 0] [0; 2; 2]%Z).
  - repeat constructor.
  - repeat constructor.
  - exact forward_origin.
Defined.

Lemma forward_without_passes_witness :
  forward f 28800 28802 1 [25; 25; 25] Euler (A_unit, B_unit, [])
  = Raise IndexError /\
  forward f 28800 28800 1 [25; 25; 25] Euler (A_unit, B_unit, dist_calm)
  = Ok ([28800%Z], [[25; 25; 25]]).
Proof.
  split.
  - exact (proj1 (@forward_without_passes f Euler A_unit B_unit dist_calm
                    28800%Z 28802%Z 1%Z [25; 25; 25])).
  - apply (proj2 (@forward_without_passes f Euler A_unit B_unit dist_calm
                    28800%Z 28800%Z 1%Z [25; 25; 25])).
    + lia.
    + discriminate.
Defined.

(** A step of zero seconds: the loop of [forward] does not return. *)
Lemma forward_with_nonpositive_step_witness :
  forward f 28800 28802 0 [25; 25; 25] Euler (A_unit, B_unit, dist_calm)
  = Diverge /\
  forall r,
    forward f 28800 28802 0 [25; 25; 25] Euler (A_unit, B_unit, dist_calm)
    <> Ok r.
Proof.
  split.
  - vm_compute. reflexivity.
  - apply (@forward_with_nonpositive_step f Euler A_unit B_unit dist_calm
             28800%Z 28802%Z 0%Z [25; 25; 25]).
    + lia.
    + lia.
Defined.

Lemma driver_loop_calm :
  driver_loop grad0 drift A_unit B_unit 1 two_passes plant_8am mpc_new
  = Ok (plant_after2, mpc_8am_1s).
Proof. vm_compute. reflexivity. Defined.

Lemma driver_loop_keeps_settings_witness :
  same_settings mpc_new mpc_8am_1s /\
  length (pl_u_opt plant_after2)
  = (length (pl_u_opt plant_8am) + length two_passes)%nat /\
  length (pl_Tz_opt plant_after2)
  = (length (pl_Tz_opt plant_8am) + length two_passes)%nat /\
  length (pl_To_opt plant_after2)
  = (length (pl_To_opt plant_8am) + length two_passes)%nat /\
  (two_passes <> [] ->
   attr.time mpc_8am_1s = Some (fst (last two_passes (0%Z, [])))).
Proof.
  exact (@driver_loop_keeps_settings grad0 drift A_unit B_unit 1%Z
           two_passes plant_8am mpc_new plant_after2 mpc_8am_1s
           driver_loop_calm).
Defined.

Lemma driver_loop_keeps_horizon_length_witness :
  length (attr.u_start mpc_8am_1s) = 2%nat.
Proof.
  apply (@driver_loop_keeps_horizon_length grad0 drift A_unit B_unit 1%Z
           2%nat two_passes plant_8am mpc_new plant_after2 mpc_8am_1s).
  - lia.
  - repeat constructor.
  - reflexivity.
  - reflexivity.
  - reflexivity.
  - exact driver_loop_calm.
Defined.

(** Two rows asked for from the second row of three, and from the third:
    one row is left. *)
Lemma get_disturbance_ph_rows_witness :
  (values (get_disturbance_ph (set_index 0 900 dist_calm_longer)
                              (0 + Z.of_nat 1 * 900) 2 900)
   = firstn 2 (skipn 1 dist_calm_longer) /\
   length (get_disturbance_ph (set_index 0 900 dist_calm_longer)
                              (0 + Z.of_nat 1 * 900) 2 900)
   = Nat.min 2 (length dist_calm_longer - 1)) /\
  length (get_disturbance_ph (set_index 0 900 dist_calm_longer)
                             (0 + Z.of_nat 2 * 900) 2 900)
  = Nat.min 2 (length dist_calm_longer - 2).
Proof.
  split.
  - apply (@get_disturbance_ph_rows 0%Z 900%Z dist_calm_longer 1 2). lia.
  - apply (@get_disturbance_ph_rows 0%Z 900%Z dist_calm_longer 2 2). lia.
Defined.

Lemma per_step_by_hour_witness :
  exists m,
    per_step 4 price_main = Ok m /\
    length m = length price_main /\
    Forall (fun r => length r = 4%nat) m /\
    length (flatten m) = (4 * length price_main)%nat /\
    forall k, (k < 4 * length price_main)%nat ->
              nth k (flatten m) 0 = nth (k / 4) price_main 0.
Proof.
  apply (@per_step_by_hour 4 price_main). lia.
Defined.

Lemma kpi_dTh_zero_iff_witness :
  exists v,
    kpi_dTh [[26; 26]] [[22; 22]] [25; 27] 900 = Ok v /\
    0 <= v /\
    (v == 0 <->
     forall k, (k < length [25; 27])%nat ->
               nth k (flatten [[22; 22]]) 0 <= nth k [25; 27] 0 /\
               nth k [25; 27] 0 <= nth k (flatten [[26; 26]]) 0).
Proof.
  apply (@kpi_dTh_zero_iff [[26; 26]] [[22; 22]] [25; 27] 900%Z).
  - reflexivity.
  - reflexivity.
  - lia.
Defined.

Lemma kpi_energy_cost_bounds_witness :
  (exists v,
     kpi_energy_cost [[1; 2]] [-(1); 3] 900 = Ok v /\
     1 * kpi_energy [-(1); 3] 900 <= v /\
     v <= 2 * kpi_energy [-(1); 3] 900) /\
  kpi_energy_cost [[1; 2]] [-(1); 3; 0] 900 = Raise TypeError.
Proof.
  split.
  - apply (proj1 (@kpi_energy_cost_bounds [[1; 2]] [-(1); 3] 900%Z 1 2)).
    + reflexivity.
    + lia.
    + repeat constructor; discriminate.
  - apply (proj2 (@kpi_energy_cost_bounds [[1; 2]] [-(1); 3; 0] 900%Z 1 2)).
    + simpl. lia.
    + simpl. lia.
    + simpl. lia.
Defined.

Section BlockCallsRun.

Import String.

Lemma call_not_implemented_witness :
  SSM.call (SSM.setup 3 5 1) [25; 25; 25] [25; 0; 0; 0; 0]
  = SSM.NotImplementedError "dynamic equation is not implemented" /\
  SSM.call joint_only [25; 25; 25] [25; 0; 0; 0; 0]
  = SSM.NotImplementedError "observation equation is not implemented".
Proof.
  split.
  - apply (proj1 (proj2 (@call_not_implemented (SSM.setup 3 5 1)
                           [25; 25; 25] [25; 0; 0; 0; 0]))).
    + left. reflexivity.
    + reflexivity.
  - apply (proj1 (proj2 (proj2 (@call_not_implemented joint_only
                                   [25; 25; 25] [25; 0; 0; 0; 0])))
                 [25; 25; 25]).
    + reflexivity.
    + left. reflexivity.
    + reflexivity.
Defined.

End BlockCallsRun.

Lemma RCModel_call_witness :
  (exists rhs y0,
     SSM.call (SSM.RCModel_setup 3 5 1 unit_zone) [25; 25; 25]
              [25; 0; 0; 0; 0] = SSM.Returns (rhs, [y0]) /\
     f 0 [25; 25; 25] (fst (fst (fst (get_ABCD unit_zone))),
                       snd (fst (fst (get_ABCD unit_zone))),
                       [25; 0; 0; 0; 0]) = Ok rhs /\
     length rhs = 3%nat /\
     y0 == nth 0 [25; 25; 25] 0) /\
  SSM.call (SSM.RCModel_setup 3 5 1 unit_zone) [25; 25] [25; 0; 0; 0; 0]
  = SSM.Fails TypeError.
Proof.
  split.
  - apply (proj1 (@RCModel_call 3 5 1 unit_zone [25; 25; 25]
                    [25; 0; 0; 0; 0] 0%Z)).
    + reflexivity.
    + reflexivity.
  - apply (proj2 (@RCModel_call 3 5 1 unit_zone [25; 25]
                    [25; 0; 0; 0; 0] 0%Z)).
    simpl. lia.
Defined.

Lemma zone_equilibrium_witness :
  exists rhs x',
    f 28800 [25; 25; 25] (A_unit, B_unit, [25; 0; 0; 0; 0]) = Ok rhs /\
    Forall2 Qeq rhs [0; 0; 0] /\
    solver_step Euler f 28800 28801 [25; 25; 25]
                (A_unit, B_unit, [25; 0; 0; 0; 0]) tt = Ok (x', tt) /\
    Forall2 Qeq x' [25; 25; 25].
Proof.
  apply (@zone_equilibrium unit_zone 25 28800%Z 28801%Z); discriminate.
Defined.

Lemma dist_calm_cooled_same : same_but_cooling dist_calm dist_calm_cooled.
Proof. repeat constructor. Defined.

Lemma forecast_cooling_column_is_ignored_witness :
  step grad0 drift dist_calm mpc_8am
  = step grad0 drift dist_calm_cooled mpc_8am /\
  driver_pass grad0 drift A_unit B_unit 1 28800 dist_calm plant_8am mpc_new
  = driver_pass grad0 drift A_unit B_unit 1 28800 dist_calm_cooled
                plant_8am mpc_new.
Proof.
  split.
  - exact (proj1 (@forecast_cooling_column_is_ignored grad0 drift dist_calm
                    dist_calm_cooled dist_calm_cooled_same) mpc_8am).
  - exact (proj2 (@forecast_cooling_column_is_ignored grad0 drift dist_calm
                    dist_calm_cooled dist_calm_cooled_same)
                 A_unit B_unit 1%Z 28800%Z plant_8am mpc_new).
Defined.
